(** * toydb-python: the LSM store and the two B+ trees, embedded and verified

    The Python sources are embedded shallowly:
    - [lsm.py], [wal.py], [memtable.py], [sstable.py]: the LSM store.  The
      directory of the store is a finite map from file names to file
      contents; objects are records; methods are functions in a small
      state-and-exception monad whose state survives a raised exception,
      as a Python object does.
    - [b_plus_tree_index.py]: the paged B+ tree.  The index file is a flat
      list of bytes, pages are encoded and decoded with the [struct]
      formats of the source.
    - [b_plus_tree.py]: the in-memory B+ tree.  Nodes are heap objects
      addressed by reference. *)

From stdpp Require Import gmap strings list fin_maps sorting.
From Stdlib Require Import ZArith Lia.
From Stdlib Require String Ascii DecimalString OrderedTypeEx.
From Stdlib.Strings Require Import Byte.

Open Scope nat_scope.

(** ** Python runtime: exceptions, the state-and-exception monad, bisect *)

Module Py.

Inductive exn :=
| DatabaseError
| ValueError
| IndexError
| AttributeError
| StructError
| NonTermination.

Inductive outcome (A : Type) :=
| Return (a : A)
| Raise (e : exn).
Arguments Return {A} a.
Arguments Raise {A} e.

(** A computation over a mutable state [S]: the state is threaded
    through, and is kept as it is when an exception is raised. *)
Definition M (S A : Type) : Type := S -> outcome A * S.

Definition ret {S A} (a : A) : M S A := fun s => (Return a, s).
Definition raise {S A} (e : exn) : M S A := fun s => (Raise e, s).
Definition bind {S A B} (m : M S A) (k : A -> M S B) : M S B :=
  fun s => match m s with
           | (Return a, s') => k a s'
           | (Raise e, s') => (Raise e, s')
           end.
Definition get_state {S} : M S S := fun s => (Return s, s).
Definition put_state {S} (s : S) : M S unit := fun _ => (Return tt, s).
Definition modify {S} (f : S -> S) : M S unit := fun s => (Return tt, f s).
(** [try: m except Exception: h] *)
Definition try_except {S A} (m : M S A) (h : exn -> M S A) : M S A :=
  fun s => match m s with
           | (Return a, s') => (Return a, s')
           | (Raise e, s') => h e s'
           end.
(** Lift a computation that only reads the state. *)
Definition lift {S A} (f : S -> outcome A) : M S A := fun s => (f s, s).

Definition exec {S A} (m : M S A) (s : S) : S := snd (m s).
Definition eval {S A} (m : M S A) (s : S) : outcome A := fst (m s).

(** Pure fallible computations. *)
Definition obind {A B} (o : outcome A) (k : A -> outcome B) : outcome B :=
  match o with
  | Return a => k a
  | Raise e => Raise e
  end.

(** [seq[i]], raising IndexError out of range. *)
Definition index {A} (l : list A) (i : nat) : outcome A :=
  match l !! i with
  | Some x => Return x
  | None => Raise IndexError
  end.

(** [list.insert(i, x)] for [0 <= i]; Python clamps [i] to the length. *)
Definition list_insert {A} (i : nat) (x : A) (l : list A) : list A :=
  take i l ++ x :: drop i l.

(** [l[i:j]] *)
Definition slice {A} (i j : nat) (l : list A) : list A :=
  take (j - i) (drop i l).

Section Bisect.
Context {A : Type} (ltb : A -> A -> bool) (dflt : A).

(** The loop of [bisect.bisect_left(a, x)]:
    [while lo < hi: mid = (lo + hi) // 2;
       if a[mid] < x: lo = mid + 1 else: hi = mid]. *)
Fixpoint bisect_left_loop (fuel : nat) (a : list A) (x : A) (lo hi : nat) : nat :=
  match fuel with
  | O => lo
  | S fuel' =>
      if lo <? hi then
        let mid := (lo + hi) / 2 in
        if ltb (nth mid a dflt) x
        then bisect_left_loop fuel' a x (mid + 1) hi
        else bisect_left_loop fuel' a x lo mid
      else lo
  end.

Definition bisect_left (a : list A) (x : A) : nat :=
  bisect_left_loop (length a) a x 0 (length a).

(** [bisect.bisect_right(a, x)]:
    [if x < a[mid]: hi = mid else: lo = mid + 1]. *)
Fixpoint bisect_right_loop (fuel : nat) (a : list A) (x : A) (lo hi : nat) : nat :=
  match fuel with
  | O => lo
  | S fuel' =>
      if lo <? hi then
        let mid := (lo + hi) / 2 in
        if ltb x (nth mid a dflt)
        then bisect_right_loop fuel' a x lo mid
        else bisect_right_loop fuel' a x (mid + 1) hi
      else lo
  end.

Definition bisect_right (a : list A) (x : A) : nat :=
  bisect_right_loop (length a) a x 0 (length a).
End Bisect.

End Py.

Import Py.

Declare Scope py_scope.
Delimit Scope py_scope with py.
Notation "'let!' x ':=' m 'in' k" := (Py.bind m (fun x => k))
  (at level 10, x name, m at level 100, k at level 200) : py_scope.
Notation "'let?' x ':=' m 'in' k" := (Py.obind m (fun x => k))
  (at level 10, x name, m at level 100, k at level 200) : py_scope.
Open Scope py_scope.

(** ** Values of the LSM store *)

(** A Python value as the store handles it: [None] is the tombstone. *)
Inductive pyval :=
| PyNone
| PyInt (n : Z)
| PyStr (s : string).

#[global] Instance pyval_eq_dec : EqDecision pyval.
Proof. solve_decision. Defined.

Definition is_none (v : pyval) : bool :=
  match v with PyNone => true | _ => false end.

(** ** The directory of an LSM store *)

(** One line of [wal.log]: a JSON object, a blank line, or text that
    [json.loads] rejects.  The timestamp is not read back and is left out. *)
Inductive wal_line :=
| WalJson (operation key : string) (value : pyval)
| WalBlank
| WalGarbage.

(** Contents of a file of the store.  In an SSTable file the offset of a
    record is abstracted to its ordinal in the data region. *)
Inductive file :=
| WalFile (lines : list wal_line)
| DataFile (d : gmap string pyval)
| SSTFile (records : list (string * pyval)) (idx : gmap string nat).

(** The files under [base_path], by name. *)
Abbreviation FS := (gmap string file).

(** ** memtable.py *)

Module MemTable.

(** [max_size = None] stands for [float("inf")]. *)
Record t := mk { entries : list (string * pyval); max_size : option nat }.

Definition __init__ (max_size : option nat) : t :=
  {| entries := []; max_size := max_size |}.

Definition keys (m : t) : list string := map fst (entries m).

Definition add (key : string) (value : pyval) (m : t) : t :=
  let idx := bisect_left String.ltb "" (keys m) key in
  match entries m !! idx with
  | Some (k, _) =>
      if String.eqb k key
      then {| entries := <[idx := (key, value)]> (entries m); max_size := max_size m |}
      else {| entries := list_insert idx (key, value) (entries m); max_size := max_size m |}
  | None =>
      {| entries := list_insert idx (key, value) (entries m); max_size := max_size m |}
  end.

Definition get (m : t) (key : string) : pyval :=
  let idx := bisect_left String.ltb "" (keys m) key in
  match entries m !! idx with
  | Some (k, v) => if String.eqb k key then v else PyNone
  | None => PyNone
  end.

Definition is_full (m : t) : bool :=
  match max_size m with
  | Some n => n <=? length (entries m)
  | None => false
  end.

Definition range_scan (m : t) (start_key end_key : string) : list (string * pyval) :=
  let start_idx := bisect_left String.ltb "" (keys m) start_key in
  let end_idx := bisect_right String.ltb "" (keys m) end_key in
  slice start_idx end_idx (entries m).

End MemTable.

(** ** sstable.py *)

Module SSTable.

Record t := mk { filename : string; index : gmap string nat }.

(** [_load_index]: the index stored in the file. *)
Definition _load_index (fs : FS) (filename : string) : outcome (gmap string nat) :=
  match fs !! filename with
  | Some (SSTFile _ idx) => Return idx
  | _ => Raise DatabaseError
  end.

Definition __init__ (fs : FS) (filename : string) : outcome t :=
  match fs !! filename with
  | Some _ =>
      obind (_load_index fs filename) (fun idx =>
      Return {| filename := filename; index := idx |})
  | None => Return {| filename := filename; index := ∅ |}
  end.

(** The loop of [write_memtable]: each entry is recorded in the index
    under the offset it is written at. *)
Fixpoint index_entries (idx : gmap string nat) (offset : nat)
    (es : list (string * pyval)) : gmap string nat :=
  match es with
  | [] => idx
  | (key, _) :: es' => index_entries (<[key := offset]> idx) (S offset) es'
  end.

Definition write_memtable (s : t) (memtable : MemTable.t) (fs : FS) : t * FS :=
  let idx := index_entries (index s) 0 (MemTable.entries memtable) in
  ({| filename := filename s; index := idx |},
   <[filename s := SSTFile (MemTable.entries memtable) idx]> fs).

Definition get (s : t) (fs : FS) (key : string) : outcome pyval :=
  match index s !! key with
  | None => Return PyNone
  | Some offset =>
      match fs !! filename s with
      | Some (SSTFile records _) =>
          match records !! offset with
          | Some entry => Return (snd entry)
          | None => Raise DatabaseError
          end
      | _ => Raise DatabaseError
      end
  end.

Definition str_le (a b : string) : Prop := String.leb a b = true.
#[global] Instance str_le_dec : RelDecision str_le.
Proof. intros a b. unfold str_le. solve_decision. Defined.

Definition in_range (start_key end_key k : string) : bool :=
  String.leb start_key k && String.leb k end_key.

(** [sorted(k for k in self.index.keys() if start_key <= k <= end_key)] *)
Definition range_keys (s : t) (start_key end_key : string) : list string :=
  merge_sort str_le
    (List.filter (in_range start_key end_key) (map fst (map_to_list (index s)))).

Fixpoint scan_keys (s : t) (fs : FS) (ks : list string) : outcome (list (string * pyval)) :=
  match ks with
  | [] => Return []
  | key :: ks' =>
      obind (get s fs key) (fun value =>
      obind (scan_keys s fs ks') (fun rest =>
      Return (if is_none value then rest else (key, value) :: rest)))
  end.

Definition range_scan (s : t) (fs : FS) (start_key end_key : string)
    : outcome (list (string * pyval)) :=
  scan_keys s fs (range_keys s start_key end_key).

End SSTable.

(** ** wal.py *)

Module WALStore.

Record t := mk { data_file : string; wal_file : string; data : gmap string pyval }.

(** [WALEntry.serialize]: the JSON line of an entry. *)
Definition serialize (operation key : string) (value : pyval) : wal_line :=
  WalJson operation key value.

(** The lines of the WAL file; a file that is no text of ours reads as
    one line that is not JSON. *)
Definition read_lines (f : file) : list wal_line :=
  match f with
  | WalFile ls => ls
  | _ => [WalGarbage]
  end.

(** [open(wal_file, "a")], write the line, flush, fsync. *)
Definition _append_wal (w : t) (entry : wal_line) (fs : FS) : FS :=
  let old := match fs !! wal_file w with
             | Some f => read_lines f
             | None => []
             end in
  <[wal_file w := WalFile (old ++ [entry])]> fs.

(** The body of the loop of [_recover], one line at a time. *)
Fixpoint replay (lines : list wal_line) (d : gmap string pyval)
    : outcome (gmap string pyval) :=
  match lines with
  | [] => Return d
  | WalBlank :: rest => replay rest d
  | WalGarbage :: _ => Raise DatabaseError
  | WalJson operation key value :: rest =>
      if String.eqb operation "set" then replay rest (<[key := value]> d)
      else if String.eqb operation "delete" then replay rest (base.delete key d)
      else replay rest d
  end.

Definition _recover (w : t) (fs : FS) : outcome t :=
  let? d := match fs !! data_file w with
            | Some (DataFile d) => Return d
            | Some _ => Raise DatabaseError
            | None => Return (data w)
            end in
  let? d' := match fs !! wal_file w with
             | Some f => replay (read_lines f) d
             | None => Return d
             end in
  Return {| data_file := data_file w; wal_file := wal_file w; data := d' |}.

Definition __init__ (data_file wal_file : string) (fs : FS) : outcome t :=
  _recover {| data_file := data_file; wal_file := wal_file; data := ∅ |} fs.

Definition set (key : string) (value : pyval) (w : t) (fs : FS) : t * FS :=
  let fs' := _append_wal w (serialize "set" key value) fs in
  ({| data_file := data_file w; wal_file := wal_file w;
      data := <[key := value]> (data w) |}, fs').

Definition delete (key : string) (w : t) (fs : FS) : t * FS :=
  let fs' := _append_wal w (serialize "delete" key PyNone) fs in
  ({| data_file := data_file w; wal_file := wal_file w;
      data := base.delete key (data w) |}, fs').

(** The snapshot is moved over [data_file], then the WAL, when it
    exists, is truncated. *)
Definition checkpoint (w : t) (fs : FS) : FS :=
  let fs1 := <[data_file w := DataFile (data w)]> fs in
  match fs1 !! wal_file w with
  | Some _ => <[wal_file w := WalFile []]> fs1
  | None => fs1
  end.

End WALStore.

(** ** lsm.py *)

Module LSMTree.

Record t := mk {
  base_path : string;
  memtable : MemTable.t;
  sstables : list SSTable.t;
  max_sstables : nat;
  wal : WALStore.t
}.

(** The object and the directory it works on. *)
Definition world : Type := t * FS.

Definition with_memtable (m : MemTable.t) (s : t) : t :=
  {| base_path := base_path s; memtable := m; sstables := sstables s;
     max_sstables := max_sstables s; wal := wal s |}.
Definition with_sstables (l : list SSTable.t) (s : t) : t :=
  {| base_path := base_path s; memtable := memtable s; sstables := l;
     max_sstables := max_sstables s; wal := wal s |}.
Definition with_wal (w : WALStore.t) (s : t) : t :=
  {| base_path := base_path s; memtable := memtable s; sstables := sstables s;
     max_sstables := max_sstables s; wal := w |}.

Definition string_of_nat (n : nat) : string :=
  DecimalString.NilZero.string_of_uint (Nat.to_uint n).

(** The suffix test of the glob pattern. *)
Definition ends_with (suffix s : string) : bool :=
  let n := String.length s in
  let k := String.length suffix in
  (k <=? n) && String.eqb (String.substring (n - k) k s) suffix.

(** [fnmatch(name, "sstable_*.db")] *)
Definition glob_sstable (name : string) : bool :=
  String.prefix "sstable_" name && ends_with ".db" name
  && (11 <=? String.length name).

(** [sorted(self.base_path.glob("sstable_*.db"))] *)
Definition sorted_sstable_files (fs : FS) : list string :=
  merge_sort SSTable.str_le (List.filter glob_sstable (map fst (map_to_list fs))).

Fixpoint open_all (fs : FS) (names : list string) : outcome (list SSTable.t) :=
  match names with
  | [] => Return []
  | f :: rest =>
      let? s := SSTable.__init__ fs f in
      let? l := open_all fs rest in
      Return (s :: l)
  end.

Definition _load_sstables : M world unit :=
  fun '(s, fs) =>
    match open_all fs (sorted_sstable_files fs) with
    | Return l => (Return tt, (with_sstables l s, fs))
    | Raise e => (Raise e, (with_sstables [] s, fs))
    end.

(** The two loops of [_compact] that fill [merged]. *)
Fixpoint add_all (es : list (string * pyval)) (merged : MemTable.t) : MemTable.t :=
  match es with
  | [] => merged
  | (key, value) :: es' => add_all es' (MemTable.add key value merged)
  end.

Fixpoint merge_tables (fs : FS) (l : list SSTable.t) (merged : MemTable.t)
    : outcome MemTable.t :=
  match l with
  | [] => Return merged
  | sstable :: rest =>
      let? es := SSTable.range_scan sstable fs "" "~" in
      merge_tables fs rest (add_all es merged)
  end.

(** [os.remove] of each old file, an [OSError] being ignored. *)
Definition remove_files (files : list string) (fs : FS) : FS :=
  foldl (fun acc f => base.delete f acc) fs files.

Definition _compact : M world unit :=
  try_except
    (fun '(s, fs) =>
       match merge_tables fs (sstables s) (MemTable.__init__ None) with
       | Raise e => (Raise e, (s, fs))
       | Return merged =>
           match SSTable.__init__ fs "sstable_compacted.db" with
           | Raise e => (Raise e, (s, fs))
           | Return new_sstable =>
               let '(new_sstable, fs1) := SSTable.write_memtable new_sstable merged fs in
               let old_files := map SSTable.filename (sstables s) in
               (Return tt, (with_sstables [new_sstable] s, remove_files old_files fs1))
           end
       end)
    (fun _ => raise DatabaseError).

(** [_flush_memtable] up to and including the checkpoint. *)
Definition flush_publish : M world unit :=
  fun '(s, fs) =>
    let name := String.append "sstable_"
                  (String.append (string_of_nat (length (sstables s))) ".db") in
    match SSTable.__init__ fs name with
    | Raise e => (Raise e, (s, fs))
    | Return sstable =>
        let '(sstable, fs1) := SSTable.write_memtable sstable (memtable s) fs in
        let s1 := with_sstables (sstables s ++ [sstable]) s in
        let s2 := with_memtable (MemTable.__init__ (Some 1000)) s1 in
        (Return tt, (s2, WALStore.checkpoint (wal s2) fs1))
    end.

Definition _flush_memtable : M world unit :=
  fun '(s, fs) =>
    match MemTable.entries (memtable s) with
    | [] => (Return tt, (s, fs))
    | _ :: _ =>
        (let! _ := flush_publish in
         fun '(s', fs') =>
           if max_sstables s' <? length (sstables s')
           then _compact (s', fs')
           else (Return tt, (s', fs'))) (s, fs)
    end.

Definition __init__ (base_path : string) (fs : FS) : outcome t * FS :=
  match WALStore.__init__ "data.db" "wal.log" fs with
  | Raise e => (Raise e, fs)
  | Return w =>
      let s := {| base_path := base_path; memtable := MemTable.__init__ (Some 1000);
                  sstables := []; max_sstables := 5; wal := w |} in
      match (let! _ := _load_sstables in
             fun '(s', fs') =>
               if max_sstables s' <? length (sstables s')
               then _compact (s', fs')
               else (Return tt, (s', fs'))) (s, fs) with
      | (Return _, (s', fs')) => (Return s', fs')
      | (Raise e, (_, fs')) => (Raise e, fs')
      end
  end.

Definition set (key : string) (value : pyval) : M world unit :=
  fun '(s, fs) =>
    let '(w, fs1) := WALStore.set key value (wal s) fs in
    let s1 := with_wal w s in
    let s2 := with_memtable (MemTable.add key value (memtable s1)) s1 in
    if MemTable.is_full (memtable s2)
    then _flush_memtable (s2, fs1)
    else (Return tt, (s2, fs1)).

(** The loop of [get] over [reversed(self.sstables)]. *)
Fixpoint probe (fs : FS) (l : list SSTable.t) (key : string) : outcome pyval :=
  match l with
  | [] => Return PyNone
  | sstable :: rest =>
      let? value := SSTable.get sstable fs key in
      if is_none value then probe fs rest key else Return value
  end.

Definition get (key : string) : M world pyval :=
  lift (fun '(s, fs) =>
    let value := MemTable.get (memtable s) key in
    if is_none value then probe fs (rev (sstables s)) key else Return value).

(** The inner loop of [range_query] over one SSTable's scan. *)
Fixpoint emit_unseen (es : list (string * pyval)) (seen_keys : gset string)
    : list (string * pyval) * gset string :=
  match es with
  | [] => ([], seen_keys)
  | (key, value) :: es' =>
      if decide (key ∈ seen_keys) then emit_unseen es' seen_keys
      else
        let '(out, seen') := emit_unseen es' ({[key]} ∪ seen_keys) in
        (if is_none value then out else (key, value) :: out, seen')
  end.

Fixpoint query_tables (fs : FS) (l : list SSTable.t) (start_key end_key : string)
    (seen_keys : gset string) : outcome (list (string * pyval)) :=
  match l with
  | [] => Return []
  | sstable :: rest =>
      let? es := SSTable.range_scan sstable fs start_key end_key in
      let '(out, seen') := emit_unseen es seen_keys in
      let? more := query_tables fs rest start_key end_key seen' in
      Return (out ++ more)
  end.

(** The generator, drained into a list. *)
Definition range_query (start_key end_key : string) : M world (list (string * pyval)) :=
  lift (fun '(s, fs) =>
    let from_mem := MemTable.range_scan (memtable s) start_key end_key in
    let? from_sst := query_tables fs (rev (sstables s)) start_key end_key ∅ in
    Return (from_mem ++ from_sst)).

Definition delete (key : string) : M world unit :=
  fun '(s, fs) =>
    let '(w, fs1) := WALStore.delete key (wal s) fs in
    set key PyNone (with_wal w s, fs1).

Definition close : M world unit :=
  let! _ := (fun '(s, fs) =>
               match MemTable.entries (memtable s) with
               | [] => (Return tt, (s, fs))
               | _ :: _ => _flush_memtable (s, fs)
               end) in
  fun '(s, fs) => (Return tt, (s, WALStore.checkpoint (wal s) fs)).

(** The process stops without [close]: the objects are lost, the
    directory stays. *)
Definition abort (w : world) : FS := snd w.

End LSMTree.

(** ** Runs of the store *)

Module Scenario.
Import LSMTree.

(** One process: open the store under "db", run the script, stop.
    A script that does not end in [close] stops by aborting. *)
Definition session {A} (script : M world A) : M FS A :=
  fun fs =>
    match __init__ "db" fs with
    | (Return s, fs') => let '(r, w) := script (s, fs') in (r, abort w)
    | (Raise e, fs') => (Raise e, fs')
    end.

(** A process that writes one key and closes the store: one flush. *)
Definition put_and_close (key : string) (value : pyval) : M FS unit :=
  session (let! _ := set key value in close).

(** Six flushes: the sixth makes the table count exceed
    [max_sstables] and runs the compaction. *)
Definition fill_until_compaction : M FS unit :=
  let! _ := put_and_close "a" (PyInt 1) in
  let! _ := put_and_close "b" (PyInt 2) in
  let! _ := put_and_close "c" (PyInt 3) in
  let! _ := put_and_close "d" (PyInt 4) in
  let! _ := put_and_close "e" (PyInt 5) in
  put_and_close "f" (PyInt 6).

(** Five flushed tables: "a" written, then deleted, and a key above "~". *)
Definition five_tables : M FS unit :=
  let! _ := put_and_close "a" (PyInt 1) in
  let! _ := session (let! _ := delete "a" in close) in
  let! _ := put_and_close "~x" (PyInt 3) in
  let! _ := put_and_close "d" (PyInt 4) in
  put_and_close "e" (PyInt 5).

(** The object of [__init__] before the WAL store and the tables are
    loaded. *)
Definition unopened : t :=
  {| base_path := "db"; memtable := MemTable.__init__ (Some 1000); sstables := [];
     max_sstables := 5; wal := WALStore.mk "data.db" "wal.log" ∅ |}.

(** The store opened on a directory, for the scripts below, whose
    directories all open. *)
Definition opened (fs : FS) : world :=
  match __init__ "db" fs with
  | (Return s, fs') => (s, fs')
  | (Raise _, fs') => (unopened, fs')
  end.

(** One flushed table holding "a". *)
Definition one_table : world := opened (exec (put_and_close "a" (PyInt 1)) ∅).

(** The sixth flush of [five_tables], stopped before its compaction. *)
Definition before_compaction : world :=
  exec (let! _ := set "f" (PyInt 6) in flush_publish) (opened (exec five_tables ∅)).

End Scenario.

(** ** Python bytes and the struct module *)

Abbreviation bytes := (list byte).

#[global] Instance byte_eq_decision : EqDecision byte := byte_eq_dec.

(** [a < b] on bytes objects: lexicographic on the unsigned byte values. *)
Fixpoint bytes_ltb (a b : bytes) : bool :=
  match a, b with
  | [], [] => false
  | [], _ :: _ => true
  | _ :: _, [] => false
  | x :: a', y :: b' =>
      if (Byte.to_N x <? Byte.to_N y)%N then true
      else if (Byte.to_N y <? Byte.to_N x)%N then false
      else bytes_ltb a' b'
  end.

(** [a <= b] *)
Definition bytes_leb (a b : bytes) : bool := negb (bytes_ltb b a).

Module struct.

(** The byte of a number below 256. *)
Definition u8 (n : N) : byte := default x00 (Byte.of_N n).

(** [width] bytes of [n], least significant first. *)
Fixpoint pack_le (width : nat) (n : N) : bytes :=
  match width with
  | O => []
  | S w => u8 (n mod 256) :: pack_le w (n / 256)
  end.

Fixpoint unpack_le (bs : bytes) : N :=
  match bs with
  | [] => 0
  | b :: bs' => Byte.to_N b + 256 * unpack_le bs'
  end.

(** The range check of an unsigned field of [width] bytes. *)
Definition fits (width : nat) (n : N) : bool :=
  (n <? 2 ^ (8 * N.of_nat width))%N.

(** [struct.pack] of one unsigned little-endian field: B, H, I, Q are the
    widths 1, 2, 4, 8.  A value out of range raises [struct.error]. *)
Definition pack_uint (width : nat) (n : N) : outcome bytes :=
  if fits width n then Return (pack_le width n) else Raise StructError.

(** [struct.unpack] of one field: the buffer must have the size of the
    format. *)
Definition unpack_uint (width : nat) (bs : bytes) : outcome N :=
  if length bs =? width then Return (unpack_le bs) else Raise StructError.

(** [data.ljust(n, b'\0')] *)
Definition ljust (n : nat) (data : bytes) : bytes :=
  data ++ replicate (n - length data) x00.

End struct.

(** ** b_plus_tree_index.py: pages *)

Definition PAGE_SIZE : nat := 4096.

Module Page.

(** A page object.  [children] holds the values of a leaf page and the
    child page numbers of an internal page; [next_page] is an attribute
    of leaf pages only and is 0 in an internal page. *)
Record t := mk {
  page_id : N;
  order : nat;
  is_leaf : bool;
  keys : list bytes;
  children : list N;
  next_page : N
}.

Definition with_keys (ks : list bytes) (cs : list N) (p : t) : t :=
  {| page_id := page_id p; order := order p; is_leaf := is_leaf p;
     keys := ks; children := cs; next_page := next_page p |}.
Definition with_next_page (n : N) (p : t) : t :=
  {| page_id := page_id p; order := order p; is_leaf := is_leaf p;
     keys := keys p; children := children p; next_page := n |}.

(** [LeafPage(order, page_id)] and [InternalPage(order, page_id)] *)
Definition new_leaf (order : nat) (page_id : N) : t :=
  {| page_id := page_id; order := order; is_leaf := true;
     keys := []; children := []; next_page := 0 |}.
Definition new_internal (order : nat) (page_id : N) : t :=
  {| page_id := page_id; order := order; is_leaf := false;
     keys := []; children := []; next_page := 0 |}.

(** The loop of [deserialize] over the [key_count] entries, from
    [offset]; it returns the keys, the children and the final offset. *)
Fixpoint read_entries (key_count : nat) (data : bytes) (offset : nat)
    : outcome (list bytes * list N * nat) :=
  match key_count with
  | O => Return ([], [], offset)
  | S n =>
      let? key_len := struct.unpack_uint 2 (slice offset (offset + 2) data) in
      let offset := offset + 2 in
      let key := slice offset (offset + N.to_nat key_len) data in
      let offset := offset + N.to_nat key_len in
      let? value := struct.unpack_uint 4 (slice offset (offset + 4) data) in
      let offset := offset + 4 in
      let? rest := read_entries n data offset in
      let '(ks, cs, offset') := rest in
      Return (key :: ks, value :: cs, offset')
  end.

Definition deserialize (data : bytes) (order : nat) (page_id : N) : outcome t :=
  let? is_leaf := struct.unpack_uint 1 (slice 0 1 (slice 0 7 data)) in
  let? key_count := struct.unpack_uint 2 (slice 1 3 (slice 0 7 data)) in
  let? next_page := struct.unpack_uint 4 (slice 3 7 (slice 0 7 data)) in
  let? entries := read_entries (N.to_nat key_count) data 7 in
  let '(ks, cs, offset) := entries in
  if negb (is_leaf =? 0)%N then
    Return {| page_id := page_id; order := order; is_leaf := true;
              keys := ks; children := cs; next_page := next_page |}
  else if (0 <? key_count)%N then
    let? last_child := struct.unpack_uint 4 (slice offset (offset + 4) data) in
    Return {| page_id := page_id; order := order; is_leaf := false;
              keys := ks; children := cs ++ [last_child]; next_page := 0 |}
  else
    Return {| page_id := page_id; order := order; is_leaf := false;
              keys := ks; children := cs; next_page := 0 |}.

Definition is_overfull (p : t) : bool := order p <=? length (keys p).

(** The entries written by both [serialize] methods:
    [for key, value in zip(keys, children)]. *)
Fixpoint write_entries (ks : list bytes) (cs : list N) : outcome bytes :=
  match ks, cs with
  | key :: ks', value :: cs' =>
      let? key_len := struct.pack_uint 2 (N.of_nat (length key)) in
      let? value_data := struct.pack_uint 4 value in
      let? rest := write_entries ks' cs' in
      Return (key_len ++ key ++ value_data ++ rest)
  | _, _ => Return []
  end.

End Page.

Module LeafPage.

Definition serialize (p : Page.t) : outcome bytes :=
  let? is_leaf := struct.pack_uint 1 1 in
  let? key_count := struct.pack_uint 2 (N.of_nat (length (Page.keys p))) in
  let? next_page := struct.pack_uint 4 (Page.next_page p) in
  let? entries := Page.write_entries (Page.keys p) (Page.children p) in
  Return (is_leaf ++ key_count ++ next_page ++ entries).

(** The page after [add_record], and its result. *)
Definition add_record (key : bytes) (value : N) (p : Page.t) : Page.t * bool :=
  let pos := bisect_left bytes_ltb [] (Page.keys p) key in
  match Page.keys p !! pos with
  | Some k =>
      if bool_decide (k = key) then (p, false)
      else (Page.with_keys (list_insert pos key (Page.keys p))
              (list_insert pos value (Page.children p)) p, true)
  | None =>
      (Page.with_keys (list_insert pos key (Page.keys p))
         (list_insert pos value (Page.children p)) p, true)
  end.

Definition get_values (p : Page.t) (key : bytes) : outcome (list N) :=
  let pos := bisect_left bytes_ltb [] (Page.keys p) key in
  match Page.keys p !! pos with
  | Some k =>
      if bool_decide (k = key)
      then let? v := index (Page.children p) pos in Return [v]
      else Return []
  | None => Return []
  end.

End LeafPage.

Module InternalPage.

Definition serialize (p : Page.t) : outcome bytes :=
  let? is_leaf := struct.pack_uint 1 0 in
  let? key_count := struct.pack_uint 2 (N.of_nat (length (Page.keys p))) in
  let? placeholder := struct.pack_uint 4 0 in
  let? entries := Page.write_entries (Page.keys p) (removelast (Page.children p)) in
  match last (Page.children p) with
  | Some last_child =>
      let? last_data := struct.pack_uint 4 last_child in
      Return (is_leaf ++ key_count ++ placeholder ++ entries ++ last_data)
  | None => Return (is_leaf ++ key_count ++ placeholder ++ entries)
  end.

End InternalPage.

(** The method of the page's class. *)
Definition serialize (p : Page.t) : outcome bytes :=
  if Page.is_leaf p then LeafPage.serialize p else InternalPage.serialize p.

(** ** b_plus_tree_index.py: the index *)

Module BPlusTreeIndex.

Definition MAGIC : N := 0x13579BDF%N.

(** The object: [metadata['magic']] is the constant [MAGIC]. *)
Record t := mk {
  filename : string;
  order : nat;
  root_page : N;
  free_pages : list N
}.

(** The object and the content of its file. *)
Definition world : Type := t * bytes.

Definition with_root_page (r : N) (self : t) : t :=
  {| filename := filename self; order := order self; root_page := r;
     free_pages := free_pages self |}.
Definition with_free_pages (l : list N) (self : t) : t :=
  {| filename := filename self; order := order self; root_page := root_page self;
     free_pages := l |}.

(** [f.seek(off); f.write(data)] on the file opened with 'r+b': a gap
    after the end of the file is filled with zero bytes. *)
Definition write_at (file : bytes) (off : nat) (data : bytes) : bytes :=
  take off file ++ replicate (off - length file) x00 ++ data
    ++ drop (off + length data) file.

(** [f.seek(off); f.read(n)] *)
Definition read_at (file : bytes) (off n : nat) : bytes :=
  take n (drop off file).

(** [struct.pack('<IIQI', magic, order, root_page, free_count)] *)
Definition pack_metadata (magic order root_page free_count : N) : outcome bytes :=
  let? a := struct.pack_uint 4 magic in
  let? b := struct.pack_uint 4 order in
  let? c := struct.pack_uint 8 root_page in
  let? d := struct.pack_uint 4 free_count in
  Return (a ++ b ++ c ++ d).

(** The file written by [_initialize_new_file]; the file is created
    empty before a field can be refused. *)
Definition _initialize_new_file (self : t) : outcome bytes * bytes :=
  match pack_metadata MAGIC (N.of_nat (order self)) (root_page self) 0 with
  | Raise e => (Raise e, [])
  | Return meta =>
      let meta_page := struct.ljust PAGE_SIZE meta in
      match LeafPage.serialize (Page.new_leaf (order self) 1) with
      | Raise e => (Raise e, meta_page)
      | Return root =>
          (Return (meta_page ++ struct.ljust PAGE_SIZE root),
           meta_page ++ struct.ljust PAGE_SIZE root)
      end
  end.

(** [struct.unpack(f'<{count}I', data)] *)
Fixpoint unpack_u32s (count : nat) (data : bytes) : list N :=
  match count with
  | O => []
  | S n => struct.unpack_le (take 4 data) :: unpack_u32s n (drop 4 data)
  end.

Definition _load_metadata (self : t) (file : bytes) : outcome t :=
  let data := read_at file 0 PAGE_SIZE in
  let head := slice 0 20 data in
  if negb (length head =? 20) then Raise StructError else
  let magic := struct.unpack_le (slice 0 4 head) in
  let order := struct.unpack_le (slice 4 8 head) in
  let root_page := struct.unpack_le (slice 8 16 head) in
  let free_count := struct.unpack_le (slice 16 20 head) in
  if negb (magic =? MAGIC)%N then Raise ValueError else
  let self := {| filename := filename self; order := N.to_nat order;
                 root_page := root_page; free_pages := free_pages self |} in
  if (0 <? free_count)%N then
    let raw := slice 20 (20 + 4 * N.to_nat free_count) data in
    if length raw =? 4 * N.to_nat free_count
    then Return (with_free_pages (unpack_u32s (N.to_nat free_count) raw) self)
    else Raise StructError
  else Return self.

(** [BPlusTreeIndex(filename, order)] on a disk where the file is
    [disk], or is missing. *)
Definition __init__ (filename : string) (order : nat) (disk : option bytes)
    : outcome t * option bytes :=
  let self := {| filename := filename; order := order; root_page := 1;
                 free_pages := [] |} in
  match disk with
  | None =>
      match _initialize_new_file self with
      | (Return _, file) => (Return self, Some file)
      | (Raise e, file) => (Raise e, Some file)
      end
  | Some file =>
      match _load_metadata self file with
      | Return self' => (Return self', Some file)
      | Raise e => (Raise e, Some file)
      end
  end.

Definition _get_file_size : M world nat :=
  lift (fun '(_, file) => Return (length file)).

Definition _get_page (page_id : N) : M world Page.t :=
  lift (fun '(self, file) =>
    Page.deserialize (read_at file (N.to_nat page_id * PAGE_SIZE) PAGE_SIZE)
      (order self) page_id).

Definition _write_page (page : Page.t) : M world unit :=
  fun '(self, file) =>
    match serialize page with
    | Raise e => (Raise e, (self, file))
    | Return data =>
        (Return tt,
         (self, write_at file (N.to_nat (Page.page_id page) * PAGE_SIZE)
                  (struct.ljust PAGE_SIZE data)))
    end.

(** The loop of [_find_leaf_page].  The path is kept innermost page
    first: [path.append] is a cons, [path.pop()] takes the head.  The
    file has [fuel - 1] pages: a descent through more internal pages
    than that reads some page twice and never ends. *)
Fixpoint find_leaf_loop (fuel : nat) (key : bytes) (current : Page.t)
    (path : list Page.t) : M world (Page.t * list Page.t) :=
  if Page.is_leaf current then ret (current, path)
  else
    match fuel with
    | O => raise NonTermination
    | S fuel' =>
        let path := current :: path in
        let pos := bisect_right bytes_ltb [] (Page.keys current) key in
        let! child := lift (fun _ => index (Page.children current) pos) in
        let! next := _get_page child in
        find_leaf_loop fuel' key next path
    end.

(** [_find_leaf_page(key, start_page, path)] with [start_page] and
    [path] given. *)
Definition _find_leaf_page (key : bytes) (start_page : Page.t)
    : M world (Page.t * list Page.t) :=
  let! size := _get_file_size in
  find_leaf_loop (size / PAGE_SIZE + 1) key start_page [].

(** [_find_leaf_page(key)]: from the root, no path. *)
Definition _find_leaf_page_from_root (key : bytes) : M world Page.t :=
  let! self := get_state in
  let! start_page := _get_page (root_page (fst self)) in
  let! found := _find_leaf_page key start_page in
  ret (fst found).

Definition _allocate_page (is_leaf : bool) : M world Page.t :=
  fun '(self, file) =>
    let '(page_id, self') :=
      match last (free_pages self) with
      | Some page_id => (page_id, with_free_pages (removelast (free_pages self)) self)
      | None => (N.of_nat (length file / PAGE_SIZE), self)
      end in
    (Return (if is_leaf then Page.new_leaf (order self) page_id
             else Page.new_internal (order self) page_id),
     (self', file)).

(** [_split_internal], with [_insert_into_parent] on the rest of the
    path as its last step. *)
Definition split_internal_then
    (insert_into_parent : Page.t -> bytes -> Page.t -> M world unit)
    (node : Page.t) : M world unit :=
  let! new_node := _allocate_page false in
  let mid := length (Page.keys node) / 2 in
  let new_node := Page.with_keys (drop (mid + 1) (Page.keys node))
                    (drop (mid + 1) (Page.children node)) new_node in
  let! mid_key := lift (fun _ => index (Page.keys node) mid) in
  let node := Page.with_keys (take mid (Page.keys node))
                (take (mid + 1) (Page.children node)) node in
  let! _ := _write_page node in
  let! _ := _write_page new_node in
  insert_into_parent node mid_key new_node.

Fixpoint _insert_into_parent (path : list Page.t) (left : Page.t) (key : bytes)
    (right : Page.t) : M world unit :=
  match path with
  | [] =>
      let! new_root := _allocate_page false in
      let new_root := Page.with_keys [key] [Page.page_id left; Page.page_id right]
                        new_root in
      let! _ := modify (fun '(self, file) =>
                  (with_root_page (Page.page_id new_root) self, file)) in
      let! _ := _write_page new_root in
      fun '(self, file) =>
        match struct.pack_uint 8 (Page.page_id new_root) with
        | Return data => (Return tt, (self, write_at file 8 data))
        | Raise e => (Raise e, (self, file))
        end
  | parent :: path' =>
      let pos := bisect_left bytes_ltb [] (Page.keys parent) key in
      let parent := Page.with_keys (list_insert pos key (Page.keys parent))
                      (list_insert (pos + 1) (Page.page_id right) (Page.children parent))
                      parent in
      let! _ := _write_page parent in
      if Page.is_overfull parent
      then split_internal_then (_insert_into_parent path') parent
      else ret tt
  end.

Definition _split_internal (node : Page.t) (path : list Page.t) : M world unit :=
  split_internal_then (_insert_into_parent path) node.

Definition _split_leaf (leaf : Page.t) (path : list Page.t) : M world unit :=
  let! new_leaf := _allocate_page true in
  let mid := length (Page.keys leaf) / 2 in
  let new_leaf := Page.with_keys (drop mid (Page.keys leaf))
                    (drop mid (Page.children leaf)) new_leaf in
  let leaf' := Page.with_keys (take mid (Page.keys leaf))
                 (take mid (Page.children leaf)) leaf in
  let new_leaf := Page.with_next_page (Page.next_page leaf') new_leaf in
  let leaf' := Page.with_next_page (Page.page_id new_leaf) leaf' in
  let! _ := _write_page leaf' in
  let! _ := _write_page new_leaf in
  let! promoted := lift (fun _ => index (Page.keys new_leaf) 0) in
  _insert_into_parent path leaf' promoted new_leaf.

Definition insert (key : bytes) (value : N) : M world unit :=
  let! self := get_state in
  let! root_page := _get_page (root_page (fst self)) in
  let! found := _find_leaf_page key root_page in
  let '(leaf, path) := found in
  let '(leaf, added) := LeafPage.add_record key value leaf in
  if added then
    let! _ := _write_page leaf in
    if Page.is_overfull leaf then _split_leaf leaf path else ret tt
  else ret tt.

Definition search (key : bytes) : M world (list N) :=
  let! leaf := _find_leaf_page_from_root key in
  lift (fun _ => LeafPage.get_values leaf key).

(** The [for] loop of [range_query] over one page: the values found,
    and whether a key above [end] stopped the query. *)
Fixpoint scan_page (start end_ : bytes) (ks : list bytes) (cs : list N)
    : list N * bool :=
  match ks, cs with
  | key :: ks', value :: cs' =>
      if bytes_leb start key && bytes_leb key end_ then
        let '(out, stop) := scan_page start end_ ks' cs' in (value :: out, stop)
      else if bytes_ltb end_ key then ([], true)
      else scan_page start end_ ks' cs'
  | _, _ => ([], false)
  end.

Fixpoint range_loop (fuel : nat) (start end_ : bytes) (current_page : Page.t)
    : M world (list N) :=
  let '(out, stop) := scan_page start end_ (Page.keys current_page)
                        (Page.children current_page) in
  if stop then ret out
  else if (Page.next_page current_page =? 0)%N then ret out
  else
    match fuel with
    | O => raise NonTermination
    | S fuel' =>
        let! next := _get_page (Page.next_page current_page) in
        let! more := range_loop fuel' start end_ next in
        ret (out ++ more)
    end.

Definition range_query (start end_ : bytes) : M world (list N) :=
  let! current_page := _find_leaf_page_from_root start in
  let! size := _get_file_size in
  range_loop (size / PAGE_SIZE + 1) start end_ current_page.

End BPlusTreeIndex.

(** ** Runs of the index *)

Module IndexScenario.
Import BPlusTreeIndex.

(** A bytes literal. *)
Definition b (s : string) : bytes := String.list_byte_of_string s.

(** The index created on a disk without the file; the scripts below use
    orders for which the creation succeeds. *)
Definition created (order : nat) : world :=
  match __init__ "test.idx" order None with
  | (Return self, Some file) => (self, file)
  | (_, _) => (mk "test.idx" order 1 [], [])
  end.

Fixpoint insert_all (kvs : list (bytes * N)) : M world unit :=
  match kvs with
  | [] => ret tt
  | (key, value) :: rest => let! _ := insert key value in insert_all rest
  end.

(** The test data of the source file. *)
Definition test_data : list (bytes * N) :=
  [(b "Alice", 1001%N); (b "Bob", 1002%N); (b "Charlie", 1003%N); (b "David", 1004%N);
   (b "Eve", 1005%N); (b "Frank", 1006%N); (b "George", 1007%N)].

(** The index of the source's test: order 4, the seven records. *)
Definition test_index : world := exec (insert_all test_data) (created 4).

(** The keys "0" to "9", in this order. *)
Definition ten_keys : list (bytes * N) :=
  map (fun i => ([struct.u8 (48 + N.of_nat i)], N.of_nat i)) (seq 0 10).

(** The pages 1, 2, ... of the file, as [_get_page] reads them. *)
Definition pages (w : world) : list (outcome Page.t) :=
  map (fun i => eval (_get_page (N.of_nat i)) w)
    (seq 1 (length (snd w) / PAGE_SIZE - 1)).

(** The walk over the leaves that reads the whole index: from the root
    through the first child of every internal page down to a leaf, then
    along [next_page] as the loop of [range_query] does, until a page
    has none.  It collects the keys of the leaves visited. *)
Fixpoint leftmost_loop (fuel : nat) (current : Page.t) : M world Page.t :=
  if Page.is_leaf current then ret current
  else
    match fuel with
    | O => raise NonTermination
    | S fuel' =>
        let! child := lift (fun _ => index (Page.children current) 0) in
        let! next := _get_page child in
        leftmost_loop fuel' next
    end.

Definition leftmost_leaf : M world Page.t :=
  let! self := get_state in
  let! root := _get_page (root_page (fst self)) in
  let! size := _get_file_size in
  leftmost_loop (size / PAGE_SIZE + 1) root.

Fixpoint chain_loop (fuel : nat) (current_page : Page.t) : M world (list bytes) :=
  if (Page.next_page current_page =? 0)%N then ret (Page.keys current_page)
  else
    match fuel with
    | O => raise NonTermination
    | S fuel' =>
        let! next := _get_page (Page.next_page current_page) in
        let! more := chain_loop fuel' next in
        ret (Page.keys current_page ++ more)
    end.

Definition leaf_chain_keys : M world (list bytes) :=
  let! leaf := leftmost_leaf in
  let! size := _get_file_size in
  chain_loop (size / PAGE_SIZE + 1) leaf.

End IndexScenario.

(** ** b_plus_tree.py: the in-memory tree *)

Module BPlusTree.

(** A reference to a node object. *)
Definition ref : Type := nat.

(** The two classes of nodes.  A [LeafNode] has no attribute
    [children], an [InternalNode] no attributes [values] and
    [next_leaf]. *)
Inductive node :=
| LeafNode (order : nat) (keys : list Z) (values : list pyval) (next_leaf : option ref)
| InternalNode (order : nat) (keys : list Z) (children : list ref).

(** The tree object and the objects it reaches.  The global
    [bplus_tree] that [Node.is_root] reads is this tree. *)
Record t := mk {
  order : nat;
  root : ref;
  heap : list node
}.

Definition node_order (n : node) : nat :=
  match n with LeafNode o _ _ _ => o | InternalNode o _ _ => o end.
Definition keys (n : node) : list Z :=
  match n with LeafNode _ ks _ _ => ks | InternalNode _ ks _ => ks end.
Definition is_leaf (n : node) : bool :=
  match n with LeafNode _ _ _ _ => true | InternalNode _ _ _ => false end.
Definition with_keys (ks : list Z) (n : node) : node :=
  match n with
  | LeafNode o _ vs nx => LeafNode o ks vs nx
  | InternalNode o _ cs => InternalNode o ks cs
  end.

(** [node.children], an AttributeError on a leaf. *)
Definition children (n : node) : outcome (list ref) :=
  match n with
  | InternalNode _ _ cs => Return cs
  | LeafNode _ _ _ _ => Raise AttributeError
  end.
Definition with_children (cs : list ref) (n : node) : node :=
  match n with
  | InternalNode o ks _ => InternalNode o ks cs
  | LeafNode o ks vs nx => LeafNode o ks vs nx
  end.

Definition deref (r : ref) : M t node :=
  lift (fun s => index (heap s) r).
Definition store (r : ref) (n : node) : M t unit :=
  modify (fun s => {| order := order s; root := root s; heap := <[r := n]> (heap s) |}).
Definition alloc (n : node) : M t ref :=
  fun s => (Return (length (heap s)),
            {| order := order s; root := root s; heap := heap s ++ [n] |}).
Definition set_root (r : ref) : M t unit :=
  modify (fun s => {| order := order s; root := r; heap := heap s |}).

Definition __init__ (order : nat) : t :=
  {| order := order; root := 0; heap := [LeafNode order [] [] None] |}.

(** *** Node *)

Definition is_root (r : ref) : M t bool :=
  lift (fun s => Return (bool_decide (r = root s))).
Definition is_overfilled (n : node) : bool := node_order n <? length (keys n).
Definition is_underfilled (n : node) : bool :=
  length (keys n) <? (node_order n + 1) / 2 - 1.
Definition is_half_filled (n : node) : bool :=
  (node_order n + 1) / 2 <=? length (keys n).

(** No class of the file defines [can_lend]: the call raises
    AttributeError. *)
Definition can_lend (r : ref) : M t bool := raise AttributeError.

(** The position given by [while index < len(keys) and keys[index] < key]. *)
Fixpoint first_not_below (ks : list Z) (key : Z) : nat :=
  match ks with
  | k :: ks' => if (k <? key)%Z then S (first_not_below ks' key) else 0
  | [] => 0
  end.

(** The position given by [while index < len(keys) and key >= keys[index]]. *)
Fixpoint first_above (ks : list Z) (key : Z) : nat :=
  match ks with
  | k :: ks' => if (k <=? key)%Z then S (first_above ks' key) else 0
  | [] => 0
  end.

(** [list.index(x)], a ValueError when [x] is not in the list. *)
Fixpoint list_index {A} `{EqDecision A} (l : list A) (x : A) : outcome nat :=
  match l with
  | [] => Raise ValueError
  | y :: l' => if decide (y = x) then Return 0
               else let? i := list_index l' x in Return (S i)
  end.

(** [list.pop(i)] for [0 <= i]: the element and the rest. *)
Definition list_pop {A} (i : nat) (l : list A) : outcome (A * list A) :=
  match l !! i with
  | Some x => Return (x, take i l ++ drop (S i) l)
  | None => Raise IndexError
  end.

(** *** LeafNode *)

Definition leaf_insert (r : ref) (key : Z) (value : pyval) : M t unit :=
  let! n := deref r in
  match n with
  | LeafNode o ks vs nx =>
      let i := first_not_below ks key in
      store r (LeafNode o (list_insert i key ks) (list_insert i value vs) nx)
  | InternalNode _ _ _ => raise AttributeError
  end.

Definition leaf_get (n : node) (key : Z) : outcome pyval :=
  match n with
  | LeafNode _ ks vs _ =>
      let left := bisect_left Z.ltb 0%Z ks key in
      match ks !! left with
      | Some k => if (k =? key)%Z then index vs left else Return PyNone
      | None => Return PyNone
      end
  | InternalNode _ _ _ => Raise AttributeError
  end.

Definition leaf_delete (r : ref) (key : Z) : M t bool :=
  let! n := deref r in
  match n with
  | LeafNode o ks vs nx =>
      match list_index ks key with
      | Raise _ => ret false
      | Return i =>
          let ks' := take i ks ++ drop (S i) ks in
          let! _ := store r (LeafNode o ks' vs nx) in
          let! vs' := lift (fun _ => list_pop i vs) in
          let! _ := store r (LeafNode o ks' (snd vs') nx) in
          ret true
      end
  | InternalNode _ _ _ => raise AttributeError
  end.

(** [LeafNode.split]: the keys and values from [mid] on are copied to
    the new node; the source leaves them in [self] as well. *)
Definition leaf_split (r : ref) (o : nat) (ks : list Z) (vs : list pyval)
    (nx : option ref) : M t (ref * Z) :=
  let mid := length ks / 2 in
  let! new_node := alloc (LeafNode o (drop mid ks) (drop mid vs) nx) in
  let! _ := store r (LeafNode o ks vs (Some new_node)) in
  let! promote := lift (fun _ => index (drop mid ks) 0) in
  ret (new_node, promote).

(** *** InternalNode *)

Definition get_child (n : node) (key : Z) : outcome ref :=
  let? cs := children n in
  index cs (first_above (keys n) key).

Definition insert_child (r : ref) (key : Z) (child_node : ref) : M t unit :=
  let! n := deref r in
  let! cs := lift (fun _ => children n) in
  let i := first_not_below (keys n) key in
  store r (with_children (list_insert (i + 1) child_node cs)
             (with_keys (list_insert i key (keys n)) n)).

Definition internal_split (r : ref) (o : nat) (ks : list Z) (cs : list ref)
    : M t (ref * Z) :=
  let mid := length ks / 2 in
  let! promote_key := lift (fun _ => index ks mid) in
  let! new_node := alloc (InternalNode o (drop (mid + 1) ks) (drop (mid + 1) cs)) in
  let! _ := store r (InternalNode o (take mid ks) (take (mid + 1) cs)) in
  ret (new_node, promote_key).

(** [node.split()] *)
Definition split (r : ref) : M t (ref * Z) :=
  let! n := deref r in
  match n with
  | LeafNode o ks vs nx => leaf_split r o ks vs nx
  | InternalNode o ks cs => internal_split r o ks cs
  end.

Definition get_siblings (parent child : ref) : M t (option ref * option ref) :=
  let! p := deref parent in
  let! cs := lift (fun _ => children p) in
  let! i := lift (fun _ => list_index cs child) in
  ret (if 0 <? i then cs !! (i - 1) else None,
       if i <? length cs - 1 then cs !! (i + 1) else None).

(** [a.keys.pop()] *)
Definition pop_last_key (r : ref) : M t Z :=
  let! n := deref r in
  match last (keys n) with
  | Some k => let! _ := store r (with_keys (removelast (keys n)) n) in ret k
  | None => raise IndexError
  end.

(** [a.children.pop()] *)
Definition pop_last_child (r : ref) : M t ref :=
  let! n := deref r in
  let! cs := lift (fun _ => children n) in
  match last cs with
  | Some c => let! _ := store r (with_children (removelast cs) n) in ret c
  | None => raise IndexError
  end.

(** [a.keys.pop(0)] *)
Definition pop_first_key (r : ref) : M t Z :=
  let! n := deref r in
  match keys n with
  | k :: ks => let! _ := store r (with_keys ks n) in ret k
  | [] => raise IndexError
  end.

(** [a.children.pop(0)] *)
Definition pop_first_child (r : ref) : M t ref :=
  let! n := deref r in
  let! cs := lift (fun _ => children n) in
  match cs with
  | c :: cs' => let! _ := store r (with_children cs' n) in ret c
  | [] => raise IndexError
  end.

Definition set_key (r : ref) (i : nat) (key : Z) : M t unit :=
  let! n := deref r in
  if i <? length (keys n) then store r (with_keys (<[i := key]> (keys n)) n)
  else raise IndexError.

Definition redistribute (self from_node to_node : ref) (is_left : bool) : M t unit :=
  if is_left then
    let! p := deref self in
    let! cs := lift (fun _ => children p) in
    let! key_index := lift (fun _ => list_index cs from_node) in
    let! key := lift (fun _ => index (keys p) key_index) in
    let! last_key := pop_last_key from_node in
    let! last_child := pop_last_child from_node in
    let! t := deref to_node in
    let! _ := store to_node (with_keys (key :: keys t) t) in
    let! t := deref to_node in
    let! tcs := lift (fun _ => children t) in
    let! _ := store to_node (with_children (last_child :: tcs) t) in
    set_key self key_index last_key
  else
    let! p := deref self in
    let! cs := lift (fun _ => children p) in
    let! key_index := lift (fun _ => list_index cs to_node) in
    let! key := lift (fun _ => index (keys p) key_index) in
    let! first_key := pop_first_key to_node in
    let! first_child := pop_first_child to_node in
    let! f := deref from_node in
    let! _ := store from_node (with_keys (keys f ++ [key]) f) in
    let! f := deref from_node in
    let! fcs := lift (fun _ => children f) in
    let! _ := store from_node (with_children (fcs ++ [first_child]) f) in
    set_key self key_index first_key.

(** [parent.merge(left, right)]; [right] is [None] when the node has no
    sibling. *)
Definition merge (self left : ref) (right : option ref) : M t unit :=
  let! p := deref self in
  let! cs := lift (fun _ => children p) in
  let! i := lift (fun _ => list_index cs left) in
  let! sep := lift (fun _ => index (keys p) i) in
  let! right := match right with
                | Some r => ret r
                | None => raise AttributeError
                end in
  let! rn := deref right in
  let! ln := deref left in
  let! _ := store left (with_keys (keys ln ++ sep :: keys rn) ln) in
  let! ln := deref left in
  let! lcs := lift (fun _ => children ln) in
  let! rcs := lift (fun _ => children rn) in
  let! _ := store left (with_children (lcs ++ rcs) ln) in
  let! p := deref self in
  let! ks' := lift (fun _ => list_pop i (keys p)) in
  let! _ := store self (with_keys (snd ks') p) in
  let! p := deref self in
  let! pcs := lift (fun _ => children p) in
  let! cs' := lift (fun _ => list_pop (i + 1) pcs) in
  let! _ := store self (with_children (snd cs') p) in
  let! ln := deref left in
  match ln, rn with
  | LeafNode o ks vs _, LeafNode _ _ _ nx => store left (LeafNode o ks vs nx)
  | LeafNode _ _ _ _, InternalNode _ _ _ => raise AttributeError
  | InternalNode _ _ _, _ => ret tt
  end.

(** *** BPlusTree *)

(** The loop of [_find_leaf_with_path].  The path is kept innermost
    node first.  A descent through more internal nodes than the heap
    holds never ends. *)
Fixpoint find_loop (fuel : nat) (key : Z) (current : ref) (path : list ref)
    : M t (ref * list ref) :=
  let! n := deref current in
  if is_leaf n then ret (current, path)
  else
    match fuel with
    | O => raise NonTermination
    | S fuel' =>
        let! child := lift (fun _ => get_child n key) in
        find_loop fuel' key child (current :: path)
    end.

Definition _find_leaf_with_path (key : Z) : M t (ref * list ref) :=
  let! s := get_state in
  find_loop (length (heap s)) key (root s) [].

Definition _find_leaf (key : Z) : M t ref :=
  let! found := _find_leaf_with_path key in
  ret (fst found).

Fixpoint _handle_split (path : list ref) (node : ref) : M t unit :=
  let! sp := split node in
  let '(new_node, promote_key) := sp in
  match path with
  | [] =>
      let! s := get_state in
      let! new_root := alloc (InternalNode (order s) [promote_key] [node; new_node]) in
      set_root new_root
  | parent :: path' =>
      let! _ := insert_child parent promote_key new_node in
      let! p := deref parent in
      if is_overfilled p then _handle_split path' parent else ret tt
  end.

Definition insert (key : Z) (value : pyval) : M t unit :=
  let! found := _find_leaf_with_path key in
  let '(leaf, path) := found in
  let! _ := leaf_insert leaf key value in
  let! n := deref leaf in
  if is_overfilled n then _handle_split path leaf else ret tt.

Definition get (key : Z) : M t pyval :=
  let! leaf := _find_leaf key in
  let! n := deref leaf in
  lift (fun _ => leaf_get n key).

Fixpoint _handle_underflow (path : list ref) (node : ref) : M t unit :=
  let! at_root := is_root node in
  let! n := deref node in
  if at_root || is_half_filled n then ret tt
  else
    match path with
    | [] => raise IndexError
    | parent :: path' =>
        let! sibs := get_siblings parent node in
        let '(left_sib, right_sib) := sibs in
        let! lend_left := match left_sib with
                          | Some l => can_lend l
                          | None => ret false
                          end in
        if lend_left then
          redistribute parent (default node left_sib) node true
        else
          let! lend_right := match right_sib with
                             | Some r => can_lend r
                             | None => ret false
                             end in
          if lend_right then
            redistribute parent node (default node right_sib) false
          else
            let! _ := match left_sib with
                      | Some l => merge parent l (Some node)
                      | None => merge parent node right_sib
                      end in
            let! p := deref parent in
            if is_underfilled p then _handle_underflow path' parent else ret tt
    end.

Definition delete (key : Z) : M t unit :=
  let! found := _find_leaf_with_path key in
  let '(leaf, path) := found in
  let! deleted := leaf_delete leaf key in
  if deleted then _handle_underflow path leaf else ret tt.

(** The tree of the source's example: order 3, the keys 0 to [n - 1]
    with the values "value0", "value1", ... *)
Definition example_value (i : nat) : pyval :=
  PyStr (String.append "value" (LSMTree.string_of_nat i)).

Fixpoint insert_all (kvs : list (Z * pyval)) : M t unit :=
  match kvs with
  | [] => ret tt
  | (key, value) :: rest => let! _ := insert key value in insert_all rest
  end.

Definition example_tree (n : nat) : t :=
  exec (insert_all (map (fun i => (Z.of_nat i, example_value i)) (seq 0 n))) (__init__ 3).

End BPlusTree.

(** * Part II: theorems *)

(** ** Facts on bisect over a strictly ordered list *)

Class StrictOrderB {A : Type} (ltb : A -> A -> bool) : Prop := {
  ltb_irrefl : forall x, ltb x x = false;
  ltb_trans : forall x y z, ltb x y = true -> ltb y z = true -> ltb x z = true;
  ltb_connex : forall x y, ltb x y = false -> ltb y x = false -> x = y
}.

Section BisectFacts.
Context {A : Type} (ltb : A -> A -> bool) (dflt : A) `{!StrictOrderB ltb}.

Definition lt_rel (x y : A) : Prop := ltb x y = true.

Lemma sorted_lookup_lt (a : list A) i j x y :
  StronglySorted lt_rel a -> i < j -> a !! i = Some x -> a !! j = Some y ->
  ltb x y = true.
Proof.
  intros Hs. revert i j. induction Hs as [|z l Hs IH Hall]; intros i j Hij Hi Hj.
  - rewrite lookup_nil in Hi. discriminate.
  - destruct j as [|j]; [lia|]. simpl in Hj.
    destruct i as [|i]; simpl in Hi.
    + injection Hi as <-. rewrite Forall_lookup in Hall. exact (Hall _ _ Hj).
    + apply (IH i j); [lia|done..].
Qed.

Lemma bisect_left_loop_spec fuel (a : list A) x lo hi :
  StronglySorted lt_rel a ->
  lo <= hi -> hi <= length a -> hi - lo <= fuel ->
  (forall i y, i < lo -> a !! i = Some y -> ltb y x = true) ->
  (forall i y, hi <= i -> a !! i = Some y -> ltb y x = false) ->
  let r := bisect_left_loop ltb dflt fuel a x lo hi in
  r <= length a /\
  (forall i y, i < r -> a !! i = Some y -> ltb y x = true) /\
  (forall i y, r <= i -> a !! i = Some y -> ltb y x = false).
Proof.
  intros Hs. revert lo hi.
  induction fuel as [|fuel IH]; intros lo hi Hle Hhi Hfuel Hlo Hge; cbn [bisect_left_loop].
  - assert (lo = hi) as -> by lia. auto.
  - destruct (Nat.ltb_spec lo hi) as [Hlt|Hnlt].
    2:{ assert (lo = hi) as -> by lia. auto. }
    pose proof (Nat.div_mod_eq (lo + hi) 2) as Hdm.
    pose proof (Nat.mod_upper_bound (lo + hi) 2 ltac:(lia)) as Hmod.
    set (mid := (lo + hi) / 2) in *.
    assert (lo <= mid < hi) as [Hm1 Hm2] by lia.
    destruct (lookup_lt_is_Some_2 a mid ltac:(lia)) as [m Hm].
    rewrite (nth_lookup_Some _ _ _ _ Hm).
    destruct (ltb m x) eqn:Hcmp.
    + apply IH; [lia|lia|lia| |done].
      intros i y Hi Hy. destruct (decide (i = mid)) as [->|Hne].
      * congruence.
      * apply (ltb_trans y m x); [|done].
        apply (sorted_lookup_lt a i mid); [done|lia|done..].
    + apply IH; [lia|lia|lia|done|].
      intros i y Hi Hy. destruct (decide (i = mid)) as [->|Hne].
      * congruence.
      * destruct (ltb y x) eqn:Hyx; [|done].
        rewrite <- Hcmp. symmetry. apply (ltb_trans m y x); [|done].
        apply (sorted_lookup_lt a mid i); [done|lia|done..].
Qed.

Lemma bisect_left_spec (a : list A) x :
  StronglySorted lt_rel a ->
  let r := bisect_left ltb dflt a x in
  r <= length a /\
  (forall i y, i < r -> a !! i = Some y -> ltb y x = true) /\
  (forall i y, r <= i -> a !! i = Some y -> ltb y x = false).
Proof.
  intros Hs. apply bisect_left_loop_spec; [done|lia|lia|lia| |].
  - intros; lia.
  - intros i y Hi Hy. apply lookup_lt_Some in Hy. lia.
Qed.

Lemma bisect_right_loop_spec fuel (a : list A) x lo hi :
  StronglySorted lt_rel a ->
  lo <= hi -> hi <= length a -> hi - lo <= fuel ->
  (forall i y, i < lo -> a !! i = Some y -> ltb x y = false) ->
  (forall i y, hi <= i -> a !! i = Some y -> ltb x y = true) ->
  let r := bisect_right_loop ltb dflt fuel a x lo hi in
  r <= length a /\
  (forall i y, i < r -> a !! i = Some y -> ltb x y = false) /\
  (forall i y, r <= i -> a !! i = Some y -> ltb x y = true).
Proof.
  intros Hs. revert lo hi.
  induction fuel as [|fuel IH]; intros lo hi Hle Hhi Hfuel Hlo Hge; cbn [bisect_right_loop].
  - assert (lo = hi) as -> by lia. auto.
  - destruct (Nat.ltb_spec lo hi) as [Hlt|Hnlt].
    2:{ assert (lo = hi) as -> by lia. auto. }
    pose proof (Nat.div_mod_eq (lo + hi) 2) as Hdm.
    pose proof (Nat.mod_upper_bound (lo + hi) 2 ltac:(lia)) as Hmod.
    set (mid := (lo + hi) / 2) in *.
    assert (lo <= mid < hi) as [Hm1 Hm2] by lia.
    destruct (lookup_lt_is_Some_2 a mid ltac:(lia)) as [m Hm].
    rewrite (nth_lookup_Some _ _ _ _ Hm).
    destruct (ltb x m) eqn:Hcmp.
    + apply IH; [lia|lia|lia|done|].
      intros i y Hi Hy. destruct (decide (i = mid)) as [->|Hne].
      * congruence.
      * apply (ltb_trans x m y); [done|].
        apply (sorted_lookup_lt a mid i); [done|lia|done..].
    + apply IH; [lia|lia|lia| |done].
      intros i y Hi Hy. destruct (decide (i = mid)) as [->|Hne].
      * congruence.
      * destruct (ltb x y) eqn:Hxy; [|done].
        rewrite <- Hcmp. symmetry. apply (ltb_trans x y m); [done|].
        apply (sorted_lookup_lt a i mid); [done|lia|done..].
Qed.

Lemma bisect_right_spec (a : list A) x :
  StronglySorted lt_rel a ->
  let r := bisect_right ltb dflt a x in
  r <= length a /\
  (forall i y, i < r -> a !! i = Some y -> ltb x y = false) /\
  (forall i y, r <= i -> a !! i = Some y -> ltb x y = true).
Proof.
  intros Hs. apply bisect_right_loop_spec; [done|lia|lia|lia| |].
  - intros; lia.
  - intros i y Hi Hy. apply lookup_lt_Some in Hy. lia.
Qed.

(** The position found by [bisect_left] cuts the list in the part below
    [x] and the part not below it. *)
Lemma bisect_left_split (a : list A) x :
  StronglySorted lt_rel a ->
  let r := bisect_left ltb dflt a x in
  Forall (fun y => ltb y x = true) (take r a) /\
  Forall (fun y => ltb y x = false) (drop r a).
Proof.
  intros Hs r. destruct (bisect_left_spec a x Hs) as (Hlen & Hlo & Hhi).
  fold r in Hlen, Hlo, Hhi. split; apply Forall_lookup; intros i y Hy.
  - apply lookup_take_Some in Hy as [Hy Hi]. eauto.
  - rewrite lookup_drop in Hy. apply (Hhi (r + i)); [lia|done].
Qed.

Lemma bisect_right_split (a : list A) x :
  StronglySorted lt_rel a ->
  let r := bisect_right ltb dflt a x in
  Forall (fun y => ltb x y = false) (take r a) /\
  Forall (fun y => ltb x y = true) (drop r a).
Proof.
  intros Hs r. destruct (bisect_right_spec a x Hs) as (Hlen & Hlo & Hhi).
  fold r in Hlen, Hlo, Hhi. split; apply Forall_lookup; intros i y Hy.
  - apply lookup_take_Some in Hy as [Hy Hi]. eauto.
  - rewrite lookup_drop in Hy. apply (Hhi (r + i)); [lia|done].
Qed.

(** Where a key of the list is, [bisect_left] finds it. *)
Lemma bisect_left_found (a : list A) x j :
  StronglySorted lt_rel a -> a !! j = Some x -> bisect_left ltb dflt a x = j.
Proof.
  intros Hs Hj. destruct (bisect_left_spec a x Hs) as (Hlen & Hlo & Hhi).
  set (r := bisect_left ltb dflt a x) in *.
  destruct (Nat.lt_trichotomy j r) as [Hlt|[Heq|Hgt]]; [|done|].
  - specialize (Hlo j x Hlt Hj). rewrite ltb_irrefl in Hlo. discriminate.
  - destruct (lookup_lt_is_Some_2 a r) as [y Hy].
    { apply lookup_lt_Some in Hj. lia. }
    pose proof (sorted_lookup_lt a r j y x Hs Hgt Hy Hj) as Hyx.
    rewrite (Hhi r y (Nat.le_refl _) Hy) in Hyx. discriminate.
Qed.

(** Inserting at the position of [bisect_left] keeps the list sorted,
    when the key is not yet in it. *)
Lemma bisect_left_insert_sorted (a : list A) x :
  StronglySorted lt_rel a -> x ∉ a ->
  StronglySorted lt_rel (list_insert (bisect_left ltb dflt a x) x a).
Proof.
  intros Hs Hnin. destruct (bisect_left_split a x Hs) as [Hlo Hhi].
  set (r := bisect_left ltb dflt a x) in *. unfold list_insert.
  rewrite <- (take_drop r a) in Hs, Hnin.
  apply StronglySorted_app in Hs as (Hcross & Hs1 & Hs2).
  apply StronglySorted_app. split_and!; [|done|].
  - intros x1 x2 H1 H2. apply elem_of_cons in H2 as [->|H2].
    + rewrite Forall_forall in Hlo. by apply Hlo.
    + by apply Hcross.
  - apply SSorted_cons; [done|]. apply Forall_forall. intros y Hy.
    rewrite Forall_forall in Hhi. pose proof (Hhi y Hy) as Hyx.
    unfold lt_rel. destruct (ltb x y) eqn:Hxy; [done|].
    exfalso. apply Hnin. rewrite (ltb_connex x y Hxy Hyx).
    apply elem_of_app. by right.
Qed.

End BisectFacts.

(** [String.ltb] is a strict total order. *)
#[global] Instance string_ltb_order : StrictOrderB String.ltb.
Proof.
  split.
  - intros x. unfold String.ltb.
    destruct (String.compare x x) eqn:E; try done.
    pose proof (String.compare_antisym x x) as H. rewrite E in H. discriminate.
  - intros x y z. unfold String.ltb.
    destruct (String.compare x y) eqn:E1; try done.
    destruct (String.compare y z) eqn:E2; try done.
    intros _ _.
    apply OrderedTypeEx.String_as_OT.cmp_lt in E1, E2.
    pose proof (OrderedTypeEx.String_as_OT.lt_trans _ _ _ E1 E2) as H.
    apply OrderedTypeEx.String_as_OT.cmp_lt in H.
    unfold OrderedTypeEx.String_as_OT.cmp in H. by rewrite H.
  - intros x y. unfold String.ltb. rewrite (String.compare_antisym y x).
    destruct (String.compare x y) eqn:E; simpl; try done.
    intros _ _. by apply String.compare_eq_iff.
Qed.

(** ** The memtable as a sorted association list *)

Definition mt_sorted (m : MemTable.t) : Prop :=
  StronglySorted (lt_rel String.ltb) (MemTable.keys m).

Lemma mt_keys_lookup (m : MemTable.t) i :
  MemTable.keys m !! i = fst <$> MemTable.entries m !! i.
Proof. unfold MemTable.keys. apply list_lookup_fmap. Qed.

Lemma mt_sorted_empty o : mt_sorted (MemTable.__init__ o).
Proof. constructor. Qed.

Lemma mt_key_unique (m : MemTable.t) i j k v w :
  mt_sorted m ->
  MemTable.entries m !! i = Some (k, v) -> MemTable.entries m !! j = Some (k, w) ->
  i = j.
Proof.
  intros Hs Hi Hj.
  assert (MemTable.keys m !! i = Some k) as Ki by (by rewrite mt_keys_lookup, Hi).
  assert (MemTable.keys m !! j = Some k) as Kj by (by rewrite mt_keys_lookup, Hj).
  rewrite <- (bisect_left_found String.ltb "" _ _ _ Hs Ki).
  by rewrite <- (bisect_left_found String.ltb "" _ _ _ Hs Kj).
Qed.

Lemma mt_get_in (m : MemTable.t) k v :
  mt_sorted m -> (k, v) ∈ MemTable.entries m -> MemTable.get m k = v.
Proof.
  intros Hs Hin. apply list_elem_of_lookup in Hin as [j Hj].
  assert (MemTable.keys m !! j = Some k) as Kj by (by rewrite mt_keys_lookup, Hj).
  unfold MemTable.get. rewrite (bisect_left_found String.ltb "" _ _ _ Hs Kj), Hj.
  by rewrite String.eqb_refl.
Qed.

Lemma mt_get_notin (m : MemTable.t) k :
  k ∉ MemTable.keys m -> MemTable.get m k = PyNone.
Proof.
  intros Hnin. unfold MemTable.get.
  destruct (MemTable.entries m !! _) as [[k' v']|] eqn:E; [|done].
  destruct (String.eqb_spec k' k) as [->|]; [|done].
  exfalso. apply Hnin. unfold MemTable.keys.
  apply list_elem_of_fmap. exists (k, v'). split; [done|].
  by eapply list_elem_of_lookup_2.
Qed.

Lemma mt_add_entries (m : MemTable.t) k v k' v' :
  mt_sorted m ->
  (k', v') ∈ MemTable.entries (MemTable.add k v m) <->
  (k' = k /\ v' = v) \/ (k' <> k /\ (k', v') ∈ MemTable.entries m).
Proof.
  intros Hs. unfold MemTable.add.
  set (r := bisect_left String.ltb "" (MemTable.keys m) k).
  assert (forall j w, MemTable.entries m !! j = Some (k, w) -> j = r) as Hfound.
  { intros j w Hj. symmetry. apply (bisect_left_found String.ltb ""); [done|].
    by rewrite mt_keys_lookup, Hj. }
  assert (forall k0 v0, MemTable.entries m !! r = Some (k0, v0) -> k0 <> k ->
          forall w, (k, w) ∉ MemTable.entries m) as Hfresh.
  { intros k0 v0 Hr Hne w Hin. apply list_elem_of_lookup in Hin as [j Hj].
    pose proof (Hfound _ _ Hj) as ->. congruence. }
  assert ((k', v') ∈ list_insert r (k, v) (MemTable.entries m) <->
          (k', v') = (k, v) \/ (k', v') ∈ MemTable.entries m) as Hins.
  { unfold list_insert. rewrite <- (take_drop r (MemTable.entries m)) at 3.
    rewrite !elem_of_app, elem_of_cons. tauto. }
  destruct (MemTable.entries m !! r) as [[k0 v0]|] eqn:Hr.
  - destruct (String.eqb_spec k0 k) as [->|Hne]; simpl.
    + split.
      * intros Hin. apply list_elem_of_lookup in Hin as [j Hj].
        destruct (decide (j = r)) as [->|Hjr].
        -- rewrite list_lookup_insert_eq in Hj by (by eapply lookup_lt_Some).
           left. by injection Hj as <- <-.
        -- rewrite list_lookup_insert_ne in Hj by done.
           right. split; [|by eapply list_elem_of_lookup_2].
           intros ->. apply Hjr. by eapply Hfound.
      * intros [[-> ->]|[Hne Hin]].
        -- apply list_elem_of_lookup. exists r.
           apply list_lookup_insert_eq. by eapply lookup_lt_Some.
        -- apply list_elem_of_lookup in Hin as [j Hj].
           apply list_elem_of_lookup. exists j.
           rewrite list_lookup_insert_ne; [done|]. intros <-. congruence.
    + rewrite Hins. split.
      * intros [Heq|Hin]; [left; by injection Heq|].
        right. split; [|done]. intros ->. by eapply Hfresh.
      * intros [[-> ->]|[_ Hin]]; auto.
  - simpl. rewrite Hins. split.
    + intros [Heq|Hin]; [left; by injection Heq|].
      right. split; [|done]. intros ->.
      apply list_elem_of_lookup in Hin as [j Hj].
      pose proof (Hfound _ _ Hj) as ->. congruence.
    + intros [[-> ->]|[_ Hin]]; auto.
Qed.

Lemma mt_add_keys_insert (m : MemTable.t) r k v :
  MemTable.keys {| MemTable.entries := list_insert r (k, v) (MemTable.entries m);
                   MemTable.max_size := MemTable.max_size m |}
  = list_insert r k (MemTable.keys m).
Proof.
  unfold MemTable.keys, list_insert. simpl.
  by rewrite fmap_app, fmap_cons, fmap_take, fmap_drop.
Qed.

Lemma mt_add_sorted (m : MemTable.t) k v :
  mt_sorted m -> mt_sorted (MemTable.add k v m).
Proof.
  intros Hs. unfold MemTable.add.
  set (r := bisect_left String.ltb "" (MemTable.keys m) k).
  assert (forall k0 v0, MemTable.entries m !! r = Some (k0, v0) -> k0 <> k ->
          k ∉ MemTable.keys m) as Hfresh.
  { intros k0 v0 Hr Hne Hin. apply list_elem_of_lookup in Hin as [j Hj].
    pose proof (bisect_left_found String.ltb "" _ _ _ Hs Hj) as Hrj. fold r in Hrj.
    subst j. rewrite mt_keys_lookup, Hr in Hj. simpl in Hj. congruence. }
  destruct (MemTable.entries m !! r) as [[k0 v0]|] eqn:Hr.
  - destruct (String.eqb_spec k0 k) as [->|Hne].
    + unfold mt_sorted, MemTable.keys. simpl.
      rewrite list_fmap_insert. simpl.
      rewrite list_insert_id; [done|]. by rewrite list_lookup_fmap, Hr.
    + unfold mt_sorted. rewrite mt_add_keys_insert.
      apply bisect_left_insert_sorted; [apply _|done|]. by eapply Hfresh.
  - unfold mt_sorted. rewrite mt_add_keys_insert.
    apply bisect_left_insert_sorted; [apply _|done|].
    intros Hin. apply list_elem_of_lookup in Hin as [j Hj].
    pose proof (bisect_left_found String.ltb "" _ _ _ Hs Hj) as Hrj. fold r in Hrj.
    subst j. rewrite mt_keys_lookup, Hr in Hj. discriminate.
Qed.

Lemma mt_keys_elem (m : MemTable.t) k :
  k ∈ MemTable.keys m <-> exists v, (k, v) ∈ MemTable.entries m.
Proof.
  unfold MemTable.keys. rewrite list_elem_of_fmap. split.
  - intros [[k0 v0] [-> Hin]]. eauto.
  - intros [v Hin]. by exists (k, v).
Qed.

(** Reading after a write: the key written reads as the value written,
    every other key as before. *)
Lemma mt_get_add (m : MemTable.t) k v k' :
  mt_sorted m ->
  MemTable.get (MemTable.add k v m) k' = if decide (k' = k) then v else MemTable.get m k'.
Proof.
  intros Hs. pose proof (mt_add_sorted m k v Hs) as Hs'.
  destruct (decide (k' = k)) as [->|Hne].
  - apply mt_get_in; [done|]. apply mt_add_entries; auto.
  - destruct (decide (k' ∈ MemTable.keys m)) as [Hin|Hnin].
    + apply mt_keys_elem in Hin as [w Hw].
      rewrite (mt_get_in m k' w Hs Hw).
      apply mt_get_in; [done|]. apply mt_add_entries; auto.
    + rewrite (mt_get_notin m k' Hnin). apply mt_get_notin.
      intros Hin. apply mt_keys_elem in Hin as [w Hw].
      apply (mt_add_entries m k v k' w Hs) in Hw as [[? _]|[_ Hw]]; [done|].
      apply Hnin. apply mt_keys_elem. eauto.
Qed.

(** ** SSTables whose index points into their file *)

(** Every offset of the in-memory index is the offset of a record of the
    file: no read of the table can fail. *)
Definition readable (fs : FS) (s : SSTable.t) : Prop :=
  forall k off, SSTable.index s !! k = Some off ->
    exists records idx e,
      fs !! SSTable.filename s = Some (SSTFile records idx) /\ records !! off = Some e.

Lemma sst_get_readable fs s k :
  readable fs s -> exists v, SSTable.get s fs k = Return v.
Proof.
  intros Hr. unfold SSTable.get.
  destruct (SSTable.index s !! k) as [off|] eqn:E; [|eauto].
  destruct (Hr k off E) as (records & idx & e & -> & ->). eauto.
Qed.

Lemma sst_get_absent fs s k :
  SSTable.index s !! k = None -> SSTable.get s fs k = Return PyNone.
Proof. intros E. unfold SSTable.get. by rewrite E. Qed.

Lemma is_none_spec v : is_none v = true <-> v = PyNone.
Proof. destruct v; simpl; split; congruence. Qed.

Lemma scan_keys_spec fs s ks :
  readable fs s ->
  exists es, SSTable.scan_keys s fs ks = Return es /\
    (forall k v, (k, v) ∈ es <-> k ∈ ks /\ SSTable.get s fs k = Return v /\ v <> PyNone) /\
    (NoDup ks -> NoDup (map fst es)).
Proof.
  intros Hr. induction ks as [|k0 ks (es & Hes & Hin & Hnd)]; simpl.
  - exists []. split_and!; [done| |constructor].
    intros k v. rewrite elem_of_nil. split; [done|]. intros [H _]. by apply elem_of_nil in H.
  - destruct (sst_get_readable fs s k0 Hr) as [v0 Hv0]. rewrite Hv0, Hes. simpl.
    destruct (is_none v0) eqn:Hn.
    + apply is_none_spec in Hn. subst v0.
      exists es. split_and!; [done| |].
      * intros k v. rewrite Hin, elem_of_cons. split; [tauto|].
        intros [[->|H] [Hg Hv]]; [congruence|tauto].
      * intros Hnd'. apply Hnd. by apply NoDup_cons in Hnd' as [_ ?].
    + exists ((k0, v0) :: es). split_and!; [done| |].
      * intros k v. rewrite !elem_of_cons, Hin. split.
        -- intros [Heq|H]; [|tauto]. injection Heq as -> ->.
           split_and!; [by left|done|]. intros ->. discriminate.
        -- intros [[->|H] [Hg Hv]]; [|tauto]. left. congruence.
      * intros Hnd'. apply NoDup_cons in Hnd' as [Hk0 Hnd']. simpl.
        apply NoDup_cons. split; [|auto].
        intros Hk. apply list_elem_of_fmap in Hk as [[k1 v1] [Heq Hk]]. simpl in Heq.
        subst k1. apply Hin in Hk. tauto.
Qed.

Lemma range_keys_spec s lo hi k :
  k ∈ SSTable.range_keys s lo hi <->
  SSTable.in_range lo hi k = true /\ is_Some (SSTable.index s !! k).
Proof.
  unfold SSTable.range_keys. rewrite merge_sort_Permutation.
  rewrite list_elem_of_In, filter_In, <- list_elem_of_In.
  rewrite list_elem_of_fmap. split.
  - intros [[[k0 off] [-> Hin]] Hr]. split; [done|].
    apply elem_of_map_to_list in Hin. eauto.
  - intros [Hr [off Hoff]]. split; [|done]. exists (k, off). split; [done|].
    by apply elem_of_map_to_list.
Qed.

Lemma range_keys_NoDup s lo hi : NoDup (SSTable.range_keys s lo hi).
Proof.
  unfold SSTable.range_keys. rewrite merge_sort_Permutation.
  apply NoDup_ListNoDup, List.NoDup_filter, NoDup_ListNoDup, NoDup_fst_map_to_list.
Qed.

(** What a scan of a readable table yields: the keys of the range whose
    stored value is not the tombstone, each once. *)
Lemma range_scan_spec fs s lo hi :
  readable fs s ->
  exists es, SSTable.range_scan s fs lo hi = Return es /\
    (forall k v, (k, v) ∈ es <->
       SSTable.in_range lo hi k = true /\ SSTable.get s fs k = Return v /\ v <> PyNone) /\
    NoDup (map fst es).
Proof.
  intros Hr. unfold SSTable.range_scan.
  destruct (scan_keys_spec fs s (SSTable.range_keys s lo hi) Hr) as (es & Hes & Hin & Hnd).
  exists es. split_and!; [done| |apply Hnd, range_keys_NoDup].
  intros k v. rewrite Hin, range_keys_spec. split; [tauto|].
  intros (Hr' & Hg & Hv). split_and!; try done.
  destruct (SSTable.index s !! k) eqn:E; [eauto|].
  rewrite (sst_get_absent fs s k E) in Hg. congruence.
Qed.

(** ** Merging scans into a memtable *)

Lemma add_all_sorted es m : mt_sorted m -> mt_sorted (LSMTree.add_all es m).
Proof.
  revert m. induction es as [|[k v] es IH]; intros m Hs; simpl; [done|].
  apply IH. by apply mt_add_sorted.
Qed.

Lemma add_all_get es m k :
  mt_sorted m -> NoDup (map fst es) ->
  (forall v, (k, v) ∈ es -> MemTable.get (LSMTree.add_all es m) k = v) /\
  (k ∉ map fst es -> MemTable.get (LSMTree.add_all es m) k = MemTable.get m k).
Proof.
  revert m. induction es as [|[k1 v1] es IH]; intros m Hs Hnd; simpl.
  - split; [|done]. intros v H. by apply elem_of_nil in H.
  - simpl in Hnd. apply NoDup_cons in Hnd as [Hk1 Hnd].
    destruct (IH (MemTable.add k1 v1 m) (mt_add_sorted _ _ _ Hs) Hnd) as [IH1 IH2].
    split.
    + intros v Hin. apply elem_of_cons in Hin as [Heq|Hin]; [|auto].
      injection Heq as -> ->. rewrite IH2 by done.
      rewrite mt_get_add by done. by rewrite decide_True.
    + intros Hnin. apply not_elem_of_cons in Hnin as [Hne Hnin].
      rewrite IH2 by done. rewrite mt_get_add by done. by rewrite decide_False.
Qed.

Lemma probe_app fs l1 l2 k :
  LSMTree.probe fs (l1 ++ l2) k =
  match LSMTree.probe fs l1 k with
  | Return v => if is_none v then LSMTree.probe fs l2 k else Return v
  | Raise e => Raise e
  end.
Proof.
  induction l1 as [|s l1 IH]; simpl.
  - done.
  - destruct (SSTable.get s fs k) as [v|e]; simpl; [|done].
    destruct (is_none v) eqn:E; [done|]. by rewrite E.
Qed.

(** The merged table holds, for a key of the scanned range, the value
    that [get] finds in the tables, newest first. *)
Lemma merge_tables_spec fs l m :
  Forall (readable fs) l -> mt_sorted m ->
  exists m', LSMTree.merge_tables fs l m = Return m' /\ mt_sorted m' /\
    forall k, exists v, LSMTree.probe fs (rev l) k = Return v /\
      MemTable.get m' k =
        if SSTable.in_range "" "~" k then (if is_none v then MemTable.get m k else v)
        else MemTable.get m k.
Proof.
  intros Hl. revert m. induction Hl as [|s l Hs Hl IH]; intros m Hm; simpl.
  - exists m. split_and!; [done..|]. intros k. exists PyNone. split; [done|].
    by destruct (SSTable.in_range "" "~" k).
  - destruct (range_scan_spec fs s "" "~" Hs) as (es & -> & Hin & Hnd). simpl.
    destruct (IH (LSMTree.add_all es m) (add_all_sorted es m Hm)) as (m' & -> & Hm' & Hget).
    exists m'. split_and!; [done..|]. intros k.
    destruct (Hget k) as (v' & Hv' & Hk).
    destruct (sst_get_readable fs s k Hs) as [va Hva].
    destruct (add_all_get es m k Hm Hnd) as [Hadd1 Hadd2].
    exists (if is_none v' then va else v'). split.
    + rewrite probe_app, Hv'. destruct (is_none v'); [|done].
      simpl. rewrite Hva. simpl. destruct (is_none va) eqn:E; [|done].
      by apply is_none_spec in E as ->.
    + rewrite Hk. destruct (SSTable.in_range "" "~" k) eqn:Hr.
      * destruct (is_none v') eqn:E'; [|by rewrite E'].
        destruct (is_none va) eqn:Ea.
        -- apply Hadd2. intros Hkin. apply list_elem_of_fmap in Hkin as [[k1 v1] [Heq Hkin]].
           simpl in Heq. subst k1. apply Hin in Hkin as (_ & Hg & Hne).
           rewrite Hva in Hg. injection Hg as <-. by apply is_none_spec in Ea.
        -- apply Hadd1. apply Hin. split_and!; [done..|].
           intros ->. discriminate.
      * apply Hadd2. intros Hkin. apply list_elem_of_fmap in Hkin as [[k1 v1] [Heq Hkin]].
        simpl in Heq. subst k1. apply Hin in Hkin as (Hr' & _). congruence.
Qed.

Definition live (m : MemTable.t) : Prop :=
  forall k v, (k, v) ∈ MemTable.entries m -> v <> PyNone.

Lemma add_all_entries es m k v :
  mt_sorted m ->
  (k, v) ∈ MemTable.entries (LSMTree.add_all es m) -> (k, v) ∈ es \/ (k, v) ∈ MemTable.entries m.
Proof.
  revert m. induction es as [|[k1 v1] es IH]; intros m Hs Hin; simpl in *; [auto|].
  apply IH in Hin; [|by apply mt_add_sorted]. destruct Hin as [Hin|Hin].
  - left. by right.
  - apply (mt_add_entries m k1 v1 k v Hs) in Hin as [[-> ->]|[_ Hin]]; [|auto].
    left. by left.
Qed.

Lemma merge_tables_live fs l m m' :
  Forall (readable fs) l -> mt_sorted m -> live m ->
  LSMTree.merge_tables fs l m = Return m' -> live m'.
Proof.
  intros Hl. revert m. induction Hl as [|s l Hs Hl IH]; intros m Hm Hlive; simpl.
  - by intros [= <-].
  - destruct (range_scan_spec fs s "" "~" Hs) as (es & -> & Hin & Hnd). simpl.
    apply IH; [by apply add_all_sorted|].
    intros k v Hkv. apply add_all_entries in Hkv as [Hkv|Hkv]; [|by eapply Hlive|done].
    apply Hin in Hkv. tauto.
Qed.

(** ** Writing a memtable and reading the table back *)

Lemma sorted_keys_NoDup (l : list string) :
  StronglySorted (lt_rel String.ltb) l -> NoDup l.
Proof.
  induction 1 as [|x l Hs IH Hall]; constructor; [|done].
  intros Hin. rewrite Forall_forall in Hall. specialize (Hall x Hin).
  unfold lt_rel in Hall. by rewrite ltb_irrefl in Hall.
Qed.

Lemma index_entries_absent es idx n k :
  k ∉ map fst es -> SSTable.index_entries idx n es !! k = idx !! k.
Proof.
  revert idx n. induction es as [|[k1 v1] es IH]; intros idx n Hnin; simpl; [done|].
  simpl in Hnin. apply not_elem_of_cons in Hnin as [Hne Hnin].
  rewrite IH by done. by rewrite lookup_insert_ne.
Qed.

Lemma index_entries_at es idx n i k v :
  NoDup (map fst es) -> es !! i = Some (k, v) ->
  SSTable.index_entries idx n es !! k = Some (n + i).
Proof.
  revert idx n i. induction es as [|[k1 v1] es IH]; intros idx n i Hnd Hi; [done|].
  simpl in Hnd. apply NoDup_cons in Hnd as [Hk1 Hnd]. simpl.
  destruct i as [|i]; simpl in Hi.
  - injection Hi as -> ->. rewrite index_entries_absent by done.
    rewrite lookup_insert_eq. f_equal. lia.
  - rewrite (IH _ _ i) by done. f_equal. lia.
Qed.

(** A table written from a sorted memtable over a fresh index reads as
    the memtable does. *)
Lemma written_table_get (m : MemTable.t) name fs fs' k :
  mt_sorted m ->
  let '(new, fs1) := SSTable.write_memtable (SSTable.mk name ∅) m fs in
  fs' !! name = fs1 !! name ->
  SSTable.get new fs' k = Return (MemTable.get m k).
Proof.
  intros Hs. simpl. intros Hfs. rewrite lookup_insert_eq in Hfs.
  unfold SSTable.get. simpl. rewrite Hfs.
  pose proof (sorted_keys_NoDup _ Hs) as Hnd.
  destruct (decide (k ∈ MemTable.keys m)) as [Hin|Hnin].
  - apply mt_keys_elem in Hin as [v Hv].
    rewrite (mt_get_in m k v Hs Hv).
    apply list_elem_of_lookup in Hv as [i Hi].
    rewrite (index_entries_at _ _ 0 i k v Hnd Hi). simpl. by rewrite Hi.
  - rewrite (index_entries_absent _ _ _ _ Hnin), lookup_empty.
    by rewrite (mt_get_notin m k Hnin).
Qed.

Lemma remove_files_lookup files (fs : FS) f :
  LSMTree.remove_files files fs !! f = if decide (f ∈ files) then None else fs !! f.
Proof.
  unfold LSMTree.remove_files. revert fs.
  induction files as [|g files IH]; intros fs.
  - case_decide as H; [by apply elem_of_nil in H|done].
  - cbn [foldl]. rewrite IH. destruct (decide (f ∈ files)) as [Hin|Hnin].
    + rewrite decide_True; [done|]. by right.
    + destruct (decide (f = g)) as [->|Hne].
      * rewrite decide_True by (by left). apply lookup_delete_eq.
      * rewrite decide_False by (by apply not_elem_of_cons).
        by rewrite lookup_delete_ne.
Qed.

(** A check of [readable] that computes. *)
Definition readableb (fs : FS) (s : SSTable.t) : bool :=
  match fs !! SSTable.filename s with
  | Some (SSTFile records _) =>
      forallb (fun e => bool_decide (is_Some (records !! snd e)))
        (map_to_list (SSTable.index s))
  | _ => forallb (fun _ => false) (map_to_list (SSTable.index s))
  end.

Lemma readableb_sound fs s : readableb fs s = true -> readable fs s.
Proof.
  unfold readableb. intros H k off Hk.
  apply elem_of_map_to_list, list_elem_of_In in Hk.
  destruct (fs !! SSTable.filename s) as [[| |records idx]|];
    rewrite forallb_forall in H; specialize (H _ Hk); try discriminate.
  simpl in H. apply bool_decide_eq_true in H as [e He]. eauto.
Qed.

Lemma all_readableb_sound fs l :
  forallb (readableb fs) l = true -> Forall (readable fs) l.
Proof.
  rewrite forallb_forall, Forall_forall. intros H s Hs.
  apply readableb_sound, H. by apply list_elem_of_In.
Qed.

(** ** Compaction *)




(** ** Recovery, reads and range queries on concrete runs *)

(** C1 at its failing input.  A process writes "a" and stops before
    [close].  The next process replays the WAL into the map of its WAL
    store, where "a" is bound to 1, but its memtable is empty and [get]
    reads the memtable and the tables only: "a" reads as not found. *)
Theorem C1_unflushed_write_not_read_after_restart :
  let fs := exec (Scenario.session (LSMTree.set "a" (PyInt 1))) ∅ in
  fs !! "wal.log" = Some (WalFile [WalJson "set" "a" (PyInt 1)]) /\
  WALStore.data (LSMTree.wal (fst (Scenario.opened fs))) !! "a" = Some (PyInt 1) /\
  MemTable.entries (LSMTree.memtable (fst (Scenario.opened fs))) = [] /\
  eval (Scenario.session (LSMTree.get "a")) fs = Return PyNone.
Proof. cbv zeta. split_and!; vm_compute; reflexivity. Qed.

(** C2 at its failing input.  "a" is written and flushed, then deleted:
    the tombstone of the memtable is skipped by [get], which returns the
    value of the older table.  The same with the flush in the same
    process. *)
Theorem C2_deleted_key_read_from_older_table :
  eval (let! _ := Scenario.put_and_close "a" (PyInt 1) in
        Scenario.session (let! _ := LSMTree.delete "a" in LSMTree.get "a")) ∅
    = Return (PyInt 1) /\
  eval (Scenario.session
          (let! _ := LSMTree.set "a" (PyInt 1) in
           let! _ := LSMTree.close in
           let! _ := LSMTree.delete "a" in
           LSMTree.get "a")) ∅
    = Return (PyInt 1).
Proof. split; vm_compute; reflexivity. Qed.

(** C3 at its failing inputs.  A tombstone of the memtable is emitted; a
    key of the memtable is emitted again from a table; a key deleted
    and flushed is emitted with the value of the older table. *)
Theorem C3_range_query_emits_tombstones_and_duplicates :
  eval (Scenario.session
          (let! _ := LSMTree.set "a" (PyInt 1) in
           let! _ := LSMTree.delete "a" in
           LSMTree.range_query "a" "a")) ∅
    = Return [("a", PyNone)] /\
  eval (let! _ := Scenario.put_and_close "a" (PyInt 1) in
        Scenario.session
          (let! _ := LSMTree.set "a" (PyInt 2) in LSMTree.range_query "a" "a")) ∅
    = Return [("a", PyInt 2); ("a", PyInt 1)] /\
  eval (let! _ := Scenario.put_and_close "a" (PyInt 1) in
        let! _ := Scenario.session (let! _ := LSMTree.delete "a" in LSMTree.close) in
        Scenario.session (LSMTree.range_query "a" "a")) ∅
    = Return [("a", PyInt 1)].
Proof. split_and!; vm_compute; reflexivity. Qed.

(** ** The order of the tables after a restart *)

Lemma leb_ltb (a b : string) : String.leb a b = negb (String.ltb b a).
Proof.
  unfold String.leb, String.ltb. rewrite (String.compare_antisym b a).
  by destruct (String.compare a b).
Qed.

#[global] Instance str_le_trans : Transitive SSTable.str_le.
Proof.
  intros a b c. unfold SSTable.str_le. rewrite !leb_ltb, !negb_true_iff.
  intros Hba Hcb. destruct (String.ltb c a) eqn:Hca; [|done].
  destruct (String.ltb a b) eqn:Hab.
  - by rewrite (ltb_trans c a b Hca Hab) in Hcb.
  - pose proof (ltb_connex a b Hab Hba) as ->. congruence.
Qed.

#[global] Instance str_le_total : Total SSTable.str_le.
Proof. intros a b. apply String.leb_total. Qed.

Lemma open_all_names fs names l :
  LSMTree.open_all fs names = Return l -> map SSTable.filename l = names.
Proof.
  revert l. induction names as [|f names IH]; intros l; simpl.
  - by intros [= <-].
  - unfold SSTable.__init__.
    destruct (fs !! f) as [c|]; simpl.
    + destruct (SSTable._load_index fs f) as [idx|e]; simpl; [|done].
      destruct (LSMTree.open_all fs names) as [l'|e]; simpl; [|done].
      intros [= <-]. simpl. f_equal. by apply IH.
    + destruct (LSMTree.open_all fs names) as [l'|e]; simpl; [|done].
      intros [= <-]. simpl. f_equal. by apply IH.
Qed.

(** C9.  The table list of a restarted store is the list of the
    sstable_*.db files sorted by name, and [get] probes it from its last
    element to its first.  sstable_1.db sorts before
    sstable_compacted.db.  After six flushes, the compaction they
    cause, an overwrite of "a" with 7 and its flush into sstable_1.db,
    [get] returns 7; after the close and a restart it returns 1, the
    value from before the compaction. *)
Theorem C9_restart_reads_compacted_table_first :
  (forall fs : FS, StronglySorted SSTable.str_le (LSMTree.sorted_sstable_files fs)) /\
  (forall s fs s' fs',
      LSMTree._load_sstables (s, fs) = (Return tt, (s', fs')) ->
      map SSTable.filename (LSMTree.sstables s') = LSMTree.sorted_sstable_files fs) /\
  (forall key s fs,
      MemTable.get (LSMTree.memtable s) key = PyNone ->
      eval (LSMTree.get key) (s, fs) = LSMTree.probe fs (rev (LSMTree.sstables s)) key) /\
  (String.ltb "sstable_1.db" "sstable_compacted.db" = true) /\
  (let fs6 := exec Scenario.fill_until_compaction ∅ in
   let fs7 := exec (Scenario.put_and_close "a" (PyInt 7)) fs6 in
   LSMTree.sorted_sstable_files fs6 = ["sstable_compacted.db"] /\
   eval (Scenario.session (LSMTree.get "a")) fs6 = Return (PyInt 1) /\
   eval (Scenario.session
           (let! _ := LSMTree.set "a" (PyInt 7) in
            let! _ := LSMTree.close in
            LSMTree.get "a")) fs6 = Return (PyInt 7) /\
   LSMTree.sorted_sstable_files fs7 = ["sstable_1.db"; "sstable_compacted.db"] /\
   eval (Scenario.session (LSMTree.get "a")) fs7 = Return (PyInt 1)).
Proof.
  split_and!.
  - intros fs. apply StronglySorted_merge_sort; apply _.
  - intros s fs s' fs'. unfold LSMTree._load_sstables.
    destruct (LSMTree.open_all fs (LSMTree.sorted_sstable_files fs)) as [l|e] eqn:E; [|done].
    intros [= <- <-]. simpl. by apply (open_all_names fs).
  - intros key s fs Hm. unfold eval, LSMTree.get, lift. simpl. by rewrite Hm.
  - vm_compute. reflexivity.
  - cbv zeta. split_and!; vm_compute; reflexivity.
Qed.

Lemma C9_restart_witness :
  (LSMTree._load_sstables (Scenario.opened (exec Scenario.fill_until_compaction ∅))
     = (Return tt, Scenario.opened (exec Scenario.fill_until_compaction ∅))) /\
  (map SSTable.filename
     (LSMTree.sstables (fst (Scenario.opened (exec Scenario.fill_until_compaction ∅))))
     = LSMTree.sorted_sstable_files (snd (Scenario.opened (exec Scenario.fill_until_compaction ∅)))).
Proof.
  assert (LSMTree._load_sstables (Scenario.opened (exec Scenario.fill_until_compaction ∅))
          = (Return tt, Scenario.opened (exec Scenario.fill_until_compaction ∅))) as H.
  { vm_compute. reflexivity. }
  split; [exact H|].
  destruct C9_restart_reads_compacted_table_first as (_ & Hload & _).
  destruct (Scenario.opened (exec Scenario.fill_until_compaction ∅)) as [s' fs'] eqn:E.
  exact (Hload s' fs' s' fs' H).
Defined.

(** ** Deletion in the journal and in the snapshot *)

Lemma compact_keeps_wal w :
  LSMTree.wal (fst (exec LSMTree._compact w)) = LSMTree.wal (fst w).
Proof.
  destruct w as [s fs]. unfold exec, LSMTree._compact, try_except. simpl.
  destruct (LSMTree.merge_tables fs (LSMTree.sstables s) (MemTable.__init__ None)); [|done].
  by destruct (SSTable.__init__ fs "sstable_compacted.db").
Qed.

Lemma flush_publish_keeps_wal w :
  LSMTree.wal (fst (exec LSMTree.flush_publish w)) = LSMTree.wal (fst w).
Proof.
  destruct w as [s fs]. unfold exec, LSMTree.flush_publish. simpl.
  by destruct (SSTable.__init__ fs _).
Qed.

Lemma flush_memtable_keeps_wal w :
  LSMTree.wal (fst (exec LSMTree._flush_memtable w)) = LSMTree.wal (fst w).
Proof.
  destruct w as [s fs]. unfold exec, LSMTree._flush_memtable.
  destruct (MemTable.entries (LSMTree.memtable s)); [done|].
  unfold bind.
  pose proof (flush_publish_keeps_wal (s, fs)) as Hp. unfold exec in Hp.
  destruct (LSMTree.flush_publish (s, fs)) as [[[]|e] [s1 fs1]]; simpl in *; [|done].
  destruct (LSMTree.max_sstables s1 <? length (LSMTree.sstables s1)); [|done].
  pose proof (compact_keeps_wal (s1, fs1)) as Hc. unfold exec in Hc. simpl in Hc.
  by rewrite Hc.
Qed.

(** C10.  [LSMTree.delete] appends to the WAL a "delete" record and
    then a "set" record with the null value, and binds the key to null
    in the map of the WAL store; the memtable write and the flush that
    it may cause follow.  Whatever follows, the map still binds the key
    to null, and a checkpoint taken then writes the key, mapped to null,
    into data.db. *)
Theorem C10_delete_journals_twice_and_snapshots_null
    (key : string) (s : LSMTree.t) (fs : FS) :
  WALStore.data_file (LSMTree.wal s) <> WALStore.wal_file (LSMTree.wal s) ->
  let old := match fs !! WALStore.wal_file (LSMTree.wal s) with
             | Some f => WALStore.read_lines f
             | None => []
             end in
  let journaled :=
    <[WALStore.wal_file (LSMTree.wal s) :=
        WalFile (old ++ [WalJson "delete" key PyNone; WalJson "set" key PyNone])]> fs in
  let w := WALStore.mk (WALStore.data_file (LSMTree.wal s)) (WALStore.wal_file (LSMTree.wal s))
             (<[key := PyNone]> (WALStore.data (LSMTree.wal s))) in
  let s2 := LSMTree.with_memtable (MemTable.add key PyNone (LSMTree.memtable s))
              (LSMTree.with_wal w s) in
  LSMTree.delete key (s, fs) =
    (if MemTable.is_full (LSMTree.memtable s2)
     then LSMTree._flush_memtable (s2, journaled)
     else (Return tt, (s2, journaled))) /\
  let w' := exec (LSMTree.delete key) (s, fs) in
  WALStore.data (LSMTree.wal (fst w')) !! key = Some PyNone /\
  exists d, WALStore.checkpoint (LSMTree.wal (fst w')) (snd w')
              !! WALStore.data_file (LSMTree.wal s) = Some (DataFile d) /\
            d !! key = Some PyNone.
Proof.
  intros Hne old journaled w s2.
  assert (LSMTree.delete key (s, fs) =
    (if MemTable.is_full (LSMTree.memtable s2)
     then LSMTree._flush_memtable (s2, journaled)
     else (Return tt, (s2, journaled)))) as Hrun.
  { unfold LSMTree.delete, LSMTree.set, WALStore.delete, WALStore.set, WALStore._append_wal.
    simpl. rewrite lookup_insert_eq. simpl.
    rewrite insert_insert_eq, insert_delete_eq, <- app_assoc. reflexivity. }
  split; [exact Hrun|]. intros w'.
  assert (LSMTree.wal (fst w') = w) as Hw.
  { unfold w', exec. rewrite Hrun.
    destruct (MemTable.is_full (LSMTree.memtable s2)); [|done].
    apply (flush_memtable_keeps_wal (s2, journaled)). }
  rewrite Hw. split; [apply lookup_insert_eq|].
  exists (WALStore.data w). split; [|apply lookup_insert_eq].
  unfold WALStore.checkpoint. simpl.
  match goal with |- context [match ?x with _ => _ end] => destruct x end.
  - rewrite lookup_insert_ne by done. apply lookup_insert_eq.
  - apply lookup_insert_eq.
Qed.

Lemma C10_delete_witness :
  (WALStore.data_file (LSMTree.wal (fst (Scenario.opened ∅)))
     <> WALStore.wal_file (LSMTree.wal (fst (Scenario.opened ∅)))) /\
  (snd (exec (LSMTree.delete "a") (Scenario.opened ∅)) !! "wal.log"
     = Some (WalFile [WalJson "delete" "a" PyNone; WalJson "set" "a" PyNone])) /\
  (WALStore.data (LSMTree.wal (fst (exec (LSMTree.delete "a") (Scenario.opened ∅)))) !! "a"
     = Some PyNone).
Proof.
  assert (WALStore.data_file (LSMTree.wal (fst (Scenario.opened ∅)))
          <> WALStore.wal_file (LSMTree.wal (fst (Scenario.opened ∅)))) as Hne.
  { vm_compute. discriminate. }
  split_and!; [exact Hne|vm_compute; reflexivity|].
  pose proof (C10_delete_journals_twice_and_snapshots_null "a"
                (fst (Scenario.opened ∅)) (snd (Scenario.opened ∅)) Hne) as H.
  cbv zeta in H. rewrite <- surjective_pairing in H. apply H.
Defined.

(** ** The page codec *)

Lemma u8_to_N (n : N) : (n < 256)%N -> Byte.to_N (struct.u8 n) = n.
Proof.
  intros Hn. unfold struct.u8.
  destruct (Byte.of_N n) as [b|] eqn:E.
  - simpl. by apply Byte.to_of_N.
  - apply Byte.of_N_None_iff in E. lia.
Qed.

Lemma pack_le_length w n : length (struct.pack_le w n) = w.
Proof. revert n. induction w as [|w IH]; intros n; simpl; [done|]. by rewrite IH. Qed.

Lemma unpack_pack_le w n :
  (n < 2 ^ (8 * N.of_nat w))%N -> struct.unpack_le (struct.pack_le w n) = n.
Proof.
  revert n. induction w as [|w IH]; intros n Hn; simpl.
  - simpl in Hn. lia.
  - rewrite u8_to_N by (apply N.mod_lt; lia).
    rewrite IH.
    + pose proof (N.div_mod n 256 ltac:(lia)). lia.
    + replace (8 * N.of_nat (S w))%N with (8 + 8 * N.of_nat w)%N in Hn by lia.
      rewrite N.pow_add_r in Hn. change (2 ^ 8)%N with 256%N in Hn.
      apply N.Div0.div_lt_upper_bound. lia.
Qed.

Lemma pack_uint_spec w n bs :
  struct.pack_uint w n = Return bs ->
  bs = struct.pack_le w n /\ length bs = w /\ struct.unpack_le bs = n.
Proof.
  unfold struct.pack_uint, struct.fits.
  destruct (N.ltb_spec n (2 ^ (8 * N.of_nat w))); [|done].
  intros [= <-]. split_and!; [done|apply pack_le_length|by apply unpack_pack_le].
Qed.

Lemma pack_uint_fits w n :
  (n < 2 ^ (8 * N.of_nat w))%N -> struct.pack_uint w n = Return (struct.pack_le w n).
Proof.
  intros Hn. unfold struct.pack_uint, struct.fits.
  by destruct (N.ltb_spec n (2 ^ (8 * N.of_nat w))); [|lia].
Qed.

Lemma unpack_uint_exact w bs :
  length bs = w -> struct.unpack_uint w bs = Return (struct.unpack_le bs).
Proof. intros <-. unfold struct.unpack_uint. by rewrite Nat.eqb_refl. Qed.

(** Reading a field that starts where a known prefix ends. *)
Lemma slice_middle {A} (pre x post : list A) k :
  length x = k -> slice (length pre) (length pre + k) (pre ++ x ++ post) = x.
Proof.
  intros <-. unfold slice. rewrite drop_app_length.
  replace (length pre + length x - length pre) with (length x) by lia.
  by rewrite take_app_length.
Qed.

Lemma slice_at {A} (pre x post : list A) i k :
  i = length pre -> length x = k -> slice i (i + k) (pre ++ x ++ post) = x.
Proof. intros -> ?. by apply slice_middle. Qed.

(** The sizes of the fields of a page fit their formats. *)
Record wf_fields (p : Page.t) : Prop := {
  wf_key_count : (N.of_nat (length (Page.keys p)) < 2 ^ 16)%N;
  wf_key_len : Forall (fun k : bytes => (N.of_nat (length k) < 2 ^ 16)%N) (Page.keys p);
  wf_child : Forall (fun c : N => (c < 2 ^ 32)%N) (Page.children p);
  wf_next : (Page.next_page p < 2 ^ 32)%N
}.

(** A well-formed page: a leaf page has a value for each key; an
    internal page has one child more than keys, and at least one key. *)
Definition wf_page (p : Page.t) : Prop :=
  wf_fields p /\
  if Page.is_leaf p then length (Page.children p) = length (Page.keys p)
  else length (Page.children p) = length (Page.keys p) + 1 /\
       1 <= length (Page.keys p) /\ Page.next_page p = 0%N.

(** The size of the entries of a page. *)
Definition entries_size (ks : list bytes) : nat :=
  foldr (fun k acc => 2 + length k + 4 + acc) 0 ks.

(** The size of the encoding of a page. *)
Definition encoded_size (p : Page.t) : nat :=
  7 + entries_size (Page.keys p) + (if Page.is_leaf p then 0 else 4).

Lemma write_entries_ok ks cs :
  length cs = length ks ->
  Forall (fun k : bytes => (N.of_nat (length k) < 2 ^ 16)%N) ks ->
  Forall (fun c : N => (c < 2 ^ 32)%N) cs ->
  exists enc, Page.write_entries ks cs = Return enc /\ length enc = entries_size ks /\
    forall pre post,
      Page.read_entries (length ks) (pre ++ enc ++ post) (length pre)
      = Return (ks, cs, length pre + length enc).
Proof.
  revert cs. induction ks as [|k ks IH]; intros cs Hlen Hk Hc.
  - destruct cs; [|done]. exists []. split_and!; [done..|].
    intros pre post. simpl. by rewrite Nat.add_0_r.
  - destruct cs as [|c cs]; [done|]. simpl in Hlen.
    apply Forall_cons in Hk as [Hk Hks]. apply Forall_cons in Hc as [Hc Hcs].
    destruct (IH cs ltac:(lia) Hks Hcs) as (enc & Henc & Hsize & Hread).
    cbn [Page.write_entries].
    rewrite (pack_uint_fits 2 (N.of_nat (length k))) by (simpl; lia).
    rewrite (pack_uint_fits 4 c) by (simpl; lia).
    rewrite Henc. cbn [obind].
    eexists. split; [reflexivity|]. split.
    + rewrite !length_app, !pack_le_length, Hsize. simpl. lia.
    + intros pre post. cbn [length Page.read_entries].
      rewrite <- !app_assoc.
      rewrite (slice_middle pre (struct.pack_le 2 _) _ 2) by apply pack_le_length.
      rewrite unpack_uint_exact by apply pack_le_length. cbn [obind].
      rewrite unpack_pack_le by (simpl; lia). rewrite Nat2N.id.
      rewrite (app_assoc pre (struct.pack_le 2 _)).
      rewrite (slice_at (pre ++ struct.pack_le 2 _) k _ (length pre + 2) (length k))
        by (by rewrite ?length_app, ?pack_le_length).
      rewrite (app_assoc (pre ++ struct.pack_le 2 _) k).
      rewrite (slice_at ((pre ++ struct.pack_le 2 _) ++ k) (struct.pack_le 4 c) _
                 (length pre + 2 + length k) 4)
        by (by rewrite ?length_app, ?pack_le_length).
      rewrite unpack_uint_exact by apply pack_le_length. cbn [obind].
      rewrite unpack_pack_le by (simpl; lia).
      rewrite (app_assoc (_ ++ k) (struct.pack_le 4 c)).
      specialize (Hread (((pre ++ struct.pack_le 2 (N.of_nat (length k))) ++ k)
                           ++ struct.pack_le 4 c) post).
      rewrite !length_app, !pack_le_length in Hread.
      replace (length pre + 2 + length k + 4) with (length pre + 2 + length k + 4) by lia.
      rewrite Hread. cbn [obind]. f_equal. f_equal.
      rewrite !length_app, !pack_le_length. lia.
Qed.

Lemma removelast_last {A} (l : list A) x :
  last l = Some x -> removelast l ++ [x] = l.
Proof.
  intros H. destruct (decide (l = [])) as [->|Hne]; [done|].
  rewrite (app_removelast_last x Hne) at 2. f_equal. f_equal.
  apply last_Some in H as [l' ->]. by rewrite List.last_last.
Qed.

Lemma length_removelast {A} (l : list A) : length (removelast l) = length l - 1.
Proof.
  induction l as [|x [|y l] IH]; simpl in *; [done..|]. rewrite IH. lia.
Qed.

Lemma Forall_removelast {A} (P : A -> Prop) (l : list A) :
  Forall P l -> Forall P (removelast l).
Proof.
  induction 1 as [|x l Hx Hl IH]; [constructor|].
  simpl. destruct l; [constructor|]. by constructor.
Qed.

Lemma header_slices (h1 h2 h3 rest : bytes) :
  length h1 = 1 -> length h2 = 2 -> length h3 = 4 ->
  slice 0 1 (slice 0 7 (h1 ++ h2 ++ h3 ++ rest)) = h1 /\
  slice 1 3 (slice 0 7 (h1 ++ h2 ++ h3 ++ rest)) = h2 /\
  slice 3 7 (slice 0 7 (h1 ++ h2 ++ h3 ++ rest)) = h3.
Proof.
  intros L1 L2 L3.
  assert (slice 0 7 (h1 ++ h2 ++ h3 ++ rest) = h1 ++ h2 ++ h3) as ->.
  { replace (h1 ++ h2 ++ h3 ++ rest) with ((h1 ++ h2 ++ h3) ++ rest)
      by (by rewrite <- !app_assoc).
    unfold slice. rewrite drop_0.
    apply take_app_length'. rewrite !length_app. lia. }
  split_and!.
  - unfold slice. rewrite drop_0. by apply take_app_length'.
  - by apply (slice_at h1 h2 h3 1 2).
  - rewrite (app_assoc h1 h2). unfold slice.
    rewrite drop_app_length' by (rewrite length_app; lia).
    apply firstn_all2. simpl. lia.
Qed.

(** Decoding the bytes of a header, of entries and of what follows. *)
Lemma deserialize_bytes (leaf : N) ks cs np enc rest ord pid :
  (leaf < 2 ^ 8)%N -> (N.of_nat (length ks) < 2 ^ 16)%N -> (np < 2 ^ 32)%N ->
  (forall pre post,
      Page.read_entries (length ks) (pre ++ enc ++ post) (length pre)
      = Return (ks, cs, length pre + length enc)) ->
  Page.deserialize
    (struct.pack_le 1 leaf ++ struct.pack_le 2 (N.of_nat (length ks))
       ++ struct.pack_le 4 np ++ enc ++ rest) ord pid
  = if negb (leaf =? 0)%N then
      Return (Page.mk pid ord true ks cs np)
    else if (0 <? N.of_nat (length ks))%N then
      let? last_child := struct.unpack_uint 4 (slice 0 4 rest) in
      Return (Page.mk pid ord false ks (cs ++ [last_child]) 0)
    else Return (Page.mk pid ord false ks cs 0).
Proof.
  intros Hleaf Hcount Hnp Hread. unfold Page.deserialize.
  destruct (header_slices (struct.pack_le 1 leaf)
              (struct.pack_le 2 (N.of_nat (length ks))) (struct.pack_le 4 np)
              (enc ++ rest)) as (-> & -> & ->); try apply pack_le_length.
  rewrite !unpack_uint_exact by apply pack_le_length. cbn [obind].
  rewrite !unpack_pack_le by (simpl; lia). rewrite Nat2N.id.
  specialize (Hread (struct.pack_le 1 leaf ++ struct.pack_le 2 (N.of_nat (length ks))
                       ++ struct.pack_le 4 np) rest).
  rewrite !length_app, !pack_le_length in Hread.
  change (1 + (2 + 4)) with 7 in Hread.
  rewrite <- !app_assoc in Hread. rewrite Hread. cbn [obind].
  destruct (negb (leaf =? 0)%N); [done|].
  destruct (0 <? N.of_nat (length ks))%N; [|done].
  replace (struct.pack_le 1 leaf ++ struct.pack_le 2 (N.of_nat (length ks))
             ++ struct.pack_le 4 np ++ enc ++ rest)
    with ((struct.pack_le 1 leaf ++ struct.pack_le 2 (N.of_nat (length ks))
             ++ struct.pack_le 4 np ++ enc) ++ rest) by (by rewrite <- !app_assoc).
  unfold slice at 1.
  rewrite drop_app_length' by (rewrite !length_app, !pack_le_length; lia).
  replace (7 + length enc + 4 - (7 + length enc)) with 4 by lia.
  unfold slice. by rewrite drop_0.
Qed.

(** The encoding of a well-formed page, and its decoding. *)
Lemma serialize_deserialize (p : Page.t) :
  wf_page p ->
  exists data, serialize p = Return data /\ length data = encoded_size p /\
    forall tail,
      Page.deserialize (data ++ tail) (Page.order p) (Page.page_id p) = Return p.
Proof.
  intros [[Hcount Hklen Hchild Hnext] Hshape].
  destruct p as [pid ord leaf ks cs np]. unfold serialize, encoded_size. simpl in *.
    destruct leaf.
    - destruct (write_entries_ok ks cs Hshape Hklen Hchild) as (enc & Henc & Hes & Hread).
      unfold LeafPage.serialize. cbn [Page.keys Page.children Page.next_page].
      rewrite (pack_uint_fits 1 1) by (simpl; lia).
      rewrite (pack_uint_fits 2 (N.of_nat (length ks))) by (simpl; lia).
      rewrite (pack_uint_fits 4 np) by (simpl; lia).
      rewrite Henc. cbn [obind].
      eexists. split; [reflexivity|]. split.
      + rewrite !length_app, !pack_le_length, Hes. lia.
      + intros tail. rewrite <- !app_assoc.
        by rewrite (deserialize_bytes 1 ks cs np enc tail ord pid) by (simpl; lia || done).
    - destruct Hshape as (Hlen & Hone & ->).
      destruct (last cs) as [lc|] eqn:Hlast.
      2:{ apply last_None in Hlast. subst cs. simpl in Hlen. lia. }
      pose proof (removelast_last cs lc Hlast) as Hcs.
      assert (Forall (fun c : N => (c < 2 ^ 32)%N) (removelast cs)) as Hrl
        by (by apply Forall_removelast).
      assert ((lc < 2 ^ 32)%N) as Hlc.
      { rewrite <- Hcs in Hchild. apply Forall_app in Hchild as [_ H].
        by inversion H. }
      destruct (write_entries_ok ks (removelast cs)
                  ltac:(rewrite length_removelast; lia) Hklen Hrl)
        as (enc & Henc & Hes & Hread).
      unfold InternalPage.serialize. cbn [Page.keys Page.children Page.next_page].
      rewrite (pack_uint_fits 1 0) by (simpl; lia).
      rewrite (pack_uint_fits 2 (N.of_nat (length ks))) by (simpl; lia).
      rewrite (pack_uint_fits 4 0) by (simpl; lia).
      rewrite Henc, Hlast. cbn [obind].
      rewrite (pack_uint_fits 4 lc) by (simpl; lia). cbn [obind].
      eexists. split; [reflexivity|]. split.
      + rewrite !length_app, !pack_le_length, Hes. lia.
      + intros tail. rewrite <- !app_assoc.
        rewrite (deserialize_bytes 0 ks (removelast cs) 0 enc _ ord pid)
          by (simpl; lia || done).
        change (negb (0 =? 0)%N) with false. cbn match.
        destruct (N.ltb_spec 0 (N.of_nat (length ks))) as [_|]; [|lia].
        unfold slice. rewrite drop_0, Nat.sub_0_r.
        rewrite take_app_length' by (by rewrite pack_le_length).
        rewrite unpack_uint_exact by apply pack_le_length. cbn [obind].
        rewrite unpack_pack_le by (simpl; lia). by rewrite Hcs.
Qed.




(** ** Inserting a key that is there *)

Lemma find_leaf_loop_reads fuel key current path w :
  snd (BPlusTreeIndex.find_leaf_loop fuel key current path w) = w.
Proof.
  revert current path. induction fuel as [|fuel IH]; intros current path; simpl.
  - by destruct (Page.is_leaf current).
  - destruct (Page.is_leaf current); [done|].
    unfold bind, lift. destruct (index _ _); [|done].
    destruct w as [self file]. unfold BPlusTreeIndex._get_page, lift.
    destruct (Page.deserialize _ _ _); [|done]. apply IH.
Qed.

Lemma find_leaf_page_reads key start w :
  snd (BPlusTreeIndex._find_leaf_page key start w) = w.
Proof.
  destruct w as [self file]. unfold BPlusTreeIndex._find_leaf_page, bind.
  simpl. apply find_leaf_loop_reads.
Qed.

(** C7, as amended.  When [search] finds the key, [insert] of the key
    returns as any insert does, reporting nothing, and leaves the index
    and its file as they are: [search] and [range_query] return after it
    what they returned before. *)
Theorem C7_insert_of_present_key_changes_nothing
    (w : BPlusTreeIndex.world) (key : bytes) (value v0 : N) :
  eval (BPlusTreeIndex.search key) w = Return [v0] ->
  BPlusTreeIndex.insert key value w = (Return tt, w) /\
  (forall k, BPlusTreeIndex.search k (exec (BPlusTreeIndex.insert key value) w)
             = BPlusTreeIndex.search k w) /\
  (forall lo hi, BPlusTreeIndex.range_query lo hi (exec (BPlusTreeIndex.insert key value) w)
                 = BPlusTreeIndex.range_query lo hi w).
Proof.
  intros Hsearch.
  assert (BPlusTreeIndex.insert key value w = (Return tt, w)) as Hins.
  { destruct w as [self file].
    unfold eval, BPlusTreeIndex.search, BPlusTreeIndex._find_leaf_page_from_root in Hsearch.
    unfold BPlusTreeIndex.insert.
    unfold bind, get_state in *. simpl in Hsearch |- *.
    destruct (Page.deserialize _ _ _) as [root|e]; [|done].
    pose proof (find_leaf_page_reads key root (self, file)) as Hread.
    destruct (BPlusTreeIndex._find_leaf_page key root (self, file))
      as [[[leaf path]|e] w2] eqn:Hfind; [|done].
    simpl in Hread. subst w2. unfold ret, lift in Hsearch. simpl in Hsearch.
    unfold LeafPage.get_values in Hsearch. unfold LeafPage.add_record.
    destruct (Page.keys leaf !! _) as [k|]; [|done].
    destruct (bool_decide (k = key)); [done|]. discriminate. }
  split; [exact Hins|]. unfold exec. rewrite Hins. done.
Qed.

Lemma C7_insert_witness :
  (eval (BPlusTreeIndex.search (IndexScenario.b "Bob")) IndexScenario.test_index
     = Return [1002%N]) /\
  (BPlusTreeIndex.insert (IndexScenario.b "Bob") 7 IndexScenario.test_index
     = (Return tt, IndexScenario.test_index)).
Proof.
  assert (eval (BPlusTreeIndex.search (IndexScenario.b "Bob")) IndexScenario.test_index
          = Return [1002%N]) as H by (vm_compute; reflexivity).
  split; [exact H|].
  exact (proj1 (C7_insert_of_present_key_changes_nothing _ _ 7%N _ H)).
Defined.

(** C7, as stated, fails.  In the index of the source's test, where
    "Bob" is present and "Zed" is not, the insert of "Bob" returns what
    the insert of "Zed" returns: no duplicate is reported to the
    caller. *)
Lemma C7_counterexample :
  eval (BPlusTreeIndex.search (IndexScenario.b "Bob")) IndexScenario.test_index
    = Return [1002%N] /\
  eval (BPlusTreeIndex.search (IndexScenario.b "Zed")) IndexScenario.test_index
    = Return [] /\
  eval (BPlusTreeIndex.insert (IndexScenario.b "Bob") 7) IndexScenario.test_index
    = Return tt /\
  eval (BPlusTreeIndex.insert (IndexScenario.b "Zed") 7) IndexScenario.test_index
    = Return tt.
Proof. split_and!; vm_compute; reflexivity. Qed.

(** ** Deletion in the in-memory tree *)

(** C6 at its failing inputs.  In the tree of the source's example
    (order 3, keys 0 to 9) the deletion of 5 leaves its leaf with three
    keys and returns; the deletion of 8 leaves its leaf with one key,
    fewer than [(order + 1) // 2], and [_handle_underflow] asks the left
    sibling [can_lend], which no class defines: AttributeError.  The
    same in the tree of the keys 0 to 3, at the deletion of 2.  The key
    is gone from the leaf, the tree is not repaired. *)
Theorem C6_delete_raises_at_underflow :
  eval (let! _ := BPlusTree.delete 5 in BPlusTree.get 5) (BPlusTree.example_tree 10)
    = Return PyNone /\
  eval (BPlusTree.delete 8) (BPlusTree.example_tree 10) = Raise AttributeError /\
  BPlusTree.heap (exec (BPlusTree.delete 8) (BPlusTree.example_tree 10)) !! 5
    = Some (BPlusTree.LeafNode 3 [9%Z] [PyStr "value9"] None) /\
  eval (BPlusTree.delete 2) (BPlusTree.example_tree 4) = Raise AttributeError /\
  exec (BPlusTree.delete 2) (BPlusTree.example_tree 4)
    = BPlusTree.mk 3 2
        [BPlusTree.LeafNode 3 [0%Z; 1%Z; 2%Z; 3%Z]
           [PyStr "value0"; PyStr "value1"; PyStr "value2"; PyStr "value3"] (Some 1);
         BPlusTree.LeafNode 3 [3%Z] [PyStr "value3"] None;
         BPlusTree.InternalNode 3 [2%Z] [0; 1]].
Proof. split_and!; vm_compute; reflexivity. Qed.

(** ** The index file as an array of pages *)

(** The number of the page stored at position [i] after the metadata
    page. *)
Definition id_of (i : nat) : N := N.of_nat (S i).

Lemma id_of_inj i j : id_of i = id_of j -> i = j.
Proof. unfold id_of. lia. Qed.

Lemma id_of_to_nat i : N.to_nat (id_of i) = S i.
Proof. unfold id_of. lia. Qed.

(** The bytes that [_write_page] writes for a page. *)
Definition image (p : Page.t) : bytes :=
  match serialize p with
  | Return data => struct.ljust PAGE_SIZE data
  | Raise _ => []
  end.

(** A page that is well formed and whose encoding fits a page. *)
Definition page_fits (p : Page.t) : Prop := wf_page p /\ encoded_size p <= PAGE_SIZE.

(** The file is the metadata page followed by the images of [ps]. *)
Definition file_rep (file meta : bytes) (ps : list Page.t) : Prop :=
  length meta = PAGE_SIZE /\
  file = meta ++ mjoin (image <$> ps) /\
  Forall page_fits ps.

Lemma image_length p : page_fits p -> length (image p) = PAGE_SIZE.
Proof.
  intros [Hwf Hfit]. unfold image.
  destruct (serialize_deserialize p Hwf) as (data & -> & Hsize & _).
  unfold struct.ljust. rewrite length_app, length_replicate. lia.
Qed.

Lemma image_deserialize p :
  page_fits p -> Page.deserialize (image p) (Page.order p) (Page.page_id p) = Return p.
Proof.
  intros [Hwf Hfit]. unfold image.
  destruct (serialize_deserialize p Hwf) as (data & -> & Hsize & Hround).
  apply Hround.
Qed.

Lemma images_length ps :
  Forall page_fits ps -> length (mjoin (image <$> ps)) = length ps * PAGE_SIZE.
Proof.
  induction 1 as [|p ps Hp Hps IH]; [done|].
  rewrite fmap_cons. change (mjoin (image p :: (image <$> ps)))
    with (image p ++ mjoin (image <$> ps)).
  rewrite length_app, image_length, IH by done. simpl. lia.
Qed.

Lemma file_rep_length file meta ps :
  file_rep file meta ps -> length file = S (length ps) * PAGE_SIZE.
Proof.
  intros (Hm & -> & Hps). rewrite length_app, images_length, Hm by done. lia.
Qed.

Lemma file_rep_pages file meta ps :
  file_rep file meta ps -> length file / PAGE_SIZE = S (length ps).
Proof.
  intros H. rewrite (file_rep_length _ _ _ H). apply Nat.div_mul. done.
Qed.

Lemma file_rep_split file meta ps i p :
  file_rep file meta ps -> ps !! i = Some p ->
  file = (meta ++ mjoin (image <$> take i ps)) ++ image p ++ mjoin (image <$> drop (S i) ps)
  /\ length (meta ++ mjoin (image <$> take i ps)) = S i * PAGE_SIZE
  /\ page_fits p.
Proof.
  intros (Hm & -> & Hps) Hi.
  pose proof (take_drop_middle ps i p Hi) as Hsplit.
  assert (Forall page_fits (take i ps)) as H1 by (by apply Forall_take).
  split_and!.
  - rewrite <- Hsplit at 1. rewrite fmap_app, fmap_cons, join_app.
    change (mjoin (image p :: (image <$> drop (S i) ps)))
      with (image p ++ mjoin (image <$> drop (S i) ps)).
    by rewrite <- !app_assoc.
  - rewrite length_app, images_length, Hm by done.
    rewrite length_take. apply lookup_lt_Some in Hi. lia.
  - rewrite Forall_lookup in Hps. eauto.
Qed.

Lemma read_page file meta ps i p :
  file_rep file meta ps -> ps !! i = Some p ->
  BPlusTreeIndex.read_at file (S i * PAGE_SIZE) PAGE_SIZE = image p.
Proof.
  intros Hrep Hi. destruct (file_rep_split _ _ _ _ _ Hrep Hi) as (-> & Hlen & Hfit).
  unfold BPlusTreeIndex.read_at. rewrite drop_app_length' by done.
  apply take_app_length'. by rewrite image_length.
Qed.

(** Reading a page of the array gives the page. *)
Lemma get_page_ok self file meta ps i p :
  file_rep file meta ps -> ps !! i = Some p ->
  Page.page_id p = id_of i -> Page.order p = BPlusTreeIndex.order self ->
  BPlusTreeIndex._get_page (id_of i) (self, file) = (Return p, (self, file)).
Proof.
  intros Hrep Hi Hid Hord. unfold BPlusTreeIndex._get_page, lift.
  rewrite id_of_to_nat, (read_page _ _ _ _ _ Hrep Hi), <- Hid, <- Hord.
  rewrite image_deserialize; [done|]. by destruct (file_rep_split _ _ _ _ _ Hrep Hi) as (_ & _ & ?).
Qed.

Lemma write_page_image self file p :
  page_fits p ->
  BPlusTreeIndex._write_page p (self, file)
  = (Return tt, (self, BPlusTreeIndex.write_at file
                         (N.to_nat (Page.page_id p) * PAGE_SIZE) (image p))).
Proof.
  intros [Hwf Hfit]. unfold BPlusTreeIndex._write_page, image.
  by destruct (serialize_deserialize p Hwf) as (data & -> & _).
Qed.

Lemma write_at_middle (a b c img : bytes) off :
  length a = off -> length b = length img ->
  BPlusTreeIndex.write_at (a ++ b ++ c) off img = a ++ img ++ c.
Proof.
  intros Ha Hb. unfold BPlusTreeIndex.write_at.
  rewrite take_app_length' by done.
  replace (off - length (a ++ b ++ c)) with 0 by (rewrite !length_app; lia).
  replace (a ++ b ++ c) with ((a ++ b) ++ c) by (by rewrite <- app_assoc).
  rewrite drop_app_length'; [done|]. rewrite length_app. lia.
Qed.

(** Writing over a page of the array. *)
Lemma write_page_replace self file meta ps i p0 p :
  file_rep file meta ps -> ps !! i = Some p0 -> page_fits p ->
  Page.page_id p = id_of i ->
  exists file',
    BPlusTreeIndex._write_page p (self, file) = (Return tt, (self, file')) /\
    file_rep file' meta (<[i := p]> ps).
Proof.
  intros Hrep Hi Hfit Hid. rewrite write_page_image by done. eexists. split; [done|].
  destruct (file_rep_split _ _ _ _ _ Hrep Hi) as (Hfile & Hlen & Hfit0).
  destruct Hrep as (Hm & _ & Hps).
  split_and!; [done| |by apply Forall_insert].
  rewrite Hid, id_of_to_nat, Hfile.
  rewrite write_at_middle by (by rewrite ?image_length).
  rewrite insert_take_drop by (by eapply lookup_lt_Some).
  rewrite fmap_app, fmap_cons, join_app.
  change (mjoin (image p :: (image <$> drop (S i) ps)))
    with (image p ++ mjoin (image <$> drop (S i) ps)).
  by rewrite <- !app_assoc.
Qed.

(** Writing the page after the last one. *)
Lemma write_page_append self file meta ps p :
  file_rep file meta ps -> page_fits p -> Page.page_id p = id_of (length ps) ->
  exists file',
    BPlusTreeIndex._write_page p (self, file) = (Return tt, (self, file')) /\
    file_rep file' meta (ps ++ [p]).
Proof.
  intros Hrep Hfit Hid. rewrite write_page_image by done. eexists. split; [done|].
  pose proof (file_rep_length _ _ _ Hrep) as Hlen.
  destruct Hrep as (Hm & Hfile & Hps).
  split_and!; [done| |by apply Forall_app; split; [|constructor]].
  rewrite Hid, id_of_to_nat. unfold BPlusTreeIndex.write_at.
  rewrite <- Hlen, firstn_all, Nat.sub_diag.
  rewrite drop_ge by lia. simpl. rewrite app_nil_r.
  rewrite Hfile, fmap_app, join_app. simpl. by rewrite app_nil_r, <- app_assoc.
Qed.

(** Writing the root pointer changes the metadata page only. *)
Lemma write_root_pointer file meta ps data :
  file_rep file meta ps -> length data = 8 ->
  exists meta', file_rep (BPlusTreeIndex.write_at file 8 data) meta' ps.
Proof.
  intros (Hm & -> & Hps) Hd. unfold PAGE_SIZE in Hm.
  exists (take 8 meta ++ data ++ drop 16 meta). split_and!; [| |done].
  - rewrite !length_app, length_take, length_drop, Hm, Hd. unfold PAGE_SIZE. lia.
  - assert (meta = take 8 meta ++ take 8 (drop 8 meta) ++ drop 16 meta) as Hsplit.
    { rewrite <- (take_drop 8 meta) at 1. f_equal.
      rewrite <- (take_drop 8 (drop 8 meta)) at 1. f_equal. by rewrite drop_drop. }
    rewrite Hsplit at 1. rewrite <- !app_assoc.
    rewrite write_at_middle.
    + done.
    + rewrite length_take. lia.
    + rewrite length_take, length_drop. lia.
Qed.

(** With no free page recorded, [_allocate_page] gives the number after
    the last page. *)
Lemma allocate_page_ok self file meta ps is_leaf :
  file_rep file meta ps -> BPlusTreeIndex.free_pages self = [] ->
  BPlusTreeIndex._allocate_page is_leaf (self, file)
  = (Return (if is_leaf then Page.new_leaf (BPlusTreeIndex.order self) (id_of (length ps))
             else Page.new_internal (BPlusTreeIndex.order self) (id_of (length ps))),
     (self, file)).
Proof.
  intros Hrep Hfree. unfold BPlusTreeIndex._allocate_page. rewrite Hfree.
  change (last (@nil N)) with (@None N). cbv iota beta.
  by rewrite (file_rep_pages _ _ _ Hrep).
Qed.

(** ** The order of bytes objects *)

Lemma bytes_ltb_irrefl a : bytes_ltb a a = false.
Proof.
  induction a as [|x a IH]; [done|]. simpl. by rewrite N.ltb_irrefl.
Qed.

Lemma byte_to_N_inj (x y : byte) : Byte.to_N x = Byte.to_N y -> x = y.
Proof.
  intros H. apply (f_equal Byte.of_N) in H. rewrite !Byte.of_to_N in H. congruence.
Qed.

#[global] Instance bytes_ltb_order : StrictOrderB bytes_ltb.
Proof.
  split.
  - apply bytes_ltb_irrefl.
  - intros x. induction x as [|a x IH]; intros [|b y] [|c z]; simpl; try done.
    destruct (N.ltb_spec (Byte.to_N a) (Byte.to_N b)),
             (N.ltb_spec (Byte.to_N b) (Byte.to_N a)),
             (N.ltb_spec (Byte.to_N b) (Byte.to_N c)),
             (N.ltb_spec (Byte.to_N c) (Byte.to_N b)),
             (N.ltb_spec (Byte.to_N a) (Byte.to_N c)),
             (N.ltb_spec (Byte.to_N c) (Byte.to_N a));
      try done; try lia.
    apply IH.
  - intros x. induction x as [|a x IH]; intros [|b y]; simpl; try done.
    destruct (N.ltb_spec (Byte.to_N a) (Byte.to_N b)),
             (N.ltb_spec (Byte.to_N b) (Byte.to_N a)); try done; try lia.
    intros H1 H2. f_equal; [apply byte_to_N_inj; lia|by apply IH].
Qed.

Abbreviation blt := (lt_rel bytes_ltb).

Lemma blt_trans a b c : blt a b -> blt b c -> blt a c.
Proof. apply ltb_trans. Qed.

(** [b <= c], as the negation of [c < b]. *)
Lemma ble_lt_trans a b c : bytes_ltb b a = false -> blt b c -> blt a c.
Proof.
  intros Hab Hbc. unfold lt_rel in *.
  destruct (bytes_ltb a b) eqn:E; [by eapply ltb_trans|].
  by rewrite (ltb_connex a b E Hab).
Qed.

Lemma blt_le_trans a b c : blt a b -> bytes_ltb c b = false -> blt a c.
Proof.
  intros Hab Hbc. unfold lt_rel in *.
  destruct (bytes_ltb b c) eqn:E; [by eapply ltb_trans|].
  by rewrite <- (ltb_connex b c E Hbc).
Qed.

Lemma blt_asym a b : blt a b -> bytes_ltb b a = false.
Proof.
  intros Hab. destruct (bytes_ltb b a) eqn:E; [|done].
  pose proof (ltb_trans a b a Hab E) as H. by rewrite bytes_ltb_irrefl in H.
Qed.

(** ** Positions in sorted lists *)

Lemma list_insert_lookup {A} (l : list A) i x j :
  i <= length l ->
  list_insert i x l !! j =
    if decide (j < i) then l !! j
    else if decide (j = i) then Some x else l !! (j - 1).
Proof.
  intros Hi. unfold list_insert.
  destruct (decide (j < i)).
  - rewrite lookup_app_l by (rewrite length_take; lia). by rewrite lookup_take_lt.
  - rewrite lookup_app_r by (rewrite length_take; lia).
    rewrite length_take. replace (i `min` length l) with i by lia.
    destruct (decide (j = i)) as [->|].
    + by rewrite Nat.sub_diag.
    + destruct (j - i) as [|d] eqn:E; [lia|]. simpl. rewrite lookup_drop.
      f_equal. lia.
Qed.

Lemma list_insert_length {A} (l : list A) i x :
  length (list_insert i x l) = S (length l).
Proof.
  unfold list_insert. rewrite length_app. simpl. rewrite length_take, length_drop. lia.
Qed.

Lemma list_insert_elem {A} (l : list A) i x y :
  y ∈ list_insert i x l <-> y = x \/ y ∈ l.
Proof.
  unfold list_insert. rewrite <- (take_drop i l) at 3.
  rewrite !elem_of_app, elem_of_cons. tauto.
Qed.

(** The position of [bisect_left] is the only one that cuts a sorted
    list below and not below the key. *)
Lemma bisect_left_unique (a : list bytes) x j :
  StronglySorted blt a -> j <= length a ->
  (forall i y, i < j -> a !! i = Some y -> bytes_ltb y x = true) ->
  (forall i y, j <= i -> a !! i = Some y -> bytes_ltb y x = false) ->
  bisect_left bytes_ltb [] a x = j.
Proof.
  intros Hs Hj Hlo Hhi.
  destruct (bisect_left_spec bytes_ltb [] a x Hs) as (Hlen & Hlo' & Hhi').
  set (r := bisect_left bytes_ltb [] a x) in *.
  destruct (Nat.lt_trichotomy r j) as [Hlt|[->|Hgt]]; [|done|].
  - destruct (lookup_lt_is_Some_2 a r ltac:(lia)) as [y Hy].
    pose proof (Hlo r y Hlt Hy). pose proof (Hhi' r y (Nat.le_refl _) Hy). congruence.
  - destruct (lookup_lt_is_Some_2 a j ltac:(lia)) as [y Hy].
    pose proof (Hhi j y (Nat.le_refl _) Hy). pose proof (Hlo' j y Hgt Hy). congruence.
Qed.

Lemma sorted_take (a : list bytes) n : StronglySorted blt a -> StronglySorted blt (take n a).
Proof.
  intros H. rewrite <- (take_drop n a) in H. by apply StronglySorted_app in H as (_ & ? & _).
Qed.

Lemma sorted_drop (a : list bytes) n : StronglySorted blt a -> StronglySorted blt (drop n a).
Proof.
  intros H. rewrite <- (take_drop n a) in H. by apply StronglySorted_app in H as (_ & _ & ?).
Qed.

Lemma sorted_lookup (a : list bytes) i j x y :
  StronglySorted blt a -> i < j -> a !! i = Some x -> a !! j = Some y -> blt x y.
Proof. apply sorted_lookup_lt. Qed.

(** ** Sums over the pages *)

Definition psum (f : Page.t -> nat) (ps : list Page.t) : nat :=
  foldr (fun p acc => f p + acc) 0 ps.

Lemma psum_app f ps qs : psum f (ps ++ qs) = psum f ps + psum f qs.
Proof. induction ps as [|p ps IH]; simpl; [done|]. rewrite IH. lia. Qed.

Lemma psum_insert f ps i p0 p :
  ps !! i = Some p0 -> psum f (<[i := p]> ps) + f p0 = psum f ps + f p.
Proof.
  revert i. induction ps as [|q ps IH]; intros i Hi; [done|].
  destruct i as [|i]; simpl in *.
  - injection Hi as ->. lia.
  - specialize (IH i Hi). lia.
Qed.

Lemma psum_le f g ps :
  (forall p, p ∈ ps -> f p <= g p) -> psum f ps <= psum g ps.
Proof.
  induction ps as [|p ps IH]; intros H; simpl; [done|].
  pose proof (H p ltac:(by left)). 
  assert (psum f ps <= psum g ps) by (apply IH; intros; apply H; by right). lia.
Qed.

Definition n_leaf : list Page.t -> nat := psum (fun p => if Page.is_leaf p then 1 else 0).
Definition n_int : list Page.t -> nat := psum (fun p => if Page.is_leaf p then 0 else 1).
Definition sum_leaf : list Page.t -> nat :=
  psum (fun p => if Page.is_leaf p then length (Page.keys p) else 0).
Definition sum_int : list Page.t -> nat :=
  psum (fun p => if Page.is_leaf p then 0 else length (Page.keys p)).

Lemma n_leaf_int ps : n_leaf ps + n_int ps = length ps.
Proof.
  unfold n_leaf, n_int. induction ps as [|p ps IH]; simpl; [done|].
  destruct (Page.is_leaf p); lia.
Qed.

(** With one key at least in every leaf but the one at [r], the leaves
    are at most one more than their keys. *)
Lemma n_leaf_le_keys ps r :
  (forall i p, ps !! i = Some p -> i <> r -> Page.is_leaf p = true ->
               1 <= length (Page.keys p)) ->
  n_leaf ps <= sum_leaf ps + 1.
Proof.
  intros H.
  assert (forall qs, (forall i p, qs !! i = Some p -> Page.is_leaf p = true ->
                                  1 <= length (Page.keys p)) ->
                     n_leaf qs <= sum_leaf qs) as Hall.
  { induction qs as [|q qs IH]; intros Hq; [done|].
    unfold n_leaf, sum_leaf in *. simpl.
    pose proof (Hq 0 q eq_refl) as H0.
    assert (psum (fun p => if Page.is_leaf p then 1 else 0) qs
            <= psum (fun p => if Page.is_leaf p then length (Page.keys p) else 0) qs)
      by (apply IH; intros i p Hi; apply (Hq (S i) p Hi)).
    destruct (Page.is_leaf q); [specialize (H0 eq_refl)|]; lia. }
  destruct (decide (r < length ps)) as [Hr|Hr].
  - destruct (lookup_lt_is_Some_2 ps r Hr) as [pr Hpr].
    pose proof (take_drop_middle ps r pr Hpr) as Hsplit.
    rewrite <- Hsplit. unfold n_leaf, sum_leaf. rewrite !psum_app. simpl.
    assert (n_leaf (take r ps) <= sum_leaf (take r ps)) as H1.
    { apply Hall. intros i p Hi. apply lookup_take_Some in Hi as [Hi Hlt].
      apply (H i p Hi). lia. }
    assert (n_leaf (drop (S r) ps) <= sum_leaf (drop (S r) ps)) as H2.
    { apply Hall. intros i p Hi. rewrite lookup_drop in Hi.
      apply (H _ p Hi). lia. }
    unfold n_leaf, sum_leaf in H1, H2. destruct (Page.is_leaf pr); lia.
  - assert (n_leaf ps <= sum_leaf ps); [|lia].
    apply Hall. intros i p Hi. apply (H i p Hi).
    apply lookup_lt_Some in Hi. lia.
Qed.

Lemma n_int_le_keys ps :
  (forall p, p ∈ ps -> Page.is_leaf p = false -> 1 <= length (Page.keys p)) ->
  n_int ps <= sum_int ps.
Proof.
  intros H. apply psum_le. intros p Hp. specialize (H p Hp).
  destruct (Page.is_leaf p); [done|]. by apply H.
Qed.

(** ** The tree in the page array: ghost bounds and heights *)

(** For the page at a position: the bounds of the keys below it, and
    its height over the leaves. *)
Record ghost := mk_ghost { g_lo : option bytes; g_hi : option bytes; g_ht : nat }.

Definition gupd (G : nat -> ghost) (i : nat) (g : ghost) : nat -> ghost :=
  fun j => if decide (j = i) then g else G j.

Lemma gupd_eq G i g : gupd G i g i = g.
Proof. unfold gupd. by rewrite decide_True. Qed.

Lemma gupd_ne G i g j : j <> i -> gupd G i g j = G j.
Proof. intros. unfold gupd. by rewrite decide_False. Qed.

(** [lo <= k], [lo < k] and [k < hi] for optional bounds. *)
Definition lo_le (lo : option bytes) (k : bytes) : Prop :=
  match lo with None => True | Some l => bytes_ltb k l = false end.
Definition lo_lt (lo : option bytes) (k : bytes) : Prop :=
  match lo with None => True | Some l => blt l k end.
Definition lt_hi (k : bytes) (hi : option bytes) : Prop :=
  match hi with None => True | Some h => blt k h end.

Lemma lo_lt_le lo k : lo_lt lo k -> lo_le lo k.
Proof. destruct lo; [apply blt_asym|done]. Qed.

(** The bounds of the child at position [j] of an internal page. *)
Definition lob (p : Page.t) (g : ghost) (j : nat) : option bytes :=
  match j with O => g_lo g | S j' => Page.keys p !! j' end.
Definition hib (p : Page.t) (g : ghost) (j : nat) : option bytes :=
  match Page.keys p !! j with Some k => Some k | None => g_hi g end.

(** A split that the parent does not know yet: the page at [l] kept the
    keys below [key], the new page at [rt] has the others. *)
Definition pending : Type := option (nat * bytes * nat).

Definition pend_left (pend : pending) (i : nat) : Prop :=
  match pend with Some (l, _, _) => i = l | None => False end.
Definition pend_right (pend : pending) (i : nat) : Prop :=
  match pend with Some (_, _, rt) => i = rt | None => False end.

(** The upper bound that the parent has for a page. *)
Definition eff_hi (G : nat -> ghost) (pend : pending) (i : nat) : option bytes :=
  match pend with
  | Some (l, _, rt) => if decide (i = l) then g_hi (G rt) else g_hi (G i)
  | None => g_hi (G i)
  end.

(** A key short enough for [m] entries with such keys to fit a page. *)
Definition key_ok (m : nat) (k : bytes) : Prop := m * (6 + length k) + 11 <= PAGE_SIZE.

Definition valid_id (n : nat) (c : N) : Prop := exists i, i < n /\ c = id_of i.

Definition min_keys (m : nat) (p : Page.t) : nat :=
  if Page.is_leaf p then m / 2 else (m + 1) / 2 - 1.

Record page_ok (m n i : nat) (p : Page.t) : Prop := {
  pk_id : Page.page_id p = id_of i;
  pk_order : Page.order p = m;
  pk_keys : Forall (key_ok m) (Page.keys p);
  pk_count : length (Page.keys p) <= m;
  pk_shape :
    if Page.is_leaf p then
      length (Page.children p) = length (Page.keys p) /\
      Forall (fun v : N => (v < 2 ^ 32)%N) (Page.children p) /\
      (Page.next_page p = 0%N \/ valid_id n (Page.next_page p))
    else
      length (Page.children p) = length (Page.keys p) + 1 /\
      1 <= length (Page.keys p) /\
      Page.next_page p = 0%N /\
      Forall (valid_id n) (Page.children p)
}.

(** The format of the pages. *)
Record fmt_inv (m : nat) (ps : list Page.t) (r : nat) (pend : pending)
    (over : option nat) : Prop := {
  fi_pages : forall i p, ps !! i = Some p -> page_ok m (length ps) i p;
  fi_root : r < length ps;
  fi_max : forall i p, ps !! i = Some p -> over <> Some i -> length (Page.keys p) < m;
  fi_min : forall i p, ps !! i = Some p -> i <> r \/ pend_left pend i ->
                       min_keys m p <= length (Page.keys p);
  fi_over : pend <> None -> over = None
}.

(** The search structure. *)
Record str_inv (m : nat) (ps : list Page.t) (G : nat -> ghost) (r : nat)
    (pend : pending) : Prop := {
  si_ht : forall i p, ps !! i = Some p -> (Page.is_leaf p = true <-> g_ht (G i) = 0);
  si_root_ht : g_ht (G r) < length ps;
  si_root_lo : g_lo (G r) = None;
  si_root_hi : eff_hi G pend r = None;
  si_child : forall i p j c,
    ps !! i = Some p -> Page.is_leaf p = false -> Page.children p !! j = Some c ->
    exists i', c = id_of i' /\ i' < length ps /\
      g_ht (G i') + 1 = g_ht (G i) /\
      g_lo (G i') = lob p (G i) j /\
      eff_hi G pend i' = hib p (G i) j /\
      ~ pend_right pend i';
  si_inj : forall i p j i' p' j' c,
    ps !! i = Some p -> Page.is_leaf p = false -> Page.children p !! j = Some c ->
    ps !! i' = Some p' -> Page.is_leaf p' = false -> Page.children p' !! j' = Some c ->
    i = i' /\ j = j';
  si_sorted : forall i p, ps !! i = Some p -> StronglySorted blt (Page.keys p);
  si_range : forall i p k, ps !! i = Some p -> k ∈ Page.keys p ->
    (if Page.is_leaf p then lo_le (g_lo (G i)) k else lo_lt (g_lo (G i)) k) /\
    lt_hi k (g_hi (G i));
  si_pend : match pend with
            | None => True
            | Some (l, key, rt) =>
                l < length ps /\ rt < length ps /\ l <> rt /\
                g_hi (G l) = Some key /\ g_lo (G rt) = Some key /\
                g_ht (G rt) = g_ht (G l) /\
                lo_lt (g_lo (G l)) key /\ lt_hi key (g_hi (G rt)) /\ key_ok m key
            end
}.

(** The chain of the leaves: consecutive bounds, linked by [next_page]. *)
Fixpoint chain_ok (ps : list Page.t) (G : nat -> ghost) (lo : option bytes)
    (chain : list nat) : Prop :=
  match chain with
  | [] => False
  | i :: rest =>
      exists p, ps !! i = Some p /\ g_lo (G i) = lo /\
        match rest with
        | [] => g_hi (G i) = None /\ Page.next_page p = 0%N
        | i' :: _ =>
            exists k, g_hi (G i) = Some k /\ Page.next_page p = id_of i' /\
                      chain_ok ps G (Some k) rest
        end
  end.

Definition keys_at (ps : list Page.t) (i : nat) : list bytes :=
  match ps !! i with Some p => Page.keys p | None => [] end.

Definition chain_keys (ps : list Page.t) (chain : list nat) : list bytes :=
  mjoin (keys_at ps <$> chain).

Record chn_inv (ps : list Page.t) (G : nat -> ghost) (chain : list nat)
    (ks : list bytes) : Prop := {
  ci_chain : chain_ok ps G None chain;
  ci_nodup : NoDup chain;
  ci_leaves : forall i, i ∈ chain <-> exists p, ps !! i = Some p /\ Page.is_leaf p = true;
  ci_keys : chain_keys ps chain ≡ₚ ks
}.

Definition pend_count (pend : pending) : nat :=
  match pend with Some _ => 1 | None => 0 end.

Record cnt_inv (ps : list Page.t) (pend : pending) (ks : list bytes) : Prop := {
  ct_int : sum_int ps + 1 + pend_count pend = n_leaf ps;
  ct_leaf : sum_leaf ps = length ks
}.

(** The invariant of the index: [ks] are the keys inserted, at most
    [cap] of them. *)
Record tree_inv (m cap : nat) (ps : list Page.t) (G : nat -> ghost) (r : nat)
    (pend : pending) (over : option nat) (chain : list nat) (ks : list bytes) : Prop := {
  ti_order : 3 <= m;
  ti_cap : (2 * N.of_nat cap + 2 < 2 ^ 32)%N;
  ti_size : length ks <= cap;
  ti_fmt : fmt_inv m ps r pend over;
  ti_str : str_inv m ps G r pend;
  ti_chn : chn_inv ps G chain ks;
  ti_cnt : cnt_inv ps pend ks
}.

(** *** Consequences of the invariant *)

Lemma entries_size_bound m ks :
  Forall (key_ok m) ks -> length ks <= m -> entries_size ks + 11 <= PAGE_SIZE.
Proof.
  intros Hk Hlen.
  assert (m * entries_size ks + length ks * 11 <= length ks * PAGE_SIZE) as H.
  { clear Hlen. induction Hk as [|k ks Hk Hks IH]; [simpl; lia|].
    unfold key_ok in Hk. unfold entries_size in *. cbn [foldr length].
    unfold PAGE_SIZE in *. nia. }
  destruct ks as [|k0 ks']; [simpl; unfold PAGE_SIZE; lia|].
  remember (entries_size (k0 :: ks')) as e. remember (length (k0 :: ks')) as n.
  assert (1 <= n) by (subst n; simpl; lia).
  unfold PAGE_SIZE in *.
  destruct (decide (e + 11 <= 4096)) as [|Hbig]; [done|exfalso].
  assert (n * 4086 <= m * 4086) by lia.
  assert (m * 4086 <= m * e) by (apply Nat.mul_le_mono_l; lia).
  lia.
Qed.

Lemma key_ok_small m k : 1 <= m -> key_ok m k -> (N.of_nat (length k) < 2 ^ 16)%N.
Proof.
  unfold key_ok, PAGE_SIZE. intros Hm Hk.
  assert (length k < 4096) by nia. change (2 ^ 16)%N with 65536%N. lia.
Qed.

Lemma valid_id_small n c : valid_id n c -> (N.of_nat n < 2 ^ 32)%N -> (c < 2 ^ 32)%N.
Proof. intros (i & Hi & ->) Hn. unfold id_of. lia. Qed.

Lemma valid_id_mono n n' c : valid_id n c -> n <= n' -> valid_id n' c.
Proof. intros (i & Hi & ->) Hn. exists i. split; [lia|done]. Qed.

Lemma page_ok_mono m n n' i p : page_ok m n i p -> n <= n' -> page_ok m n' i p.
Proof.
  intros [H1 H2 H3 H4 H5] Hn. split; try done.
  destruct (Page.is_leaf p).
  - destruct H5 as (? & ? & [?|?]); split_and!; try done; [by left|right].
    by eapply valid_id_mono.
  - destruct H5 as (? & ? & ? & H). split_and!; try done.
    eapply Forall_impl; [exact H|]. intros c Hc. by eapply valid_id_mono.
Qed.

(** A page of the invariant can be written. *)
Lemma page_ok_fits m n i p :
  1 <= m -> page_ok m n i p -> (N.of_nat n < 2 ^ 32)%N -> page_fits p.
Proof.
  intros Hm [Hid Hord Hkeys Hcount Hshape] Hn.
  pose proof (entries_size_bound m _ Hkeys Hcount) as Hsize.
  assert ((N.of_nat (length (Page.keys p)) < 2 ^ 16)%N) as Hkc.
  { destruct (Page.keys p) as [|k ks] eqn:E; [simpl; lia|].
    apply Forall_cons in Hkeys as [Hk _]. unfold key_ok, PAGE_SIZE in Hk.
    assert (m < 4096) by nia. change (2 ^ 16)%N with 65536%N. lia. }
  assert (Forall (fun k : bytes => (N.of_nat (length k) < 2 ^ 16)%N) (Page.keys p)) as Hkl.
  { eapply Forall_impl; [exact Hkeys|]. intros k Hk. by eapply key_ok_small. }
  unfold page_fits, wf_page, encoded_size.
  destruct (Page.is_leaf p).
  - destruct Hshape as (Hlen & Hvals & Hnext). split; [|lia].
    split; [split; try done|done].
    destruct Hnext as [->|Hv]; [done|]. by eapply valid_id_small.
  - destruct Hshape as (Hlen & Hone & Hnext & Hvalid). split; [|lia].
    split; [split; try done|done].
    + eapply Forall_impl; [exact Hvalid|]. intros c Hc. by eapply valid_id_small.
    + by rewrite Hnext.
Qed.

Section Consequences.
Context {m cap : nat} {ps : list Page.t} {G : nat -> ghost} {r : nat}
        {pend : pending} {over : option nat} {chain : list nat} {ks : list bytes}.
Hypothesis Hinv : tree_inv m cap ps G r pend over chain ks.

(** The pages are at most twice the keys, and one. *)
Lemma pages_bound : length ps + pend_count pend <= 2 * length ks + 1.
Proof.
  destruct Hinv as [Hm _ _ Hfmt _ _ [Hint Hleaf]].
  pose proof (n_leaf_int ps) as Hsum.
  assert (n_int ps <= sum_int ps) as H1.
  { apply n_int_le_keys. intros p Hp Hl. apply list_elem_of_lookup in Hp as [i Hi].
    pose proof (pk_shape _ _ _ _ (fi_pages _ _ _ _ _ Hfmt i p Hi)) as Hs.
    rewrite Hl in Hs. lia. }
  assert (n_leaf ps <= sum_leaf ps + 1) as H2.
  { apply (n_leaf_le_keys ps r). intros i p Hi Hne Hl.
    pose proof (fi_min _ _ _ _ _ Hfmt i p Hi (or_introl Hne)) as Hmin.
    unfold min_keys in Hmin. rewrite Hl in Hmin.
    assert (1 <= m / 2); [|lia].
    change 1 with (2 / 2). apply Nat.Div0.div_le_mono. lia. }
  lia.
Qed.

Lemma pages_small : (N.of_nat (length ps) + 1 < 2 ^ 32)%N.
Proof.
  pose proof pages_bound. destruct Hinv as [_ Hcap Hsize _ _ _ _]. lia.
Qed.

Lemma inv_page_fits i p : ps !! i = Some p -> page_fits p.
Proof.
  intros Hi. destruct Hinv as [Hm _ _ Hfmt _ _ _].
  eapply (page_ok_fits m); [lia|by eapply fi_pages|].
  pose proof pages_small. lia.
Qed.

Lemma inv_all_fit : Forall page_fits ps.
Proof. apply Forall_lookup. intros i p. apply inv_page_fits. Qed.

(** The root is the child of no page. *)
Lemma root_not_child i p j :
  ps !! i = Some p -> Page.is_leaf p = false ->
  Page.children p !! j <> Some (id_of r).
Proof.
  intros Hi Hl Hj. destruct Hinv as [_ _ _ Hfmt Hstr _ _].
  destruct (si_child _ _ _ _ _ Hstr i p j _ Hi Hl Hj)
    as (i' & Hid & _ & _ & Hlo & Hhi & _).
  apply id_of_inj in Hid. subst i'.
  rewrite (si_root_lo _ _ _ _ _ Hstr) in Hlo.
  rewrite (si_root_hi _ _ _ _ _ Hstr) in Hhi.
  pose proof (pk_shape _ _ _ _ (fi_pages _ _ _ _ _ Hfmt i p Hi)) as Hs.
  rewrite Hl in Hs. destruct Hs as (Hlen & Hone & _).
  unfold lob, hib in *. destruct j as [|j].
  - destruct (Page.keys p !! 0) eqn:E; [done|].
    apply lookup_ge_None in E. lia.
  - destruct (Page.keys p !! j) eqn:E; [done|].
    apply lookup_ge_None in E. apply lookup_lt_Some in Hj. lia.
Qed.

(** A child is below its parent. *)
Lemma child_lower i p j i' :
  ps !! i = Some p -> Page.is_leaf p = false ->
  Page.children p !! j = Some (id_of i') -> g_ht (G i') < g_ht (G i) /\ i' < length ps.
Proof.
  intros Hi Hl Hj. destruct Hinv as [_ _ _ _ Hstr _ _].
  destruct (si_child _ _ _ _ _ Hstr i p j _ Hi Hl Hj) as (i2 & Hid & Hlt & Hht & _).
  apply id_of_inj in Hid. subst i2. lia.
Qed.
End Consequences.

(** ** The steps of an insertion keep the invariant *)

(** *** The chain of the leaves under changes of the pages *)

Lemma chain_ok_frame ps G ps' G' lo chain :
  (forall i p, i ∈ chain -> ps !! i = Some p ->
     exists p', ps' !! i = Some p' /\ Page.next_page p' = Page.next_page p) ->
  (forall i, i ∈ chain -> g_lo (G' i) = g_lo (G i) /\ g_hi (G' i) = g_hi (G i)) ->
  chain_ok ps G lo chain -> chain_ok ps' G' lo chain.
Proof.
  revert lo. induction chain as [|i rest IH]; intros lo Hps HG; [done|].
  cbn [chain_ok]. intros (p & Hi & Hlo & Hrest).
  destruct (Hps i p ltac:(left) Hi) as (p' & Hi' & Hnext).
  destruct (HG i ltac:(left)) as [Hl Hh].
  exists p'. split_and!; [done|congruence|].
  destruct rest as [|i' rest'].
  - rewrite Hh, Hnext. done.
  - destruct Hrest as (k & Hk & Hn & Hc). exists k. split_and!; [congruence..|].
    apply IH; [| |done].
    + intros j q Hj. apply Hps. by right.
    + intros j Hj. apply HG. by right.
Qed.

Lemma chain_keys_frame ps ps' chain :
  (forall i, i ∈ chain -> keys_at ps' i = keys_at ps i) ->
  chain_keys ps' chain = chain_keys ps chain.
Proof.
  unfold chain_keys. induction chain as [|i rest IH]; intros H; [done|].
  rewrite !fmap_cons. cbn [mjoin list_join]. rewrite (H i) by left.
  f_equal. apply IH. intros j Hj. apply H. by right.
Qed.

(** One more key in a page of the chain is one more key in the chain. *)
Lemma chain_keys_add ps ps' chain l k :
  NoDup chain -> l ∈ chain ->
  keys_at ps' l ≡ₚ k :: keys_at ps l ->
  (forall i, i <> l -> keys_at ps' i = keys_at ps i) ->
  chain_keys ps' chain ≡ₚ k :: chain_keys ps chain.
Proof.
  intros Hnd Hl Hk Hother. apply list_elem_of_split in Hl as (pre & post & ->).
  apply NoDup_app in Hnd as (_ & Hpre & Hpost). apply NoDup_cons in Hpost as [Hpost _].
  unfold chain_keys. rewrite !fmap_app, !join_app, !fmap_cons.
  cbn [mjoin list_join].
  change (mjoin (keys_at ps' <$> pre)) with (chain_keys ps' pre).
  change (mjoin (keys_at ps' <$> post)) with (chain_keys ps' post).
  change (mjoin (keys_at ps <$> pre)) with (chain_keys ps pre).
  change (mjoin (keys_at ps <$> post)) with (chain_keys ps post).
  rewrite (chain_keys_frame ps ps' pre), (chain_keys_frame ps ps' post).
  - rewrite Hk. by rewrite Permutation_middle.
  - intros i Hi. apply Hother. intros ->. done.
  - intros i Hi. apply Hother. intros ->. by apply (Hpre l); [|left].
Qed.

Lemma keys_at_insert ps i p j :
  i < length ps ->
  keys_at (<[i := p]> ps) j = if decide (j = i) then Page.keys p else keys_at ps j.
Proof.
  intros Hi. unfold keys_at. destruct (decide (j = i)) as [->|Hne].
  - by rewrite list_lookup_insert_eq.
  - by rewrite list_lookup_insert_ne.
Qed.

Lemma psum_insert_eq f ps i p0 p :
  ps !! i = Some p0 -> f p = f p0 -> psum f (<[i := p]> ps) = psum f ps.
Proof. intros Hi Hf. pose proof (psum_insert f ps i p0 p Hi). lia. Qed.

Lemma psum_insert_add f ps i p0 p d :
  ps !! i = Some p0 -> f p = f p0 + d -> psum f (<[i := p]> ps) = psum f ps + d.
Proof. intros Hi Hf. pose proof (psum_insert f ps i p0 p Hi). lia. Qed.

Ltac page_simpl :=
  cbn [Page.keys Page.children Page.is_leaf Page.next_page Page.page_id Page.order
       Page.with_keys Page.with_next_page Page.new_leaf Page.new_internal].

(** *** A key added to a leaf *)

Section LeafAdd.
Context {m cap : nat} {ps : list Page.t} {G : nat -> ghost} {r : nat}
        {chain : list nat} {ks : list bytes}.
Context (l : nat) (p : Page.t) (k : bytes) (v : N).
Hypothesis Hinv : tree_inv m cap ps G r None None chain ks.
Hypothesis Hl : ps !! l = Some p.
Hypothesis Hleaf : Page.is_leaf p = true.
Hypothesis Hlo : lo_le (g_lo (G l)) k.
Hypothesis Hhi : lt_hi k (g_hi (G l)).
Hypothesis Hnew : k ∉ ks.
Hypothesis Hkey : key_ok m k.
Hypothesis Hval : (v < 2 ^ 32)%N.
Hypothesis Hcap : length ks < cap.

Let pos := bisect_left bytes_ltb [] (Page.keys p) k.
Let p' := Page.with_keys (list_insert pos k (Page.keys p))
            (list_insert pos v (Page.children p)) p.
Let ps' := <[l := p']> ps.

Lemma leaf_add_in_chain : l ∈ chain.
Proof. apply (ci_leaves _ _ _ _ (ti_chn _ _ _ _ _ _ _ _ _ Hinv)). eauto. Qed.

Lemma leaf_add_fresh : k ∉ Page.keys p.
Proof.
  intros Hin. apply Hnew.
  rewrite <- (ci_keys _ _ _ _ (ti_chn _ _ _ _ _ _ _ _ _ Hinv)).
  pose proof leaf_add_in_chain as Hc. unfold chain_keys.
  apply list_elem_of_join. exists (keys_at ps l). split.
  - unfold keys_at. by rewrite Hl.
  - apply list_elem_of_fmap. eauto.
Qed.

Lemma leaf_add_record : LeafPage.add_record k v p = (p', true).
Proof.
  unfold LeafPage.add_record. fold pos.
  destruct (Page.keys p !! pos) as [k0|] eqn:E; [|done].
  case_bool_decide as Heq; [|done]. subst k0.
  exfalso. apply leaf_add_fresh. by eapply list_elem_of_lookup_2.
Qed.

Lemma leaf_add_inv :
  tree_inv m cap ps' G r None (if Page.is_overfull p' then Some l else None) chain (k :: ks).
Proof.
  pose proof Hinv as [Hm Hc Hsize Hfmt Hstr Hchn Hcnt].
  pose proof (lookup_lt_Some _ _ _ Hl) as Hlt.
  pose proof (fi_pages _ _ _ _ _ Hfmt l p Hl) as [Hid Hord Hkeys Hcount Hshape].
  rewrite Hleaf in Hshape. destruct Hshape as (Hlen & Hvals & Hnext).
  pose proof (fi_max _ _ _ _ _ Hfmt l p Hl ltac:(done)) as Hmax.
  pose proof (si_sorted _ _ _ _ _ Hstr l p Hl) as Hsorted.
  assert (pos <= length (Page.keys p)) as Hpos
    by apply (bisect_left_spec bytes_ltb [] _ k Hsorted).
  assert (length ps' = length ps) as Hlen' by apply length_insert.
  assert (forall i q, ps' !! i = Some q ->
            (i = l /\ q = p') \/ (i <> l /\ ps !! i = Some q)) as Hcases.
  { intros i q Hi. apply list_lookup_insert_Some in Hi as [(<- & <- & _)|[Hne Hi]].
    - by left.
    - right. split; [congruence|done]. }
  split; [done|done|simpl; lia| | | |].
  - (* format *)
    split.
    + intros i q Hi. rewrite Hlen'. destruct (Hcases i q Hi) as [[-> ->]|[Hne Hq]].
      * split; try done.
        -- unfold p'; page_simpl. apply Forall_forall. intros x Hx.
           apply list_insert_elem in Hx as [->|Hx]; [done|].
           rewrite Forall_forall in Hkeys. by apply Hkeys.
        -- unfold p'; page_simpl. rewrite list_insert_length. lia.
        -- unfold p'; page_simpl. rewrite Hleaf. rewrite !list_insert_length.
           split_and!; [lia| |done].
           apply Forall_forall. intros x Hx.
           apply list_insert_elem in Hx as [->|Hx]; [done|].
           rewrite Forall_forall in Hvals. by apply Hvals.
      * by apply (fi_pages _ _ _ _ _ Hfmt).
    + rewrite Hlen'. apply (fi_root _ _ _ _ _ Hfmt).
    + intros i q Hi Hover. destruct (Hcases i q Hi) as [[-> ->]|[Hne Hq]].
      * unfold Page.is_overfull in Hover.
        destruct (Nat.leb_spec (Page.order p') (length (Page.keys p'))) as [|Hlt'];
          [done|]. unfold p' in Hlt'; cbn in Hlt'. unfold p'; page_simpl. lia.
      * by apply (fi_max _ _ _ _ _ Hfmt i q Hq).
    + intros i q Hi Hr. destruct (Hcases i q Hi) as [[-> ->]|[Hne Hq]].
      * pose proof (fi_min _ _ _ _ _ Hfmt l p Hl Hr) as Hmin.
        unfold min_keys in *. unfold p'. page_simpl. rewrite list_insert_length, Hleaf in *. lia.
      * by apply (fi_min _ _ _ _ _ Hfmt i q Hq).
    + done.
  - (* structure *)
    split.
    + intros i q Hi. destruct (Hcases i q Hi) as [[-> ->]|[Hne Hq]].
      * unfold p'; page_simpl. apply (si_ht _ _ _ _ _ Hstr l p Hl).
      * by apply (si_ht _ _ _ _ _ Hstr i q).
    + rewrite Hlen'. apply (si_root_ht _ _ _ _ _ Hstr).
    + apply (si_root_lo _ _ _ _ _ Hstr).
    + apply (si_root_hi _ _ _ _ _ Hstr).
    + intros i q j c Hi Hq Hj. rewrite Hlen'.
      destruct (Hcases i q Hi) as [[-> ->]|[Hne Hi0]]; [cbn in Hq; congruence|].
      by apply (si_child _ _ _ _ _ Hstr i q j c).
    + intros i q j i' q' j' c Hi Hq Hj Hi' Hq' Hj'.
      destruct (Hcases i q Hi) as [[-> ->]|[Hne Hi0]]; [cbn in Hq; congruence|].
      destruct (Hcases i' q' Hi') as [[-> ->]|[Hne' Hi0']]; [cbn in Hq'; congruence|].
      by apply (si_inj _ _ _ _ _ Hstr i q j i' q' j' c).
    + intros i q Hi. destruct (Hcases i q Hi) as [[-> ->]|[Hne Hq]].
      * unfold p'; page_simpl. apply bisect_left_insert_sorted; [apply _|done|apply leaf_add_fresh].
      * by apply (si_sorted _ _ _ _ _ Hstr i q).
    + intros i q x Hi Hx. destruct (Hcases i q Hi) as [[-> ->]|[Hne Hq]].
      * unfold p' in Hx; cbn in Hx. unfold p'; page_simpl. rewrite Hleaf.
        apply list_insert_elem in Hx as [->|Hx]; [done|].
        pose proof (si_range _ _ _ _ _ Hstr l p x Hl Hx) as Hr. by rewrite Hleaf in Hr.
      * by apply (si_range _ _ _ _ _ Hstr i q x).
    + done.
  - (* chain *)
    destruct Hchn as [Hchain Hnd Hleaves Hkeys'].
    split.
    + eapply chain_ok_frame; [| |exact Hchain]; [|done].
      intros i q _ Hi. destruct (decide (i = l)) as [->|Hne].
      * exists p'. split; [by apply list_lookup_insert_eq|]. unfold p'; page_simpl. congruence.
      * exists q. split; [|done]. unfold ps'. by rewrite list_lookup_insert_ne.
    + done.
    + intros i. rewrite Hleaves. split; intros (q & Hi & Hq).
      * destruct (decide (i = l)) as [->|Hne].
        -- exists p'. split; [by apply list_lookup_insert_eq|done].
        -- exists q. split; [|done]. unfold ps'. by rewrite list_lookup_insert_ne.
      * destruct (Hcases i q Hi) as [[-> ->]|[Hne Hi0]]; eauto.
    + rewrite <- Hkeys'. apply (chain_keys_add ps ps' chain l k Hnd leaf_add_in_chain).
      * unfold ps'. rewrite keys_at_insert, decide_True by done. unfold p'; page_simpl.
        unfold keys_at. rewrite Hl. unfold list_insert.
        rewrite <- Permutation_middle. by rewrite take_drop.
      * intros i Hne. unfold ps'. by rewrite keys_at_insert, decide_False.
  - (* counters *)
    destruct Hcnt as [Hint Hleaf'].
    split; unfold sum_int, n_leaf, sum_leaf, ps' in *.
    + rewrite !(psum_insert_eq _ ps l p p')
        by (done || by rewrite (eq_refl : Page.is_leaf p' = Page.is_leaf p), Hleaf).
      exact Hint.
    + rewrite (psum_insert_add _ ps l p p' 1); [simpl; lia|done|].
      rewrite (eq_refl : Page.is_leaf p' = Page.is_leaf p), Hleaf.
      unfold p'. page_simpl. rewrite list_insert_length. lia.
Qed.
End LeafAdd.

(** *** A full page split in two *)

(** The bounds after the page at [x] gave the keys from [mk] on to the
    new page at [n]. *)
Definition split_ghost (G : nat -> ghost) (x n : nat) (mk : bytes) : nat -> ghost :=
  gupd (gupd G x (mk_ghost (g_lo (G x)) (Some mk) (g_ht (G x))))
    n (mk_ghost (Some mk) (g_hi (G x)) (g_ht (G x))).

(** The pages after a split: one replaced, one appended. *)
Lemma split_pages_length (ps : list Page.t) x pl pr :
  length (<[x := pl]> ps ++ [pr]) = S (length ps).
Proof. rewrite length_app, length_insert. simpl. lia. Qed.

Lemma split_pages_x (ps : list Page.t) x pl pr :
  x < length ps -> (<[x := pl]> ps ++ [pr]) !! x = Some pl.
Proof.
  intros Hlt. rewrite lookup_app_l by (by rewrite length_insert).
  by apply list_lookup_insert_eq.
Qed.

Lemma split_pages_n (ps : list Page.t) x pl pr :
  (<[x := pl]> ps ++ [pr]) !! length ps = Some pr.
Proof.
  rewrite lookup_app_r by (by rewrite length_insert).
  rewrite length_insert. by rewrite Nat.sub_diag.
Qed.

Lemma split_pages_other (ps : list Page.t) x pl pr i :
  i <> x -> i <> length ps -> (<[x := pl]> ps ++ [pr]) !! i = ps !! i.
Proof.
  intros Hx Hn. destruct (decide (i < length ps)) as [Hlt|Hge].
  - rewrite lookup_app_l by (by rewrite length_insert).
    by rewrite list_lookup_insert_ne.
  - rewrite (lookup_ge_None_2 ps) by lia.
    apply lookup_ge_None_2. rewrite length_app, length_insert. simpl. lia.
Qed.

Lemma split_pages_lookup (ps : list Page.t) x pl pr i q :
  x < length ps ->
  (<[x := pl]> ps ++ [pr]) !! i = Some q ->
  (i = x /\ q = pl) \/ (i = length ps /\ q = pr) \/
  (i <> x /\ i < length ps /\ ps !! i = Some q).
Proof.
  intros Hlt Hi. destruct (decide (i = x)) as [->|Hx].
  - rewrite split_pages_x in Hi by done. left. split; congruence.
  - destruct (decide (i = length ps)) as [->|Hn].
    + rewrite split_pages_n in Hi. right; left. split; congruence.
    + rewrite split_pages_other in Hi by done. right; right.
      split_and!; [done| |done]. by eapply lookup_lt_Some.
Qed.

(** The page at [x] is full; [left] replaces it and [right] is the new
    last page.  A leaf keeps the key [mk] as the first of [right], an
    internal page gives it away. *)
Section Split.
Context {m cap : nat} {ps : list Page.t} {G : nat -> ghost} {r : nat}
        {chain : list nat} {ks : list bytes}.
Context (x : nat) (p left right : Page.t) (mk : bytes).
Hypothesis Hinv : tree_inv m cap ps G r None (Some x) chain ks.
Hypothesis Hx : ps !! x = Some p.
Hypothesis Hfull : length (Page.keys p) = m.

Let n := length ps.
Let sep := if Page.is_leaf p then [] else [mk].
Let G' := split_ghost G x n mk.
Let ps' := <[x := left]> ps ++ [right].
Let pend' : pending := Some (x, mk, n).

Hypothesis Hleft_id : Page.page_id left = id_of x.
Hypothesis Hleft_ord : Page.order left = m.
Hypothesis Hleft_leaf : Page.is_leaf left = Page.is_leaf p.
Hypothesis Hright_id : Page.page_id right = id_of n.
Hypothesis Hright_ord : Page.order right = m.
Hypothesis Hright_leaf : Page.is_leaf right = Page.is_leaf p.
Hypothesis Hkeys : Page.keys p = Page.keys left ++ sep ++ Page.keys right.
Hypothesis Hmk : if Page.is_leaf p then Page.keys right !! 0 = Some mk else True.
Hypothesis Hchildren : Page.children p = Page.children left ++ Page.children right.
Hypothesis Hleft_len :
  length (Page.children left)
  = length (Page.keys left) + (if Page.is_leaf p then 0 else 1).
Hypothesis Hleft_n : 1 <= length (Page.keys left).
Hypothesis Hright_n : 1 <= length (Page.keys right).
Hypothesis Hleft_min : min_keys m left <= length (Page.keys left).
Hypothesis Hright_min : min_keys m right <= length (Page.keys right).
Hypothesis Hleft_next :
  Page.next_page left = if Page.is_leaf p then id_of n else 0%N.
Hypothesis Hright_next : Page.next_page right = Page.next_page p.

Lemma split_x_lt : x < n.
Proof. by eapply lookup_lt_Some. Qed.

Lemma split_length : length ps' = S n.
Proof. apply split_pages_length. Qed.

Lemma split_lookup i q :
  ps' !! i = Some q ->
  (i = x /\ q = left) \/ (i = n /\ q = right) \/ (i <> x /\ i < n /\ ps !! i = Some q).
Proof. apply split_pages_lookup, split_x_lt. Qed.

Lemma split_G_x : G' x = mk_ghost (g_lo (G x)) (Some mk) (g_ht (G x)).
Proof.
  pose proof split_x_lt. unfold G', split_ghost. rewrite gupd_ne by lia.
  by rewrite gupd_eq.
Qed.

Lemma split_G_n : G' n = mk_ghost (Some mk) (g_hi (G x)) (g_ht (G x)).
Proof. unfold G', split_ghost. by rewrite gupd_eq. Qed.

Lemma split_G_other i : i <> x -> i <> n -> G' i = G i.
Proof. intros. unfold G', split_ghost. by rewrite !gupd_ne. Qed.

Lemma split_sorted :
  StronglySorted blt (Page.keys left) /\ StronglySorted blt (Page.keys right) /\
  Forall (fun k => blt k mk) (Page.keys left) /\
  Forall (fun k => if Page.is_leaf p then bytes_ltb k mk = false else blt mk k)
    (Page.keys right) /\
  mk ∈ Page.keys p.
Proof.
  destruct Hinv as [_ _ _ _ Hstr _ _].
  pose proof (si_sorted _ _ _ _ _ Hstr x p Hx) as Hs. rewrite Hkeys in Hs.
  apply StronglySorted_app in Hs as (Hcross & Hl & Hs).
  apply StronglySorted_app in Hs as (Hcross' & _ & Hr).
  split_and!; [done|done| | |].
  - apply Forall_forall. intros k Hk. apply (Hcross k mk Hk).
    unfold sep in *. destruct (Page.is_leaf p).
    + simpl. by eapply list_elem_of_lookup_2.
    + apply elem_of_app. left. by left.
  - unfold sep in *. destruct (Page.is_leaf p).
    + destruct (Page.keys right) as [|k0 kr] eqn:E; [done|].
      simpl in Hmk. injection Hmk as ->. apply StronglySorted_inv in Hr as [_ Hall].
      constructor; [apply bytes_ltb_irrefl|].
      eapply Forall_impl; [exact Hall|]. intros k Hk. by apply blt_asym.
    + apply Forall_forall. intros k Hk. apply (Hcross' mk k); [by left|done].
  - rewrite Hkeys. unfold sep. destruct (Page.is_leaf p).
    + simpl. apply elem_of_app. right. by eapply list_elem_of_lookup_2.
    + apply elem_of_app. right. by left.
Qed.

Lemma split_sizes :
  length (Page.keys left) + length sep + length (Page.keys right) = m /\
  length (Page.children right)
  = length (Page.keys right) + (if Page.is_leaf p then 0 else 1).
Proof.
  destruct Hinv as [_ _ _ Hfmt _ _ _].
  pose proof (pk_shape _ _ _ _ (fi_pages _ _ _ _ _ Hfmt x p Hx)) as Hshape.
  pose proof (f_equal length Hkeys) as H1. pose proof (f_equal length Hchildren) as H2.
  rewrite !length_app in H1, H2. subst sep.
  destruct (Page.is_leaf p); simpl in *; lia.
Qed.

Lemma split_fmt : fmt_inv m ps' r pend' None.
Proof.
  pose proof Hinv as [Hm _ _ Hfmt Hstr _ _].
  pose proof split_x_lt as Hlt. pose proof split_sizes as [Hsum Hrlen].
  pose proof (fi_pages _ _ _ _ _ Hfmt x p Hx) as [Hid Hord Hkeys0 Hcount Hshape].
  assert (Forall (key_ok m) (Page.keys left) /\ Forall (key_ok m) (Page.keys right))
    as [Hkl Hkr].
  { rewrite Hkeys in Hkeys0. apply Forall_app in Hkeys0 as [? H].
    by apply Forall_app in H as [_ ?]. }
  split.
  - intros i q Hi. rewrite split_length.
    destruct (split_lookup i q Hi) as [[-> ->]|[[-> ->]|(Hne & Hin & Hq)]].
    + split; [done|done|done|lia|].
      rewrite Hleft_leaf, Hleft_next. destruct (Page.is_leaf p).
      * destruct Hshape as (_ & Hvals & _). split_and!; [lia| |].
        -- rewrite Hchildren in Hvals. by apply Forall_app in Hvals as [? _].
        -- right. exists n. split; [lia|done].
      * destruct Hshape as (_ & _ & _ & Hvalid). split_and!; [lia|done|done|].
        rewrite Hchildren in Hvalid. apply Forall_app in Hvalid as [Hv _].
        eapply Forall_impl; [exact Hv|]. intros c Hc. eapply valid_id_mono; [done|].
        fold n. lia.
    + split; [done|done|done|lia|].
      rewrite Hright_leaf, Hright_next. destruct (Page.is_leaf p).
      * destruct Hshape as (_ & Hvals & Hnext). split_and!; [lia| |].
        -- rewrite Hchildren in Hvals. by apply Forall_app in Hvals as [_ ?].
        -- destruct Hnext as [?|Hv]; [by left|right].
           eapply valid_id_mono; [done|]. fold n. lia.
      * destruct Hshape as (_ & _ & Hnext & Hvalid). split_and!; [lia|done|done|].
        rewrite Hchildren in Hvalid. apply Forall_app in Hvalid as [_ Hv].
        eapply Forall_impl; [exact Hv|]. intros c Hc. eapply valid_id_mono; [done|].
        fold n. lia.
    + eapply page_ok_mono; [by apply (fi_pages _ _ _ _ _ Hfmt)|]. fold n. lia.
  - rewrite split_length. pose proof (fi_root _ _ _ _ _ Hfmt). fold n in H. lia.
  - intros i q Hi _.
    destruct (split_lookup i q Hi) as [[-> ->]|[[-> ->]|(Hne & Hin & Hq)]]; [lia|lia|].
    apply (fi_max _ _ _ _ _ Hfmt i q Hq). congruence.
  - intros i q Hi Hr.
    destruct (split_lookup i q Hi) as [[-> ->]|[[-> ->]|(Hne & Hin & Hq)]]; [done|done|].
    apply (fi_min _ _ _ _ _ Hfmt i q Hq). left. destruct Hr as [?|Hr]; [done|].
    simpl in Hr. done.
  - done.
Qed.

Lemma split_eff_hi i : i <> n -> eff_hi G' pend' i = eff_hi G None i.
Proof.
  intros Hn. unfold eff_hi, pend'. destruct (decide (i = x)) as [->|Hne].
  - by rewrite split_G_n.
  - by rewrite split_G_other.
Qed.

Lemma split_g_lo i : i <> n -> g_lo (G' i) = g_lo (G i).
Proof.
  intros Hn. destruct (decide (i = x)) as [->|Hne].
  - by rewrite split_G_x.
  - by rewrite split_G_other.
Qed.

Lemma split_g_ht i : i <> n -> g_ht (G' i) = g_ht (G i).
Proof.
  intros Hn. destruct (decide (i = x)) as [->|Hne].
  - by rewrite split_G_x.
  - by rewrite split_G_other.
Qed.

(** A child of a page after the split was a child before it. *)
Lemma split_child i q j c :
  ps' !! i = Some q -> Page.is_leaf q = false -> Page.children q !! j = Some c ->
  let cl := length (Page.children left) in
  (i = x /\ q = left /\ j < cl /\ Page.is_leaf p = false /\
   Page.children p !! j = Some c) \/
  (i = n /\ q = right /\ Page.is_leaf p = false /\
   Page.children p !! (cl + j) = Some c) \/
  (i <> x /\ i <> n /\ ps !! i = Some q).
Proof.
  intros Hi Hq Hj cl.
  destruct (split_lookup i q Hi) as [[-> ->]|[[-> ->]|(Hne & Hin & Hq0)]].
  - left. split_and!; [done|done|by eapply lookup_lt_Some|congruence|].
    rewrite Hchildren. by apply lookup_app_l_Some.
  - right; left. split_and!; [done|done|congruence|].
    rewrite Hchildren. rewrite lookup_app_r by (unfold cl; lia).
    by replace (cl + j - length (Page.children left)) with j by (unfold cl; lia).
  - right; right. split_and!; [done|lia|done].
Qed.

Lemma split_str : str_inv m ps' G' r pend'.
Proof.
  pose proof Hinv as [Hm _ _ Hfmt Hstr _ _].
  pose proof split_x_lt as Hlt. pose proof split_sizes as [Hsum Hrlen].
  pose proof split_sorted as (Hsl & Hsr & Hlt_mk & Hge_mk & Hmk_in).
  pose proof (fi_root _ _ _ _ _ Hfmt) as Hroot. fold n in Hroot.
  split.
  - intros i q Hi.
    destruct (split_lookup i q Hi) as [[-> ->]|[[-> ->]|(Hne & Hin & Hq)]].
    + rewrite split_G_x, Hleft_leaf. apply (si_ht _ _ _ _ _ Hstr x p Hx).
    + rewrite split_G_n, Hright_leaf. apply (si_ht _ _ _ _ _ Hstr x p Hx).
    + rewrite split_G_other by lia. by apply (si_ht _ _ _ _ _ Hstr i q).
  - rewrite split_length, split_g_ht by lia.
    pose proof (si_root_ht _ _ _ _ _ Hstr). fold n in H. lia.
  - rewrite split_g_lo by lia. apply (si_root_lo _ _ _ _ _ Hstr).
  - rewrite split_eff_hi by lia. apply (si_root_hi _ _ _ _ _ Hstr).
  - intros i q j c Hi Hq Hj. rewrite split_length.
    assert (forall i0 q0 j0 i',
      ps !! i0 = Some q0 -> Page.is_leaf q0 = false ->
      Page.children q0 !! j0 = Some (id_of i') -> i' < n ->
      g_ht (G i') + 1 = g_ht (G i0) -> i' <> n /\ (i0 = x -> i' <> x)) as Haux.
    { intros i0 q0 j0 i' _ _ _ Hi' Hht. split; [lia|]. intros -> ->. lia. }
    destruct (split_child i q j c Hi Hq Hj)
      as [(-> & -> & Hjlt & Hpl & Hpj)|[(-> & -> & Hpl & Hpj)|(Hne & Hnn & Hq0)]].
    + destruct (si_child _ _ _ _ _ Hstr x p j c Hx Hpl Hpj)
        as (i' & -> & Hi' & Hht & Hlo & Hhi & _).
      fold n in Hi'.
      destruct (Haux x p j i' Hx Hpl Hpj Hi' Hht) as [Hin Hix]. specialize (Hix eq_refl).
      exists i'. split_and!; [done|lia| | | |simpl; lia].
      * rewrite split_G_other, split_G_x by done. done.
      * rewrite split_G_other by done. rewrite Hlo. unfold lob.
        destruct j as [|j']; [by rewrite split_G_x|].
        rewrite Hkeys. rewrite lookup_app_l; [done|]. rewrite Hpl in Hleft_len. lia.
      * rewrite split_eff_hi by done. rewrite Hhi. unfold hib.
        rewrite Hkeys, split_G_x. cbn [g_hi]. rewrite Hpl in Hleft_len.
        destruct (decide (j < length (Page.keys left))) as [Hjl|Hjl].
        -- rewrite lookup_app_l by done.
           destruct (lookup_lt_is_Some_2 _ _ Hjl) as [k ->]. done.
        -- assert (j = length (Page.keys left)) as -> by lia.
           rewrite (lookup_ge_None_2 (Page.keys left)) by lia.
           rewrite lookup_app_r by lia. rewrite Nat.sub_diag.
           unfold sep. rewrite Hpl. done.
    + destruct (si_child _ _ _ _ _ Hstr x p _ c Hx Hpl Hpj)
        as (i' & -> & Hi' & Hht & Hlo & Hhi & _).
      fold n in Hi'.
      destruct (Haux x p _ i' Hx Hpl Hpj Hi' Hht) as [Hin Hix]. specialize (Hix eq_refl).
      rewrite Hpl in Hleft_len.
      exists i'. split_and!; [done|lia| | | |simpl; lia].
      * rewrite split_G_other, split_G_n by done. done.
      * rewrite split_G_other by done. rewrite Hlo. unfold lob.
        rewrite Hleft_len. replace (length (Page.keys left) + 1 + j)
          with (S (length (Page.keys left) + j)) by lia.
        rewrite Hkeys. rewrite lookup_app_r by lia.
        replace (length (Page.keys left) + j - length (Page.keys left)) with j by lia.
        unfold sep. rewrite Hpl. destruct j as [|j']; [by rewrite split_G_n|done].
      * rewrite split_eff_hi by done. rewrite Hhi. unfold hib.
        rewrite Hleft_len, Hkeys, split_G_n. cbn [g_hi].
        rewrite lookup_app_r by lia.
        replace (length (Page.keys left) + 1 + j - length (Page.keys left))
          with (S j) by lia.
        unfold sep. rewrite Hpl. done.
    + destruct (si_child _ _ _ _ _ Hstr i q j c Hq0 Hq Hj)
        as (i' & -> & Hi' & Hht & Hlo & Hhi & _).
      fold n in Hi'.
      exists i'. split_and!; [done|lia| | | |simpl; lia].
      * rewrite split_g_ht by lia. rewrite split_G_other by done. done.
      * rewrite split_g_lo by lia. rewrite split_G_other by done. done.
      * rewrite split_eff_hi by lia. rewrite split_G_other by done. done.
  - intros i q j i' q' j' c Hi Hq Hj Hi' Hq' Hj'.
    destruct (split_child i q j c Hi Hq Hj)
      as [(-> & -> & Hjlt & Hpl & Hpj)|[(-> & -> & Hpl & Hpj)|(Hne & Hnn & Hq0)]];
    destruct (split_child i' q' j' c Hi' Hq' Hj')
      as [(-> & -> & Hjlt' & Hpl' & Hpj')|[(-> & -> & Hpl' & Hpj')|(Hne' & Hnn' & Hq0')]].
    + destruct (si_inj _ _ _ _ _ Hstr _ _ _ _ _ _ _ Hx Hpl Hpj Hx Hpl' Hpj'). done.
    + destruct (si_inj _ _ _ _ _ Hstr _ _ _ _ _ _ _ Hx Hpl Hpj Hx Hpl' Hpj'). lia.
    + destruct (si_inj _ _ _ _ _ Hstr _ _ _ _ _ _ _ Hx Hpl Hpj Hq0' Hq' Hj'). done.
    + destruct (si_inj _ _ _ _ _ Hstr _ _ _ _ _ _ _ Hx Hpl Hpj Hx Hpl' Hpj'). lia.
    + destruct (si_inj _ _ _ _ _ Hstr _ _ _ _ _ _ _ Hx Hpl Hpj Hx Hpl' Hpj').
      split; [done|lia].
    + destruct (si_inj _ _ _ _ _ Hstr _ _ _ _ _ _ _ Hx Hpl Hpj Hq0' Hq' Hj'). done.
    + destruct (si_inj _ _ _ _ _ Hstr _ _ _ _ _ _ _ Hq0 Hq Hj Hx Hpl' Hpj'). done.
    + destruct (si_inj _ _ _ _ _ Hstr _ _ _ _ _ _ _ Hq0 Hq Hj Hx Hpl' Hpj'). done.
    + by apply (si_inj _ _ _ _ _ Hstr _ _ _ _ _ _ _ Hq0 Hq Hj Hq0' Hq' Hj').
  - intros i q Hi.
    destruct (split_lookup i q Hi) as [[-> ->]|[[-> ->]|(Hne & Hin & Hq)]]; [done|done|].
    by apply (si_sorted _ _ _ _ _ Hstr i q).
  - intros i q k Hi Hk.
    destruct (split_lookup i q Hi) as [[-> ->]|[[-> ->]|(Hne & Hin & Hq)]].
    + rewrite split_G_x, Hleft_leaf. cbn [g_lo g_hi]. split.
      * apply (si_range _ _ _ _ _ Hstr x p k Hx). rewrite Hkeys.
        apply elem_of_app. by left.
      * rewrite Forall_forall in Hlt_mk. by apply Hlt_mk.
    + rewrite split_G_n, Hright_leaf. cbn [g_lo g_hi]. split.
      * rewrite Forall_forall in Hge_mk. specialize (Hge_mk k Hk).
        by destruct (Page.is_leaf p).
      * apply (si_range _ _ _ _ _ Hstr x p k Hx). rewrite Hkeys.
        rewrite !elem_of_app. by right; right.
    + rewrite split_G_other by lia. by apply (si_range _ _ _ _ _ Hstr i q k).
  - unfold pend'. rewrite split_length, split_G_x, split_G_n. cbn [g_lo g_hi g_ht].
    split_and!; [lia|lia|lia|done|done|done| | |].
    + destruct (Page.keys left) as [|k0 kl] eqn:E; [simpl in Hleft_n; lia|].
      apply Forall_cons in Hlt_mk as [Hk0 _].
      pose proof (si_range _ _ _ _ _ Hstr x p k0 Hx) as [Hr _].
      { rewrite Hkeys. by left. }
      destruct (g_lo (G x)) as [lo|]; [|done]. simpl.
      destruct (Page.is_leaf p); simpl in Hr.
      * by eapply ble_lt_trans.
      * by eapply blt_trans.
    + by apply (si_range _ _ _ _ _ Hstr x p mk Hx).
    + pose proof (pk_keys _ _ _ _ (fi_pages _ _ _ _ _ Hfmt x p Hx)) as Hk.
      rewrite Forall_forall in Hk. by apply Hk.
Qed.

Lemma split_cnt : cnt_inv ps' pend' ks.
Proof.
  pose proof Hinv as [_ _ _ _ _ _ [Hint Hleaf]].
  pose proof split_sizes as [Hsum _].
  pose proof (psum_insert (fun p => if Page.is_leaf p then 0 else length (Page.keys p))
                ps x p left Hx) as H1.
  pose proof (psum_insert (fun p => if Page.is_leaf p then 1 else 0) ps x p left Hx) as H2.
  pose proof (psum_insert (fun p => if Page.is_leaf p then length (Page.keys p) else 0)
                ps x p left Hx) as H3.
  cbv beta in H1, H2, H3.
  split; unfold sum_int, n_leaf, sum_leaf, ps', pend' in *; rewrite !psum_app;
    cbn [psum foldr pend_count];
    rewrite ?Hleft_leaf, ?Hright_leaf in *; unfold sep in Hsum;
    destruct (Page.is_leaf p); simpl in *; lia.
Qed.
End Split.

(** *** A full leaf split in two *)

(** The chain with [n] after [x]. *)
Fixpoint insert_after (x n : nat) (chain : list nat) : list nat :=
  match chain with
  | [] => []
  | i :: rest =>
      if decide (i = x) then i :: n :: rest else i :: insert_after x n rest
  end.

Lemma insert_after_elem x n chain i :
  i ∈ insert_after x n chain <-> i ∈ chain \/ (i = n /\ x ∈ chain).
Proof.
  induction chain as [|j rest IH]; simpl.
  - rewrite elem_of_nil. split; [done|]. intros [[]|[_ []%elem_of_nil]].
  - destruct (decide (j = x)) as [->|Hne].
    + rewrite !elem_of_cons. intuition.
    + rewrite !elem_of_cons, IH. intuition congruence.
Qed.

Lemma insert_after_NoDup x n chain :
  NoDup chain -> n ∉ chain -> NoDup (insert_after x n chain).
Proof.
  induction 1 as [|j rest Hj Hnd IH]; intros Hn; simpl; [constructor|].
  apply not_elem_of_cons in Hn as [Hnj Hn].
  destruct (decide (j = x)) as [->|Hne].
  - constructor; [|by constructor].
    rewrite elem_of_cons. intros [?|?]; [congruence|done].
  - constructor; [|by apply IH].
    rewrite insert_after_elem. intros [?|[? _]]; [done|congruence].
Qed.

Lemma chain_ok_insert_after ps G ps' G' x n p pl pr mk lo chain :
  ps !! x = Some p -> ps' !! x = Some pl -> ps' !! n = Some pr ->
  Page.next_page pl = id_of n -> Page.next_page pr = Page.next_page p ->
  g_lo (G' x) = g_lo (G x) -> g_hi (G' x) = Some mk ->
  g_lo (G' n) = Some mk -> g_hi (G' n) = g_hi (G x) ->
  (forall i, i <> x -> i <> n -> ps' !! i = ps !! i /\ G' i = G i) ->
  n ∉ chain -> NoDup chain ->
  chain_ok ps G lo chain -> chain_ok ps' G' lo (insert_after x n chain).
Proof.
  intros Hx Hx' Hn' Hnl Hnr Hlo Hhi Hlo' Hhi' Hother.
  revert lo. induction chain as [|i rest IH]; intros lo Hn Hnd; [done|].
  apply not_elem_of_cons in Hn as [Hni Hn]. apply NoDup_cons in Hnd as [Hi Hnd].
  intros (q & Hq & Hql & Hrest). cbn [insert_after].
  destruct (decide (i = x)) as [->|Hne].
  - assert (q = p) as -> by congruence.
    exists pl. split_and!; [done|congruence|].
    exists mk. split_and!; [done|done|].
    exists pr. split_and!; [done|done|].
    assert (forall lo', chain_ok ps G lo' rest -> chain_ok ps' G' lo' rest) as Hframe.
    { intros lo'. apply chain_ok_frame.
      - intros j pj Hj Hpj. exists pj. split; [|done].
        destruct (Hother j) as [-> _]; [by intros ->|by intros ->|done].
      - intros j Hj. destruct (Hother j) as [_ ->]; [by intros ->|by intros ->|done]. }
    destruct rest as [|i' rest'].
    + destruct Hrest as [Hh Hnx]. split; congruence.
    + destruct Hrest as (k & Hk & Hnx & Hc). exists k. split_and!; [congruence..|].
      by apply Hframe.
  - destruct (Hother i Hne ltac:(congruence)) as [Hpi HGi].
    exists q. split_and!; [congruence|congruence|].
    destruct rest as [|i' rest'].
    + simpl. by rewrite HGi.
    + destruct Hrest as (k & Hk & Hnx & Hc).
      assert (exists tl, insert_after x n (i' :: rest') = i' :: tl) as [tl Htl].
      { simpl. destruct (decide (i' = x)); eauto. }
      rewrite Htl. exists k. split_and!; [congruence|done|].
      rewrite <- Htl. by apply IH.
Qed.

Lemma chain_keys_insert_after ps ps' x n chain :
  keys_at ps' x ++ keys_at ps' n = keys_at ps x ->
  (forall i, i <> x -> i <> n -> keys_at ps' i = keys_at ps i) ->
  n ∉ chain -> NoDup chain ->
  chain_keys ps' (insert_after x n chain) = chain_keys ps chain.
Proof.
  intros Hx Hother. induction chain as [|i rest IH]; intros Hn Hnd; [done|].
  apply not_elem_of_cons in Hn as [Hni Hn]. apply NoDup_cons in Hnd as [Hi Hnd].
  cbn [insert_after]. destruct (decide (i = x)) as [->|Hne].
  - unfold chain_keys. rewrite !fmap_cons. cbn [mjoin list_join].
    rewrite app_assoc, Hx. f_equal. apply chain_keys_frame.
    intros j Hj. apply Hother; by intros ->.
  - unfold chain_keys in *. rewrite !fmap_cons. cbn [mjoin list_join].
    rewrite Hother by done. f_equal. by apply IH.
Qed.

Section LeafSplit.
Context {m cap : nat} {ps : list Page.t} {G : nat -> ghost} {r : nat}
        {chain : list nat} {ks : list bytes}.
Context (x : nat) (p : Page.t).
Hypothesis Hinv : tree_inv m cap ps G r None (Some x) chain ks.
Hypothesis Hx : ps !! x = Some p.
Hypothesis Hleaf : Page.is_leaf p = true.
Hypothesis Hfull : length (Page.keys p) = m.

Let n := length ps.
Let mid := length (Page.keys p) / 2.
Let new_leaf := Page.with_keys (drop mid (Page.keys p)) (drop mid (Page.children p))
                  (Page.new_leaf m (id_of n)).
Let leaf' := Page.with_keys (take mid (Page.keys p)) (take mid (Page.children p)) p.
Let right := Page.with_next_page (Page.next_page leaf') new_leaf.
Let left := Page.with_next_page (Page.page_id right) leaf'.

Lemma leaf_split_mid : 1 <= mid /\ mid < m /\ m / 2 = mid.
Proof.
  destruct Hinv as [Hm _ _ _ _ _ _]. unfold mid. rewrite Hfull.
  pose proof (Nat.div_mod_eq m 2). pose proof (Nat.mod_upper_bound m 2 ltac:(lia)).
  lia.
Qed.

Lemma leaf_split_inv :
  exists mk,
    Page.keys right !! 0 = Some mk /\
    tree_inv m cap (<[x := left]> ps ++ [right]) (split_ghost G x n mk) r
      (Some (x, mk, n)) None (insert_after x n chain) ks.
Proof.
  pose proof Hinv as [Hm Hc Hsize Hfmt Hstr Hchn Hcnt].
  pose proof leaf_split_mid as (Hmid1 & Hmid2 & Hmid3).
  pose proof (fi_pages _ _ _ _ _ Hfmt x p Hx) as [Hid Hord Hkeys0 Hcount Hshape].
  rewrite Hleaf in Hshape. destruct Hshape as (Hlen & Hvals & Hnext).
  destruct (lookup_lt_is_Some_2 (Page.keys p) mid ltac:(lia)) as [mk Hmk].
  assert (Page.keys right !! 0 = Some mk) as Hmk0.
  { unfold right, new_leaf. page_simpl. rewrite lookup_drop. by rewrite Nat.add_0_r. }
  exists mk. split; [done|].
  assert (length (take mid (Page.keys p)) = mid) as Htl by (rewrite length_take; lia).
  assert (length (drop mid (Page.keys p)) = m - mid) as Hdl by (rewrite length_drop; lia).
  pose proof (fun H1 H2 H3 H4 H5 H6 H7 H8 H9 H10 H11 H12 H13 H14 H15 H16 =>
    conj (split_fmt (m:=m) x p left right mk Hinv Hx Hfull
            H1 H2 H3 H4 H5 H6 H7 H8 H9 H10 H11 H12 H13 H14 H15 H16)
      (conj (split_str (m:=m) x p left right mk Hinv Hx Hfull
               H1 H2 H3 H4 H5 H6 H7 H8 H9 H10 H11 H12 H13 H14 H15 H16)
            (split_cnt (m:=m) x p left right mk Hinv Hx Hfull
               H1 H2 H3 H4 H5 H6 H7 H8 H9 H10 H11 H12 H13 H14 H15 H16))) as Hsplit.
  rewrite Hleaf in Hsplit. fold n in Hsplit.
  destruct Hsplit as (Hfmt' & Hstr' & Hcnt'); try done.
  - unfold left, leaf', right, new_leaf. page_simpl. simpl. by rewrite take_drop.
  - unfold left, leaf', right, new_leaf. page_simpl. by rewrite take_drop.
  - unfold left, leaf'. page_simpl. rewrite !length_take. lia.
  - unfold left, leaf'. page_simpl. lia.
  - unfold right, new_leaf. page_simpl. lia.
  - unfold min_keys, left, leaf'. page_simpl. rewrite Hleaf. lia.
  - unfold min_keys, right, new_leaf. page_simpl. rewrite Hdl.
    pose proof (Nat.div_mod_eq m 2). lia.
  - split; [done..| | |done].
    + exact Hstr'.
    + destruct Hchn as [Hchain Hnd Hleaves Hkeys'].
      assert (n ∉ chain) as Hnc.
      { intros Hin. apply Hleaves in Hin as (q & Hq & _).
        apply lookup_lt_Some in Hq. unfold n in Hq. lia. }
      assert (x < n) as Hxn by (by eapply lookup_lt_Some).
      assert (forall i, i <> x -> i <> n ->
                (<[x:=left]> ps ++ [right]) !! i = ps !! i) as Hother.
      { intros i. apply split_pages_other. }
      assert ((<[x:=left]> ps ++ [right]) !! x = Some left) as Hlx
        by (by apply split_pages_x).
      assert ((<[x:=left]> ps ++ [right]) !! n = Some right) as Hln
        by apply split_pages_n.
      split.
      * eapply (chain_ok_insert_after ps G _ _ x n p left right mk);
          try done.
        -- unfold split_ghost. rewrite gupd_ne by lia. by rewrite gupd_eq.
        -- unfold split_ghost. rewrite gupd_ne by lia. by rewrite gupd_eq.
        -- unfold split_ghost. by rewrite gupd_eq.
        -- unfold split_ghost. by rewrite gupd_eq.
        -- intros i Hix Hin. split; [by apply Hother|].
           unfold split_ghost. by rewrite !gupd_ne.
      * by apply insert_after_NoDup.
      * intros i. rewrite insert_after_elem, !Hleaves. split.
        -- intros [(q & Hq & Hql)|[-> _]].
           ++ destruct (decide (i = x)) as [->|Hne]; [by exists left|].
              exists q. split; [|done]. rewrite Hother; [done|done|].
              apply lookup_lt_Some in Hq. unfold n. lia.
           ++ by exists right.
        -- intros (q & Hq & Hql).
           destruct (decide (i = n)) as [->|Hin]; [right; eauto|left].
           destruct (decide (i = x)) as [->|Hix]; [eauto|].
           exists q. by rewrite <- Hother.
      * rewrite <- Hkeys'. rewrite (chain_keys_insert_after ps _ x n); try done.
        -- unfold keys_at. rewrite Hlx, Hln, Hx.
           unfold left, leaf', right, new_leaf. page_simpl. by rewrite take_drop.
        -- intros i Hix Hin. unfold keys_at. by rewrite Hother.
Qed.
End LeafSplit.

(** *** A full internal page split in two *)

Section InternalSplit.
Context {m cap : nat} {ps : list Page.t} {G : nat -> ghost} {r : nat}
        {chain : list nat} {ks : list bytes}.
Context (x : nat) (p : Page.t).
Hypothesis Hinv : tree_inv m cap ps G r None (Some x) chain ks.
Hypothesis Hx : ps !! x = Some p.
Hypothesis Hleaf : Page.is_leaf p = false.
Hypothesis Hfull : length (Page.keys p) = m.

Let n := length ps.
Let mid := length (Page.keys p) / 2.
Let right := Page.with_keys (drop (mid + 1) (Page.keys p))
               (drop (mid + 1) (Page.children p)) (Page.new_internal m (id_of n)).
Let left := Page.with_keys (take mid (Page.keys p)) (take (mid + 1) (Page.children p)) p.

Lemma internal_split_inv :
  exists mk,
    Page.keys p !! mid = Some mk /\
    tree_inv m cap (<[x := left]> ps ++ [right]) (split_ghost G x n mk) r
      (Some (x, mk, n)) None chain ks.
Proof.
  pose proof Hinv as [Hm Hc Hsize Hfmt Hstr Hchn Hcnt].
  assert (1 <= mid /\ mid + 2 <= m /\ m / 2 = mid) as (Hmid1 & Hmid2 & Hmid3).
  { unfold mid. rewrite Hfull.
    pose proof (Nat.div_mod_eq m 2). pose proof (Nat.mod_upper_bound m 2 ltac:(lia)).
    lia. }
  pose proof (fi_pages _ _ _ _ _ Hfmt x p Hx) as [Hid Hord Hkeys0 Hcount Hshape].
  rewrite Hleaf in Hshape. destruct Hshape as (Hlen & Hone & Hnext & Hvalid).
  destruct (lookup_lt_is_Some_2 (Page.keys p) mid ltac:(lia)) as [mk Hmk].
  exists mk. split; [done|].
  assert (length (take mid (Page.keys p)) = mid) as Htl by (rewrite length_take; lia).
  assert (length (drop (mid + 1) (Page.keys p)) = m - mid - 1) as Hdl
    by (rewrite length_drop; lia).
  pose proof (fun H1 H2 H3 H4 H5 H6 H7 H8 H9 H10 H11 H12 H13 H14 H15 H16 =>
    conj (split_fmt (m:=m) x p left right mk Hinv Hx Hfull
            H1 H2 H3 H4 H5 H6 H7 H8 H9 H10 H11 H12 H13 H14 H15 H16)
      (conj (split_str (m:=m) x p left right mk Hinv Hx Hfull
               H1 H2 H3 H4 H5 H6 H7 H8 H9 H10 H11 H12 H13 H14 H15 H16)
            (split_cnt (m:=m) x p left right mk Hinv Hx Hfull
               H1 H2 H3 H4 H5 H6 H7 H8 H9 H10 H11 H12 H13 H14 H15 H16))) as Hsplit.
  rewrite Hleaf in Hsplit. fold n in Hsplit.
  destruct Hsplit as (Hfmt' & Hstr' & Hcnt'); try done.
  - unfold left, right. page_simpl. rewrite <- (take_drop_middle _ _ _ Hmk) at 1.
    by rewrite Nat.add_1_r.
  - unfold left, right. page_simpl. by rewrite take_drop.
  - unfold left. page_simpl. rewrite !length_take. lia.
  - unfold left. page_simpl. lia.
  - unfold right. page_simpl. lia.
  - unfold min_keys, left. page_simpl. rewrite Hleaf, Htl.
    pose proof (Nat.div_mod_eq m 2). pose proof (Nat.div_mod_eq (m + 1) 2).
    pose proof (Nat.mod_upper_bound m 2 ltac:(lia)).
    pose proof (Nat.mod_upper_bound (m + 1) 2 ltac:(lia)). lia.
  - unfold min_keys, right. page_simpl. rewrite Hdl.
    pose proof (Nat.div_mod_eq m 2). pose proof (Nat.div_mod_eq (m + 1) 2).
    pose proof (Nat.mod_upper_bound m 2 ltac:(lia)).
    pose proof (Nat.mod_upper_bound (m + 1) 2 ltac:(lia)). lia.
  - split; [done..| | |done].
    + exact Hstr'.
    + destruct Hchn as [Hchain Hnd Hleaves Hkeys'].
      assert (x < n) as Hxn by (by eapply lookup_lt_Some).
      assert (forall i, i ∈ chain -> i <> x /\ i <> n) as Hin.
      { intros i Hi. apply Hleaves in Hi as (q & Hq & Hql). split.
        - intros ->. congruence.
        - apply lookup_lt_Some in Hq. unfold n. lia. }
      split.
      * eapply chain_ok_frame; [| |exact Hchain].
        -- intros i q Hi Hq. destruct (Hin i Hi). exists q. split; [|done].
           by rewrite split_pages_other.
        -- intros i Hi. destruct (Hin i Hi). unfold split_ghost.
           by rewrite !gupd_ne.
      * done.
      * intros i. rewrite Hleaves. split; intros (q & Hq & Hql).
        -- exists q. split; [|done]. rewrite split_pages_other; [done| |].
           ++ intros ->. congruence.
           ++ apply lookup_lt_Some in Hq. unfold n. lia.
        -- destruct (split_pages_lookup _ _ _ _ _ _ Hxn Hq)
             as [[-> ->]|[[-> ->]|(_ & _ & Hq0)]];
             [unfold left in Hql; simpl in Hql; congruence
             |unfold right in Hql; simpl in Hql; congruence|eauto].
      * rewrite (chain_keys_frame ps (<[x:=left]> ps ++ [right]) chain); [done|].
        intros i Hi. destruct (Hin i Hi). unfold keys_at.
        by rewrite split_pages_other.
Qed.
End InternalSplit.

(** *** The key of a split added to the parent *)

Lemma lo_lt_trans lo a b : lo_lt lo a -> blt a b -> lo_lt lo b.
Proof. destruct lo; simpl; [apply blt_trans|done]. Qed.

Lemma lt_hi_trans a b hi : blt a b -> lt_hi b hi -> lt_hi a hi.
Proof. destruct hi; simpl; [apply blt_trans|done]. Qed.

Section ParentInsert.
Context {m cap : nat} {ps : list Page.t} {G : nat -> ghost} {r : nat}
        {chain : list nat} {ks : list bytes}.
Context (l rt : nat) (key : bytes) (i : nat) (p : Page.t) (j : nat).
Hypothesis Hinv : tree_inv m cap ps G r (Some (l, key, rt)) None chain ks.
Hypothesis Hi : ps !! i = Some p.
Hypothesis Hleaf : Page.is_leaf p = false.
Hypothesis Hj : Page.children p !! j = Some (id_of l).

Let pos := bisect_left bytes_ltb [] (Page.keys p) key.
Let p' := Page.with_keys (list_insert pos key (Page.keys p))
            (list_insert (pos + 1) (id_of rt) (Page.children p)) p.
Let ps' := <[i := p']> ps.

(** What the invariant says of the pages of the split and of the parent. *)
Lemma parent_facts :
  l < length ps /\ rt < length ps /\ l <> rt /\ i <> l /\ i <> rt /\ l <> r /\
  g_ht (G l) + 1 = g_ht (G i) /\ g_ht (G rt) = g_ht (G l) /\
  g_hi (G l) = Some key /\ g_lo (G rt) = Some key /\
  g_lo (G l) = lob p (G i) j /\ g_hi (G rt) = hib p (G i) j /\
  lo_lt (lob p (G i) j) key /\ lt_hi key (hib p (G i) j) /\ key_ok m key /\
  length (Page.children p) = length (Page.keys p) + 1 /\ j <= length (Page.keys p) /\
  length (Page.keys p) < m /\ StronglySorted blt (Page.keys p).
Proof.
  pose proof Hinv as [Hm _ _ Hfmt Hstr _ _].
  destruct (si_pend _ _ _ _ _ Hstr) as (Hl & Hrt & Hne & Hhi & Hlo & Hht & Hlt & Hgt & Hk).
  destruct (si_child _ _ _ _ _ Hstr i p j _ Hi Hleaf Hj)
    as (l' & Hid & _ & Hht' & Hlo' & Hhi' & _).
  apply id_of_inj in Hid. subst l'.
  unfold eff_hi in Hhi'. rewrite decide_True in Hhi' by done.
  pose proof (pk_shape _ _ _ _ (fi_pages _ _ _ _ _ Hfmt i p Hi)) as Hshape.
  rewrite Hleaf in Hshape. destruct Hshape as (Hlen & _).
  pose proof (lookup_lt_Some _ _ _ Hj) as Hjlt.
  split_and!; try done; try lia.
  - intros ->. lia.
  - intros ->. lia.
  - intros ->. by apply (root_not_child Hinv i p j Hi Hleaf).
  - by rewrite <- Hlo'.
  - by rewrite <- Hhi'.
  - by apply (fi_max _ _ _ _ _ Hfmt i p Hi).
  - by apply (si_sorted _ _ _ _ _ Hstr i p).
Qed.

Lemma parent_cut :
  Forall (fun y => blt y key) (take j (Page.keys p)) /\
  Forall (fun y => blt key y) (drop j (Page.keys p)).
Proof.
  destruct parent_facts
    as (_ & _ & _ & _ & _ & _ & _ & _ & _ & _ & _ & _ & Hlo & Hhi & _ & _ & Hjle & _ & Hs).
  split; apply Forall_lookup; intros a y Ha.
  - apply lookup_take_Some in Ha as [Ha Hlt].
    destruct j as [|j']; [lia|]. simpl in Hlo.
    destruct (Page.keys p !! j') as [kj|] eqn:E; [|apply lookup_ge_None in E; lia].
    simpl in Hlo. destruct (decide (a = j')) as [->|Hne]; [congruence|].
    eapply blt_trans; [|exact Hlo]. apply (sorted_lookup _ a j' _ _ Hs); [lia|done..].
  - rewrite lookup_drop in Ha. unfold hib in Hhi.
    destruct (Page.keys p !! j) as [kj|] eqn:E; [|apply lookup_ge_None in E;
      apply lookup_lt_Some in Ha; lia].
    simpl in Hhi. destruct a as [|a].
    + rewrite Nat.add_0_r in Ha. congruence.
    + eapply blt_trans; [exact Hhi|]. apply (sorted_lookup _ j (j + S a) _ _ Hs); [lia|done..].
Qed.

Lemma parent_pos : pos = j.
Proof.
  destruct parent_facts
    as (_ & _ & _ & _ & _ & _ & _ & _ & _ & _ & _ & _ & _ & _ & _ & _ & Hjle & _ & Hs).
  destruct parent_cut as [Hlo Hhi]. rewrite Forall_lookup in Hlo, Hhi.
  apply bisect_left_unique; [done|done| |].
  - intros a y Hlt Ha. apply (Hlo a y). by apply lookup_take_Some.
  - intros a y Hge Ha. apply blt_asym. apply (Hhi (a - j) y).
    rewrite lookup_drop. by replace (j + (a - j)) with a by lia.
Qed.

Lemma parent_insert_inv :
  tree_inv m cap ps' G r None (if Page.is_overfull p' then Some i else None) chain ks.
Proof.
  pose proof Hinv as [Hm Hc Hsize Hfmt Hstr Hchn Hcnt].
  destruct parent_facts
    as (Hl & Hrt & Hlrt & Hil & Hirt & Hlr & Hht & Hht' & Hhil & Hlort & Hlol & Hhirt
        & Hlo & Hhi & Hkey & Hlen & Hjle & Hmax & Hsorted).
  destruct parent_cut as [Hcut1 Hcut2].
  pose proof (lookup_lt_Some _ _ _ Hi) as Hlt.
  pose proof (fi_pages _ _ _ _ _ Hfmt i p Hi) as [Hid Hord Hkeys Hcount Hshape].
  rewrite Hleaf in Hshape. destruct Hshape as (_ & Hone & Hnext & Hvalid).
  assert (length ps' = length ps) as Hlen' by apply length_insert.
  assert (forall a q, ps' !! a = Some q ->
            (a = i /\ q = p') \/ (a <> i /\ ps !! a = Some q)) as Hcases.
  { intros a q Ha. apply list_lookup_insert_Some in Ha as [(<- & <- & _)|[Hne Ha]].
    - by left.
    - right. split; [congruence|done]. }
  assert (Page.keys p' = list_insert j key (Page.keys p)) as Ek
    by (unfold p'; by rewrite parent_pos).
  assert (Page.children p' = list_insert (j + 1) (id_of rt) (Page.children p)) as Ec
    by (unfold p'; by rewrite parent_pos).
  assert (Page.is_leaf p' = false) as El by done.
  assert (forall a, eff_hi G None a = g_hi (G a)) as Heff by done.
  assert (forall a, a <> l -> eff_hi G (Some (l, key, rt)) a = g_hi (G a)) as Heff'.
  { intros a Ha. unfold eff_hi. by rewrite decide_False. }
  (* the children of the parent, before and after *)
  assert (forall b c, Page.children p' !! b = Some c ->
            (b <= j /\ Page.children p !! b = Some c) \/
            (b = j + 1 /\ c = id_of rt) \/
            (j + 1 < b /\ Page.children p !! (b - 1) = Some c)) as Hch.
  { intros b c Hb. rewrite Ec, list_insert_lookup in Hb by lia.
    destruct (decide (b < j + 1)); [left; split; [lia|done]|].
    destruct (decide (b = j + 1)); [right; left; split; congruence|].
    right; right. split; [lia|done]. }
  assert (forall b, Page.keys p' !! b =
            if decide (b < j) then Page.keys p !! b
            else if decide (b = j) then Some key else Page.keys p !! (b - 1)) as Hkl.
  { intros b. rewrite Ek. by apply list_insert_lookup. }
  (* no page but the parent has [l] as a child, and none has [rt] *)
  assert (forall a q b, ps !! a = Some q -> Page.is_leaf q = false ->
            Page.children q !! b = Some (id_of l) -> a = i /\ b = j) as Honly.
  { intros a q b Ha Hq Hb. by apply (si_inj _ _ _ _ _ Hstr a q b i p j (id_of l)). }
  assert (forall a q b, ps !! a = Some q -> Page.is_leaf q = false ->
            Page.children q !! b <> Some (id_of rt)) as Hnone.
  { intros a q b Ha Hq Hb.
    destruct (si_child _ _ _ _ _ Hstr a q b _ Ha Hq Hb) as (i' & Hid' & _ & _ & _ & _ & Hn).
    apply id_of_inj in Hid'. subst i'. by apply Hn. }
  split; [done|done|done| | | |].
  - (* format *)
    split.
    + intros a q Ha. rewrite Hlen'. destruct (Hcases a q Ha) as [[-> ->]|[Hne Hq]].
      * split; [done|done| | |].
        -- rewrite Ek. apply Forall_forall. intros y Hy.
           apply list_insert_elem in Hy as [->|Hy]; [done|].
           rewrite Forall_forall in Hkeys. by apply Hkeys.
        -- rewrite Ek, list_insert_length. lia.
        -- rewrite El, Ek, Ec, !list_insert_length. split_and!; [lia|lia|done|].
           apply Forall_forall. intros y Hy.
           apply list_insert_elem in Hy as [->|Hy]; [by exists rt|].
           rewrite Forall_forall in Hvalid. by apply Hvalid.
      * by apply (fi_pages _ _ _ _ _ Hfmt).
    + rewrite Hlen'. apply (fi_root _ _ _ _ _ Hfmt).
    + intros a q Ha Hover. destruct (Hcases a q Ha) as [[-> ->]|[Hne Hq]].
      * unfold Page.is_overfull in Hover.
        destruct (Nat.leb_spec (Page.order p') (length (Page.keys p'))) as [|Hlt'];
          [done|]. by rewrite (eq_refl : Page.order p' = Page.order p), Hord in Hlt'.
      * by apply (fi_max _ _ _ _ _ Hfmt a q Hq).
    + intros a q Ha [Hr|[]]. destruct (Hcases a q Ha) as [[-> ->]|[Hne Hq]].
      * pose proof (fi_min _ _ _ _ _ Hfmt i p Hi (or_introl Hr)) as Hmin.
        unfold min_keys in *. rewrite El, Ek, list_insert_length. rewrite Hleaf in Hmin. lia.
      * apply (fi_min _ _ _ _ _ Hfmt a q Hq). by left.
    + done.
  - (* structure *)
    split.
    + intros a q Ha. destruct (Hcases a q Ha) as [[-> ->]|[Hne Hq]].
      * rewrite El, <- Hleaf. apply (si_ht _ _ _ _ _ Hstr i p Hi).
      * by apply (si_ht _ _ _ _ _ Hstr a q).
    + rewrite Hlen'. apply (si_root_ht _ _ _ _ _ Hstr).
    + apply (si_root_lo _ _ _ _ _ Hstr).
    + rewrite Heff, <- (Heff' r) by done. apply (si_root_hi _ _ _ _ _ Hstr).
    + intros a q b c Ha Hq Hb. rewrite Hlen'.
      destruct (Hcases a q Ha) as [[-> ->]|[Hne Ha0]].
      * destruct (Hch b c Hb) as [[Hble Hb0]|[[-> ->]|[Hbgt Hb0]]].
        -- destruct (si_child _ _ _ _ _ Hstr i p b c Hi Hleaf Hb0)
             as (i' & -> & Hi' & Hhti & Hloi & Hhii & _).
           exists i'. split_and!; [done|done|done| | |by intros []].
           ++ rewrite Hloi. unfold lob. destruct b as [|b']; [done|].
              rewrite Hkl, decide_True by lia. done.
           ++ unfold hib. rewrite Hkl. destruct (decide (b < j)) as [Hbj|Hbj].
              ** rewrite Heff, <- (Heff' i'), Hhii; [done|].
                 intros ->. destruct (Honly i p b Hi Hleaf Hb0). lia.
              ** assert (b = j) as -> by lia. rewrite decide_True by done.
                 assert (i' = l) as -> by (apply id_of_inj; congruence).
                 by rewrite Heff.
        -- exists rt. split_and!; [done|done|lia| | |by intros []].
           ++ unfold lob. replace (j + 1) with (S j) by lia.
              rewrite Hkl, decide_False, decide_True by lia. done.
           ++ rewrite Heff, Hhirt. unfold hib. rewrite Hkl.
              rewrite decide_False, decide_False by lia.
              by replace (j + 1 - 1) with j by lia.
        -- destruct (si_child _ _ _ _ _ Hstr i p _ c Hi Hleaf Hb0)
             as (i' & -> & Hi' & Hhti & Hloi & Hhii & _).
           exists i'. split_and!; [done|done|done| | |by intros []].
           ++ rewrite Hloi. unfold lob. destruct b as [|b']; [lia|].
              rewrite Hkl, decide_False, decide_False by lia.
              replace (S b' - 1) with (S (b' - 1)) by lia. done.
           ++ unfold hib. rewrite Hkl, decide_False, decide_False by lia.
              rewrite Heff, <- (Heff' i'), Hhii; [done|].
              intros ->. destruct (Honly i p _ Hi Hleaf Hb0). lia.
      * destruct (si_child _ _ _ _ _ Hstr a q b c Ha0 Hq Hb)
          as (i' & -> & Hi' & Hhti & Hloi & Hhii & _).
        exists i'. split_and!; [done|done|done|done| |by intros []].
        rewrite Heff, <- (Heff' i'), Hhii; [done|].
        intros ->. destruct (Honly a q b Ha0 Hq Hb). done.
    + intros a q b a' q' b' c Ha Hq Hb Ha' Hq' Hb'.
      destruct (Hcases a q Ha) as [[-> ->]|[Hne Ha0]];
      destruct (Hcases a' q' Ha') as [[-> ->]|[Hne' Ha0']].
      * split; [done|].
        destruct (Hch b c Hb) as [[Hble Hb0]|[[Hbe Hce]|[Hbgt Hb0]]];
        destruct (Hch b' c Hb') as [[Hble' Hb0']|[[Hbe' Hce']|[Hbgt' Hb0']]];
          try lia;
          try (exfalso; subst c; by eapply (Hnone i p));
          destruct (si_inj _ _ _ _ _ Hstr _ _ _ _ _ _ _ Hi Hleaf Hb0 Hi Hleaf Hb0'); lia.
      * exfalso. destruct (Hch b c Hb) as [[Hble Hb0]|[[-> ->]|[Hbgt Hb0]]].
        -- by destruct (si_inj _ _ _ _ _ Hstr _ _ _ _ _ _ _ Hi Hleaf Hb0 Ha0' Hq' Hb').
        -- by eapply (Hnone a' q').
        -- by destruct (si_inj _ _ _ _ _ Hstr _ _ _ _ _ _ _ Hi Hleaf Hb0 Ha0' Hq' Hb').
      * exfalso. destruct (Hch b' c Hb') as [[Hble Hb0]|[[-> ->]|[Hbgt Hb0]]].
        -- by destruct (si_inj _ _ _ _ _ Hstr _ _ _ _ _ _ _ Hi Hleaf Hb0 Ha0 Hq Hb).
        -- by eapply (Hnone a q).
        -- by destruct (si_inj _ _ _ _ _ Hstr _ _ _ _ _ _ _ Hi Hleaf Hb0 Ha0 Hq Hb).
      * by apply (si_inj _ _ _ _ _ Hstr _ _ _ _ _ _ _ Ha0 Hq Hb Ha0' Hq' Hb').
    + intros a q Ha. destruct (Hcases a q Ha) as [[-> ->]|[Hne Hq]].
      * rewrite Ek. unfold list_insert. apply StronglySorted_app_2.
        -- intros y z Hy Hz. rewrite Forall_forall in Hcut1, Hcut2.
           apply elem_of_cons in Hz as [->|Hz]; [by apply Hcut1|].
           eapply blt_trans; [by apply Hcut1|by apply Hcut2].
        -- by apply sorted_take.
        -- constructor; [by apply sorted_drop|done].
      * by apply (si_sorted _ _ _ _ _ Hstr a q).
    + intros a q y Ha Hy. destruct (Hcases a q Ha) as [[-> ->]|[Hne Hq]].
      * rewrite El. rewrite Ek in Hy. apply list_insert_elem in Hy as [->|Hy].
        -- split.
           ++ unfold lob in Hlo. destruct j as [|j']; [exact Hlo|].
              destruct (Page.keys p !! j') as [kj|] eqn:E;
                [|apply lookup_ge_None in E; lia]. simpl in Hlo.
              eapply lo_lt_trans; [|exact Hlo].
              pose proof (si_range _ _ _ _ _ Hstr i p kj Hi) as Hr.
              rewrite Hleaf in Hr. apply Hr. by eapply list_elem_of_lookup_2.
           ++ unfold hib in Hhi.
              destruct (Page.keys p !! j) as [kj|] eqn:E; [|exact Hhi]. simpl in Hhi.
              eapply lt_hi_trans; [exact Hhi|].
              apply (si_range _ _ _ _ _ Hstr i p kj Hi). by eapply list_elem_of_lookup_2.
        -- pose proof (si_range _ _ _ _ _ Hstr i p y Hi Hy) as Hr.
           by rewrite Hleaf in Hr.
      * by apply (si_range _ _ _ _ _ Hstr a q y).
    + done.
  - (* chain *)
    destruct Hchn as [Hchain Hnd Hleaves Hkeys'].
    assert (forall a, a ∈ chain -> a <> i) as Hin.
    { intros a Ha%Hleaves ->. destruct Ha as (q & Hq & Hql). congruence. }
    split.
    + eapply chain_ok_frame; [| |exact Hchain]; [|done].
      intros a q Ha Hq. exists q. split; [|done].
      unfold ps'. rewrite list_lookup_insert_ne; [done|]. intros <-. by apply (Hin i).
    + done.
    + intros a. rewrite Hleaves. split; intros (q & Hq & Hql).
      * exists q. split; [|done]. unfold ps'.
        rewrite list_lookup_insert_ne; [done|]. intros <-. congruence.
      * destruct (Hcases a q Hq) as [[-> ->]|[Hne Hq0]]; [congruence|eauto].
    + rewrite (chain_keys_frame ps ps' chain); [done|].
      intros a Ha. unfold ps'. rewrite keys_at_insert by done.
      rewrite decide_False; [done|]. by apply Hin.
  - (* counters *)
    destruct Hcnt as [Hint Hleaf'].
    split; unfold sum_int, n_leaf, sum_leaf, ps' in *.
    + rewrite (psum_insert_add _ ps i p p' 1); [|done|].
      * rewrite (psum_insert_eq _ ps i p p'); [simpl in *; lia|done|].
        by rewrite El, Hleaf.
      * rewrite El, Hleaf, Ek, list_insert_length. lia.
    + rewrite (psum_insert_eq _ ps i p p'); [done|done|]. by rewrite El, Hleaf.
Qed.
End ParentInsert.

(** *** A new root over the two pages of a split root *)

Section NewRoot.
Context {m cap : nat} {ps : list Page.t} {G : nat -> ghost} {r : nat}
        {chain : list nat} {ks : list bytes}.
Context (rt : nat) (key : bytes).
Hypothesis Hinv : tree_inv m cap ps G r (Some (r, key, rt)) None chain ks.

Let n := length ps.
Let root' := Page.with_keys [key] [id_of r; id_of rt] (Page.new_internal m (id_of n)).
Let ps' := ps ++ [root'].
Let G' := gupd G n (mk_ghost None None (g_ht (G r) + 1)).

Lemma new_root_inv : tree_inv m cap ps' G' n None None chain ks.
Proof.
  pose proof Hinv as [Hm Hc Hsize Hfmt Hstr Hchn Hcnt].
  destruct (si_pend _ _ _ _ _ Hstr)
    as (Hr & Hrt & Hne & Hhi & Hlo & Hht & Hlt & Hgt & Hkey).
  fold n in Hr, Hrt.
  assert (length ps' = S n) as Hlen'.
  { unfold ps'. rewrite length_app. simpl. unfold n. lia. }
  assert (forall a q, ps' !! a = Some q ->
            (a = n /\ q = root') \/ (a < n /\ ps !! a = Some q)) as Hcases.
  { intros a q Ha. unfold ps' in Ha. apply lookup_app_Some in Ha as [Ha|[Hge Ha]].
    - right. split; [by eapply lookup_lt_Some|done].
    - left. apply list_lookup_singleton_Some in Ha as [Ha <-]. split; [|done].
      unfold n. lia. }
  assert (forall a, a < n -> G' a = G a) as HG.
  { intros a Ha. unfold G'. rewrite gupd_ne; [done|lia]. }
  assert (G' n = mk_ghost None None (g_ht (G r) + 1)) as HGn
    by (unfold G'; by rewrite gupd_eq).
  assert (forall a q, ps !! a = Some q -> ps' !! a = Some q) as Hold.
  { intros a q Ha. unfold ps'. by apply lookup_app_l_Some. }
  assert (forall a, eff_hi G (Some (r, key, rt)) a
                    = if decide (a = r) then g_hi (G rt) else g_hi (G a)) as Heff by done.
  assert (g_hi (G rt) = None) as Hhirt.
  { pose proof (si_root_hi _ _ _ _ _ Hstr) as H. by rewrite Heff, decide_True in H. }
  assert (forall a q b, ps !! a = Some q -> Page.is_leaf q = false ->
            Page.children q !! b <> Some (id_of rt)) as Hnone.
  { intros a q b Ha Hq Hb.
    destruct (si_child _ _ _ _ _ Hstr a q b _ Ha Hq Hb) as (i' & Hid' & _ & _ & _ & _ & Hn).
    apply id_of_inj in Hid'. subst i'. by apply Hn. }
  assert (forall b c, Page.children root' !! b = Some c ->
            (b = 0 /\ c = id_of r) \/ (b = 1 /\ c = id_of rt)) as Hch.
  { intros [|[|b]] c Hb; simpl in Hb; [left|right|done]; split; congruence. }
  split; [done|done|done| | | |].
  - (* format *)
    split.
    + intros a q Ha. rewrite Hlen'. destruct (Hcases a q Ha) as [[-> ->]|[Hlt' Hq]].
      * split; [done|done| | |].
        -- by constructor.
        -- simpl. lia.
        -- simpl. split_and!; [done|done|done|].
           constructor; [exists r; split; [lia|done]|].
           constructor; [exists rt; split; [lia|done]|constructor].
      * eapply page_ok_mono; [by apply (fi_pages _ _ _ _ _ Hfmt)|]. fold n. lia.
    + lia.
    + intros a q Ha _. destruct (Hcases a q Ha) as [[-> ->]|[Hlt' Hq]].
      * simpl. lia.
      * by apply (fi_max _ _ _ _ _ Hfmt a q Hq).
    + intros a q Ha [Han|[]]. destruct (Hcases a q Ha) as [[-> ->]|[Hlt' Hq]]; [done|].
      apply (fi_min _ _ _ _ _ Hfmt a q Hq).
      destruct (decide (a = r)) as [->|]; [by right|by left].
    + done.
  - (* structure *)
    split.
    + intros a q Ha. destruct (Hcases a q Ha) as [[-> ->]|[Hlt' Hq]].
      * rewrite HGn. simpl. split; [done|lia].
      * rewrite HG by done. by apply (si_ht _ _ _ _ _ Hstr a q).
    + rewrite Hlen', HGn. simpl. pose proof (si_root_ht _ _ _ _ _ Hstr). fold n in H. lia.
    + by rewrite HGn.
    + unfold eff_hi. by rewrite HGn.
    + intros a q b c Ha Hq Hb. rewrite Hlen'.
      destruct (Hcases a q Ha) as [[-> ->]|[Hlt' Ha0]].
      * destruct (Hch b c Hb) as [[-> ->]|[-> ->]].
        -- exists r. rewrite HGn, HG by done. cbn [g_ht g_lo g_hi lob hib].
           split_and!; [done|lia|done| | |by intros []].
           ++ apply (si_root_lo _ _ _ _ _ Hstr).
           ++ unfold eff_hi. rewrite HG by done. done.
        -- exists rt. rewrite HGn, HG by done. cbn [g_ht g_lo g_hi lob hib].
           split_and!; [done|lia|lia| | |by intros []].
           ++ done.
           ++ unfold eff_hi. rewrite HG by done. done.
      * destruct (si_child _ _ _ _ _ Hstr a q b c Ha0 Hq Hb)
          as (i' & -> & Hi' & Hhti & Hloi & Hhii & _).
        fold n in Hi'.
        exists i'. rewrite !HG by done. split_and!; [done|lia|done|done| |by intros []].
        unfold eff_hi. rewrite HG by done. rewrite <- Hhii, Heff.
        rewrite decide_False; [done|]. intros ->.
        by apply (root_not_child Hinv a q b Ha0 Hq).
    + intros a q b a' q' b' c Ha Hq Hb Ha' Hq' Hb'.
      destruct (Hcases a q Ha) as [[-> ->]|[Hlt' Ha0]];
      destruct (Hcases a' q' Ha') as [[-> ->]|[Hlt'' Ha0']].
      * split; [done|].
        destruct (Hch b c Hb) as [[-> Hc1]|[-> Hc1]];
        destruct (Hch b' c Hb') as [[-> Hc2]|[-> Hc2]]; try done;
          exfalso; apply Hne; apply id_of_inj; congruence.
      * exfalso. destruct (Hch b c Hb) as [[-> ->]|[-> ->]].
        -- by apply (root_not_child Hinv a' q' b' Ha0' Hq').
        -- by apply (Hnone a' q' b' Ha0' Hq').
      * exfalso. destruct (Hch b' c Hb') as [[-> ->]|[-> ->]].
        -- by apply (root_not_child Hinv a q b Ha0 Hq).
        -- by apply (Hnone a q b Ha0 Hq).
      * by apply (si_inj _ _ _ _ _ Hstr _ _ _ _ _ _ _ Ha0 Hq Hb Ha0' Hq' Hb').
    + intros a q Ha. destruct (Hcases a q Ha) as [[-> ->]|[Hlt' Hq]].
      * simpl. repeat constructor.
      * by apply (si_sorted _ _ _ _ _ Hstr a q).
    + intros a q y Ha Hy. destruct (Hcases a q Ha) as [[-> ->]|[Hlt' Hq]].
      * by rewrite HGn.
      * rewrite HG by done. by apply (si_range _ _ _ _ _ Hstr a q y).
    + done.
  - (* chain *)
    destruct Hchn as [Hchain Hnd Hleaves Hkeys'].
    assert (forall a, a ∈ chain -> a < n) as Hin.
    { intros a Ha%Hleaves. destruct Ha as (q & Hq & _). by eapply lookup_lt_Some. }
    split.
    + eapply chain_ok_frame; [| |exact Hchain].
      * intros a q Ha Hq. exists q. split; [by apply Hold|done].
      * intros a Ha. by rewrite HG by (by apply Hin).
    + done.
    + intros a. rewrite Hleaves. split; intros (q & Hq & Hql).
      * exists q. split; [by apply Hold|done].
      * destruct (Hcases a q Hq) as [[-> ->]|[_ Hq0]]; [done|eauto].
    + rewrite (chain_keys_frame ps ps' chain); [done|].
      intros a Ha. unfold keys_at, ps'. rewrite lookup_app_l; [done|]. by apply Hin.
  - (* counters *)
    destruct Hcnt as [Hint Hleaf'].
    split; unfold sum_int, n_leaf, sum_leaf, ps' in *; rewrite !psum_app; simpl in *; lia.
Qed.
End NewRoot.

(** ** The insertion of the index, run on the file *)

Lemma bind_return {S A B} (c : M S A) (k : A -> M S B) s a s' :
  c s = (Return a, s') -> bind c k s = k a s'.
Proof. intros H. unfold bind. by rewrite H. Qed.

(** The object and its file hold the pages [ps], with the root at [r]. *)
Definition world_rep (m r : nat) (w : BPlusTreeIndex.world) (ps : list Page.t) : Prop :=
  exists meta, file_rep (snd w) meta ps /\
    BPlusTreeIndex.order (fst w) = m /\
    BPlusTreeIndex.root_page (fst w) = id_of r /\
    BPlusTreeIndex.free_pages (fst w) = [].

Lemma rep_get_page m r w ps i p :
  world_rep m r w ps -> ps !! i = Some p -> page_ok m (length ps) i p ->
  BPlusTreeIndex._get_page (id_of i) w = (Return p, w).
Proof.
  intros (meta & Hrep & Hord & _) Hi Hok. destruct w as [self file].
  eapply get_page_ok; [done|done|apply Hok|]. simpl in Hord. rewrite Hord. apply Hok.
Qed.

Lemma rep_write m r w ps i p0 p :
  world_rep m r w ps -> ps !! i = Some p0 -> page_fits p -> Page.page_id p = id_of i ->
  exists w', BPlusTreeIndex._write_page p w = (Return tt, w') /\ world_rep m r w' (<[i := p]> ps).
Proof.
  intros (meta & Hrep & Hord & Hroot & Hfree) Hi Hfit Hid. destruct w as [self file].
  destruct (write_page_replace self file meta ps i p0 p Hrep Hi Hfit Hid)
    as (file' & Hw & Hrep').
  exists (self, file'). split; [done|]. by exists meta.
Qed.

Lemma rep_append m r w ps p :
  world_rep m r w ps -> page_fits p -> Page.page_id p = id_of (length ps) ->
  exists w', BPlusTreeIndex._write_page p w = (Return tt, w') /\ world_rep m r w' (ps ++ [p]).
Proof.
  intros (meta & Hrep & Hord & Hroot & Hfree) Hfit Hid. destruct w as [self file].
  destruct (write_page_append self file meta ps p Hrep Hfit Hid) as (file' & Hw & Hrep').
  exists (self, file'). split; [done|]. by exists meta.
Qed.

Lemma rep_allocate m r w ps is_leaf :
  world_rep m r w ps ->
  BPlusTreeIndex._allocate_page is_leaf w
  = (Return (if is_leaf then Page.new_leaf m (id_of (length ps))
             else Page.new_internal m (id_of (length ps))), w).
Proof.
  intros (meta & Hrep & Hord & Hroot & Hfree). destruct w as [self file].
  cbn [fst snd] in *. rewrite (allocate_page_ok self file meta ps is_leaf Hrep Hfree).
  by rewrite Hord.
Qed.

Lemma rep_root m r w ps : world_rep m r w ps -> BPlusTreeIndex.root_page (fst w) = id_of r.
Proof. by intros (? & ? & ? & ? & ?). Qed.

Lemma rep_file_size m r w ps :
  world_rep m r w ps ->
  exists size,
    BPlusTreeIndex._get_file_size w = (Return size, w) /\
    size / PAGE_SIZE = S (length ps).
Proof.
  intros (meta & Hrep & _). destruct w as [self file]. exists (length file).
  split; [done|]. by eapply file_rep_pages.
Qed.

(** *** The descent to a leaf *)

(** The pages of [path] lead from the root down to the page at [c],
    which is of a height above [h]. *)
Fixpoint path_ok (ps : list Page.t) (G : nat -> ghost) (r c h : nat)
    (path : list Page.t) : Prop :=
  match path with
  | [] => c = r
  | p :: rest =>
      exists i j, ps !! i = Some p /\ Page.is_leaf p = false /\
        Page.children p !! j = Some (id_of c) /\ h < g_ht (G i) /\
        path_ok ps G r i (g_ht (G i)) rest
  end.

Lemma path_ok_frame ps G ps' G' r c h path :
  (forall i, h < g_ht (G i) -> i < length ps ->
     ps' !! i = ps !! i /\ g_ht (G' i) = g_ht (G i)) ->
  path_ok ps G r c h path -> path_ok ps' G' r c h path.
Proof.
  revert c h. induction path as [|p rest IH]; intros c h Hframe; [done|].
  intros (i & j & Hi & Hl & Hj & Hh & Hrest).
  destruct (Hframe i Hh (lookup_lt_Some _ _ _ Hi)) as [Hps HG].
  exists i, j. split_and!; [congruence|done|done|lia|].
  rewrite HG. apply IH; [|done]. intros a Ha. apply Hframe. lia.
Qed.

Section Descent.
Context {m cap : nat} {ps : list Page.t} {G : nat -> ghost} {r : nat}
        {chain : list nat} {ks : list bytes} (w : BPlusTreeIndex.world) (key : bytes).
Hypothesis Hinv : tree_inv m cap ps G r None None chain ks.
Hypothesis Hrep : world_rep m r w ps.

Lemma find_leaf_loop_ok fuel c pc path :
  ps !! c = Some pc -> g_ht (G c) <= fuel ->
  lo_le (g_lo (G c)) key -> lt_hi key (g_hi (G c)) ->
  path_ok ps G r c (g_ht (G c)) path ->
  exists l pl path',
    BPlusTreeIndex.find_leaf_loop fuel key pc path w = (Return (pl, path'), w) /\
    ps !! l = Some pl /\ Page.is_leaf pl = true /\
    lo_le (g_lo (G l)) key /\ lt_hi key (g_hi (G l)) /\
    path_ok ps G r l 0 path'.
Proof.
  pose proof Hinv as [Hm _ _ Hfmt Hstr _ _].
  revert c pc path. induction fuel as [|fuel IH]; intros c pc path Hc Hfuel Hlo Hhi Hpath.
  - assert (Page.is_leaf pc = true) as Hleaf
      by (apply (si_ht _ _ _ _ _ Hstr c pc Hc); lia).
    exists c, pc, path. simpl. rewrite Hleaf. split_and!; try done.
    replace 0 with (g_ht (G c)) by lia. done.
  - destruct (Page.is_leaf pc) eqn:Hleaf.
    + exists c, pc, path. simpl. rewrite Hleaf. split_and!; try done.
      apply (si_ht _ _ _ _ _ Hstr c pc Hc) in Hleaf. by rewrite Hleaf in Hpath.
    + cbn [BPlusTreeIndex.find_leaf_loop]. rewrite Hleaf.
      pose proof (si_sorted _ _ _ _ _ Hstr c pc Hc) as Hsorted.
      destruct (bisect_right_spec bytes_ltb [] _ key Hsorted) as (Hpos & Hbelow & Habove).
      set (pos := bisect_right bytes_ltb [] (Page.keys pc) key) in *.
      pose proof (pk_shape _ _ _ _ (fi_pages _ _ _ _ _ Hfmt c pc Hc)) as Hshape.
      rewrite Hleaf in Hshape. destruct Hshape as (Hlen & _).
      destruct (lookup_lt_is_Some_2 (Page.children pc) pos ltac:(lia)) as [child Hchild].
      destruct (si_child _ _ _ _ _ Hstr c pc pos child Hc Hleaf Hchild)
        as (c' & -> & Hc' & Hht & Hlo' & Hhi' & _).
      destruct (lookup_lt_is_Some_2 ps c' Hc') as [pc' Hpc'].
      erewrite bind_return; [|unfold lift, index; by rewrite Hchild].
      erewrite bind_return;
        [|by apply (rep_get_page m r w ps c' pc' Hrep Hpc'), (fi_pages _ _ _ _ _ Hfmt)].
      apply (IH c' pc' (pc :: path) Hpc'); [lia| | |].
      * rewrite Hlo'. unfold lob. destruct pos as [|a]; [done|].
        destruct (Page.keys pc !! a) as [y|] eqn:E; [|done]. simpl.
        apply (Hbelow a y); [lia|done].
      * change (g_hi (G c')) with (eff_hi G None c'). rewrite Hhi'. unfold hib.
        destruct (Page.keys pc !! pos) as [y|] eqn:E; [|done]. simpl.
        apply (Habove pos y); [lia|done].
      * exists c, pos. split_and!; [done|done|done|lia|done].
Qed.

(** The leaf that [insert] finds for a key, and the path to it. *)
Lemma find_leaf_page_ok pr :
  ps !! r = Some pr ->
  exists l pl path,
    BPlusTreeIndex._find_leaf_page key pr w = (Return (pl, path), w) /\
    ps !! l = Some pl /\ Page.is_leaf pl = true /\
    lo_le (g_lo (G l)) key /\ lt_hi key (g_hi (G l)) /\
    path_ok ps G r l 0 path.
Proof.
  intros Hr. pose proof Hinv as [_ _ _ _ Hstr _ _].
  destruct (rep_file_size m r w ps Hrep) as (size & Hsize & Hdiv).
  unfold BPlusTreeIndex._find_leaf_page. erewrite bind_return; [|exact Hsize]. rewrite Hdiv.
  apply (find_leaf_loop_ok _ r pr []); [done| | | |done].
  - pose proof (si_root_ht _ _ _ _ _ Hstr). lia.
  - by rewrite (si_root_lo _ _ _ _ _ Hstr).
  - change (g_hi (G r)) with (eff_hi G None r). by rewrite (si_root_hi _ _ _ _ _ Hstr).
Qed.
End Descent.

(** *** The way up: the key of a split goes to the parents *)

Lemma overfull_full m n i p :
  page_ok m n i p -> Page.is_overfull p = true -> length (Page.keys p) = m.
Proof.
  intros [_ Hord _ Hcount _]. unfold Page.is_overfull. rewrite Hord.
  intros H%Nat.leb_le. lia.
Qed.

Lemma split_ghost_ht G x n mk a : x <> n -> g_ht (split_ghost G x n mk a) = g_ht (G a) \/ a = n.
Proof.
  intros Hxn. unfold split_ghost. destruct (decide (a = n)) as [->|Han]; [by right|left].
  rewrite gupd_ne by done. destruct (decide (a = x)) as [->|Hax].
  - by rewrite gupd_eq.
  - by rewrite gupd_ne.
Qed.

Section Upward.
Context {m cap : nat} {chain : list nat} {ks : list bytes}.

Lemma new_root_ok ps G r key rt w left right :
  tree_inv m cap ps G r (Some (r, key, rt)) None chain ks ->
  world_rep m r w ps ->
  Page.page_id left = id_of r -> Page.page_id right = id_of rt ->
  exists w' ps' G' r',
    BPlusTreeIndex._insert_into_parent [] left key right w = (Return tt, w') /\
    world_rep m r' w' ps' /\ tree_inv m cap ps' G' r' None None chain ks.
Proof.
  intros Hinv Hrep Hleft Hright.
  pose proof (new_root_inv rt key Hinv) as Hinv'.
  set (n := length ps) in *.
  set (root' := Page.with_keys [key] [id_of r; id_of rt] (Page.new_internal m (id_of n)))
    in *.
  cbn [BPlusTreeIndex._insert_into_parent].
  erewrite bind_return; [|by apply (rep_allocate m r w ps false)].
  rewrite Hleft, Hright. fold n. fold root'.
  destruct w as [self file]. destruct Hrep as (meta & Hfile & Hord & Hroot & Hfree).
  cbn [fst snd] in *.
  erewrite bind_return; [|reflexivity].
  set (self' := BPlusTreeIndex.with_root_page (Page.page_id root') self).
  assert (world_rep m n (self', file) ps) as Hrep1 by (by exists meta).
  assert (page_fits root') as Hfit.
  { apply (inv_page_fits Hinv' n). unfold n. by rewrite lookup_app_r, Nat.sub_diag. }
  destruct (rep_append m n (self', file) ps root' Hrep1 Hfit eq_refl)
    as ([self2 file2] & Hw & (meta2 & Hfile2 & Hord2 & Hroot2 & Hfree2)).
  erewrite bind_return; [|exact Hw].
  assert ((N.of_nat (S n) < 2 ^ 64)%N) as Hsmall.
  { pose proof (pages_small Hinv) as H. fold n in H.
    assert ((2 ^ 32 < 2 ^ 64)%N) by done. lia. }
  change (Page.page_id root') with (N.of_nat (S n)).
  rewrite (pack_uint_fits 8 (N.of_nat (S n))) by exact Hsmall.
  cbn [fst snd] in *.
  destruct (write_root_pointer file2 meta2 (ps ++ [root']) (struct.pack_le 8 (N.of_nat (S n)))
              Hfile2 (pack_le_length _ _)) as (meta3 & Hfile3).
  eexists _, (ps ++ [root']), _, n. split; [reflexivity|]. split; [|exact Hinv'].
  by exists meta3.
Qed.

Lemma insert_into_parent_ok path :
  forall ps G r l key rt w left right,
    tree_inv m cap ps G r (Some (l, key, rt)) None chain ks ->
    world_rep m r w ps ->
    path_ok ps G r l (g_ht (G l)) path ->
    Page.page_id left = id_of l -> Page.page_id right = id_of rt ->
    exists w' ps' G' r',
      BPlusTreeIndex._insert_into_parent path left key right w = (Return tt, w') /\
      world_rep m r' w' ps' /\ tree_inv m cap ps' G' r' None None chain ks.
Proof.
  induction path as [|parent path' IH];
    intros ps G r l key rt w left right Hinv Hrep Hpath Hleft Hright.
  - simpl in Hpath. subst l. by eapply new_root_ok.
  - destruct Hpath as (i & j & Hi & Hleaf & Hj & Hh & Hpath').
    pose proof (parent_insert_inv l rt key i parent j Hinv Hi Hleaf Hj) as HinvC.
    cbn [BPlusTreeIndex._insert_into_parent]. rewrite Hright.
    set (pos := bisect_left bytes_ltb [] (Page.keys parent) key) in *.
    set (parent' := Page.with_keys (list_insert pos key (Page.keys parent))
                      (list_insert (pos + 1) (id_of rt) (Page.children parent)) parent) in *.
    set (psC := <[i := parent']> ps) in *.
    pose proof (lookup_lt_Some _ _ _ Hi) as Hlt.
    assert (psC !! i = Some parent') as HiC by (by apply list_lookup_insert_eq).
    pose proof (fi_pages _ _ _ _ _ (ti_fmt _ _ _ _ _ _ _ _ _ Hinv) i parent Hi) as Hok.
    destruct (rep_write m r w ps i parent parent' Hrep Hi (inv_page_fits HinvC i _ HiC)
                (pk_id _ _ _ _ Hok)) as (wC & Hw & HrepC).
    fold psC in HrepC.
    erewrite bind_return; [|exact Hw].
    destruct (Page.is_overfull parent') eqn:Hover.
    + pose proof (fi_pages _ _ _ _ _ (ti_fmt _ _ _ _ _ _ _ _ _ HinvC) i parent' HiC) as HokC.
      pose proof (overfull_full _ _ _ _ HokC Hover) as Hfull.
      destruct (internal_split_inv i parent' HinvC HiC Hleaf Hfull) as (mk & Hmk & HinvB).
      assert (length psC = length ps) as HlenC by apply length_insert.
      set (n := length psC) in *.
      set (mid := length (Page.keys parent') / 2) in *.
      set (rightB := Page.with_keys (drop (mid + 1) (Page.keys parent'))
                       (drop (mid + 1) (Page.children parent'))
                       (Page.new_internal m (id_of n))) in *.
      set (leftB := Page.with_keys (take mid (Page.keys parent'))
                      (take (mid + 1) (Page.children parent')) parent') in *.
      set (psB := <[i := leftB]> psC ++ [rightB]) in *.
      assert (i < n) as Hin by (unfold n; lia).
      assert (psB !! i = Some leftB) as HiB by (by apply split_pages_x).
      assert (psB !! n = Some rightB) as HnB by apply split_pages_n.
      unfold BPlusTreeIndex.split_internal_then.
      erewrite bind_return; [|by apply (rep_allocate m r wC psC false)].
      fold n mid rightB.
      erewrite bind_return; [|unfold lift, index; by rewrite Hmk].
      fold leftB.
      destruct (rep_write m r wC psC i parent' leftB HrepC HiC (inv_page_fits HinvB i _ HiB)
                  (pk_id _ _ _ _ HokC)) as (w1 & Hw1 & Hrep1).
      erewrite bind_return; [|exact Hw1].
      destruct (rep_append m r w1 (<[i := leftB]> psC) rightB Hrep1
                  (inv_page_fits HinvB n _ HnB))
        as (w2 & Hw2 & Hrep2).
      { by rewrite length_insert. }
      erewrite bind_return; [|exact Hw2].
      apply (IH psB (split_ghost G i n mk) r i mk n w2 leftB rightB HinvB Hrep2);
        [|by apply (pk_id _ _ _ _ HokC)|done].
      assert (g_ht (split_ghost G i n mk i) = g_ht (G i)) as Hhti.
      { destruct (split_ghost_ht G i n mk i ltac:(lia)) as [?|?]; [done|lia]. }
      rewrite Hhti. eapply path_ok_frame; [|exact Hpath'].
      intros a Ha Hal. split.
      * assert (a <> i) as Hai by (intros ->; lia).
        unfold psB. rewrite split_pages_other by (done || (fold n; lia)).
        unfold psC. rewrite list_lookup_insert_ne; [done|]. intros ->. lia.
      * destruct (split_ghost_ht G i n mk a ltac:(lia)) as [?|?]; [done|lia].
    + exists wC, psC, G, r. split; [reflexivity|]. split; [done|exact HinvC].
Qed.
End Upward.

(** *** One insertion *)

Section Insert.
Context {m cap : nat} {ps : list Page.t} {G : nat -> ghost} {r : nat}
        {chain : list nat} {ks : list bytes} (w : BPlusTreeIndex.world) (key : bytes) (value : N).
Hypothesis Hinv : tree_inv m cap ps G r None None chain ks.
Hypothesis Hrep : world_rep m r w ps.
Hypothesis Hnew : key ∉ ks.
Hypothesis Hkey : key_ok m key.
Hypothesis Hval : (value < 2 ^ 32)%N.
Hypothesis Hcap : length ks < cap.

Lemma insert_ok :
  exists w' ps' G' r' chain',
    BPlusTreeIndex.insert key value w = (Return tt, w') /\
    world_rep m r' w' ps' /\ tree_inv m cap ps' G' r' None None chain' (key :: ks).
Proof.
  pose proof Hinv as [Hm _ _ Hfmt Hstr _ _].
  destruct (lookup_lt_is_Some_2 ps r (fi_root _ _ _ _ _ Hfmt)) as [pr Hr].
  unfold BPlusTreeIndex.insert. erewrite bind_return; [|reflexivity].
  rewrite (rep_root m r w ps Hrep).
  erewrite bind_return; [|by apply (rep_get_page m r w ps r pr Hrep Hr), (fi_pages _ _ _ _ _ Hfmt)].
  destruct (find_leaf_page_ok w key Hinv Hrep pr Hr)
    as (l & pl & path & Hfind & Hl & Hleaf & Hlo & Hhi & Hpath).
  erewrite bind_return; [|exact Hfind]. cbv iota beta.
  rewrite (leaf_add_record l pl key value Hinv Hl Hleaf Hnew).
  pose proof (leaf_add_inv l pl key value Hinv Hl Hleaf Hlo Hhi Hnew Hkey Hval Hcap) as HinvA.
  set (pos := bisect_left bytes_ltb [] (Page.keys pl) key) in *.
  set (pA := Page.with_keys (list_insert pos key (Page.keys pl))
               (list_insert pos value (Page.children pl)) pl) in *.
  set (psA := <[l := pA]> ps) in *.
  pose proof (lookup_lt_Some _ _ _ Hl) as Hlt.
  assert (psA !! l = Some pA) as HlA by (by apply list_lookup_insert_eq).
  pose proof (fi_pages _ _ _ _ _ Hfmt l pl Hl) as Hok.
  destruct (rep_write m r w ps l pl pA Hrep Hl (inv_page_fits HinvA l _ HlA)
              (pk_id _ _ _ _ Hok)) as (wA & Hw & HrepA).
  fold psA in HrepA. erewrite bind_return; [|exact Hw].
  destruct (Page.is_overfull pA) eqn:Hover.
  - pose proof (fi_pages _ _ _ _ _ (ti_fmt _ _ _ _ _ _ _ _ _ HinvA) l pA HlA) as HokA.
    pose proof (overfull_full _ _ _ _ HokA Hover) as Hfull.
    destruct (leaf_split_inv l pA HinvA HlA Hleaf Hfull) as (mk & Hmk & HinvB).
    assert (length psA = length ps) as HlenA by apply length_insert.
    set (n := length psA) in *.
    set (mid := length (Page.keys pA) / 2) in *.
    set (new_leaf := Page.with_keys (drop mid (Page.keys pA)) (drop mid (Page.children pA))
                       (Page.new_leaf m (id_of n))) in *.
    set (leaf' := Page.with_keys (take mid (Page.keys pA)) (take mid (Page.children pA)) pA)
      in *.
    set (rightB := Page.with_next_page (Page.next_page leaf') new_leaf) in *.
    set (leftB := Page.with_next_page (Page.page_id rightB) leaf') in *.
    set (psB := <[l := leftB]> psA ++ [rightB]) in *.
    assert (l < n) as Hln by (unfold n; lia).
    assert (psB !! l = Some leftB) as HlB by (by apply split_pages_x).
    assert (psB !! n = Some rightB) as HnB by apply split_pages_n.
    unfold BPlusTreeIndex._split_leaf.
    erewrite bind_return; [|by apply (rep_allocate m r wA psA true)].
    fold n mid new_leaf leaf' rightB leftB.
    destruct (rep_write m r wA psA l pA leftB HrepA HlA (inv_page_fits HinvB l _ HlB)
                (pk_id _ _ _ _ HokA)) as (w1 & Hw1 & Hrep1).
    erewrite bind_return; [|exact Hw1].
    destruct (rep_append m r w1 (<[l := leftB]> psA) rightB Hrep1
                (inv_page_fits HinvB n _ HnB)) as (w2 & Hw2 & Hrep2).
    { by rewrite length_insert. }
    erewrite bind_return; [|exact Hw2].
    erewrite bind_return; [|unfold lift, index; by rewrite Hmk].
    assert (g_ht (G l) = 0) as Hht0 by (by apply (si_ht _ _ _ _ _ Hstr l pl Hl)).
    assert (path_ok psB (split_ghost G l n mk) r l (g_ht (split_ghost G l n mk l)) path)
      as HpathB.
    { assert (g_ht (split_ghost G l n mk l) = 0) as ->.
      { destruct (split_ghost_ht G l n mk l ltac:(lia)) as [?|?]; [congruence|lia]. }
      eapply path_ok_frame; [|exact Hpath].
      intros a Ha Hal. assert (a <> l) as Hal' by (intros ->; lia). split.
      - unfold psB. rewrite split_pages_other by (done || (fold n; lia)).
        unfold psA. by rewrite list_lookup_insert_ne.
      - destruct (split_ghost_ht G l n mk a ltac:(lia)) as [?|?]; [done|lia]. }
    destruct (insert_into_parent_ok path psB (split_ghost G l n mk) r l mk n w2 leftB rightB
                HinvB Hrep2 HpathB (pk_id _ _ _ _ HokA) eq_refl)
      as (w' & ps' & G' & r' & Hrun & Hrep' & Hinv').
    by exists w', ps', G', r', (insert_after l n chain).
  - exists wA, psA, G, r, chain. split; [reflexivity|]. split; [done|exact HinvA].
Qed.
End Insert.

(** *** A sequence of insertions *)

Lemma insert_all_ok m cap kvs :
  forall ps G r chain ks w,
    tree_inv m cap ps G r None None chain ks -> world_rep m r w ps ->
    NoDup (kvs.*1) -> (forall k, k ∈ kvs.*1 -> k ∉ ks) ->
    Forall (fun kv => key_ok m kv.1 /\ (kv.2 < 2 ^ 32)%N) kvs ->
    length ks + length kvs <= cap ->
    exists w' ps' G' r' chain' ks',
      IndexScenario.insert_all kvs w = (Return tt, w') /\
      world_rep m r' w' ps' /\ tree_inv m cap ps' G' r' None None chain' ks' /\
      ks' ≡ₚ kvs.*1 ++ ks.
Proof.
  induction kvs as [|[key value] kvs IH];
    intros ps G r chain ks w Hinv Hrep Hnd Hfresh Hall Hcap.
  - exists w, ps, G, r, chain, ks. by split_and!.
  - rewrite fmap_cons in Hnd, Hfresh. cbn [fst] in Hnd, Hfresh.
    apply NoDup_cons in Hnd as [Hk Hnd]. apply Forall_cons in Hall as [[Hkey Hval] Hall].
    simpl in Hcap, Hkey, Hval.
    destruct (insert_ok w key value Hinv Hrep)
      as (w1 & ps1 & G1 & r1 & chain1 & Hrun & Hrep1 & Hinv1);
      [apply Hfresh; by left|done|done|lia|].
    destruct (IH ps1 G1 r1 chain1 (key :: ks) w1 Hinv1 Hrep1 Hnd)
      as (w' & ps' & G' & r' & chain' & ks' & Hrun' & Hrep' & Hinv' & Hperm).
    + intros k Hin. apply not_elem_of_cons. split; [by intros ->|].
      apply Hfresh. by right.
    + done.
    + simpl. lia.
    + exists w', ps', G', r', chain', ks'. split_and!; [|done|done|].
      * cbn [IndexScenario.insert_all]. erewrite bind_return; [|exact Hrun]. exact Hrun'.
      * rewrite Hperm. rewrite fmap_cons. cbn [fst]. simpl.
        by rewrite Permutation_middle.
Qed.

(** *** The new index *)

Lemma created_ok m cap :
  3 <= m -> (N.of_nat m < 2 ^ 32)%N -> (2 * N.of_nat cap + 2 < 2 ^ 32)%N ->
  let ps := [Page.new_leaf m (id_of 0)] in
  world_rep m 0 (IndexScenario.created m) ps /\
  tree_inv m cap ps (fun _ => mk_ghost None None 0) 0 None None [0] [].
Proof.
  intros Hm Hm32 Hcap ps.
  assert (page_fits (Page.new_leaf m (id_of 0))) as Hfit.
  { split; [|unfold encoded_size, PAGE_SIZE; cbn; lia].
    split; [|done]. split; cbn; [lia|constructor|constructor|lia]. }
  split.
  - unfold IndexScenario.created, BPlusTreeIndex.__init__,
      BPlusTreeIndex._initialize_new_file, BPlusTreeIndex.pack_metadata.
    cbn [BPlusTreeIndex.order BPlusTreeIndex.root_page].
    rewrite (pack_uint_fits 4 BPlusTreeIndex.MAGIC) by done.
    rewrite (pack_uint_fits 4 (N.of_nat m)) by done.
    rewrite (pack_uint_fits 8 1) by done.
    rewrite (pack_uint_fits 4 0) by done.
    cbn [obind].
    change (LeafPage.serialize (Page.new_leaf m 1))
      with (serialize (Page.new_leaf m (id_of 0))).
    pose proof (image_length _ Hfit) as Hlen. unfold image in Hlen.
    destruct (serialize (Page.new_leaf m (id_of 0))) as [root|e] eqn:Hser;
      [|simpl in Hlen; unfold PAGE_SIZE in Hlen; lia].
    eexists. cbn [fst snd]. split; [|done]. unfold file_rep.
    split_and!; [| |by constructor].
    2:{ change (mjoin (image <$> ps)) with (image (Page.new_leaf m (id_of 0)) ++ []).
        unfold image. rewrite Hser. by rewrite app_nil_r. }
    unfold struct.ljust. rewrite length_app, length_replicate, !length_app.
    rewrite !pack_le_length. unfold PAGE_SIZE. lia.
  - split; [done|done|simpl; lia| | | |].
    + split.
      * intros i p Hi. apply list_lookup_singleton_Some in Hi as [-> <-].
        split; [done|done|constructor|simpl; lia|]. simpl. split_and!; [done|constructor|by left].
      * simpl. lia.
      * intros i p Hi _. apply list_lookup_singleton_Some in Hi as [-> <-]. simpl. lia.
      * intros i p Hi [Hne|[]]. apply list_lookup_singleton_Some in Hi as [-> <-]. done.
      * done.
    + split; try done.
      * intros i p Hi. by apply list_lookup_singleton_Some in Hi as [-> <-].
      * simpl. lia.
      * intros i p j c Hi Hl. apply list_lookup_singleton_Some in Hi as [-> <-]. done.
      * intros i p j i' p' j' c Hi Hl. apply list_lookup_singleton_Some in Hi as [-> <-]. done.
      * intros i p Hi. apply list_lookup_singleton_Some in Hi as [-> <-]. constructor.
      * intros i p k Hi Hk. apply list_lookup_singleton_Some in Hi as [-> <-].
        by apply elem_of_nil in Hk.
    + split.
      * simpl. by exists (Page.new_leaf m (id_of 0)).
      * apply NoDup_singleton.
      * intros i. rewrite list_elem_of_singleton. split.
        -- intros ->. by exists (Page.new_leaf m (id_of 0)).
        -- intros (p & Hi & _). by apply list_lookup_singleton_Some in Hi as [-> _].
      * done.
    + by split.
Qed.

(** *** The walk over the leaves *)

Lemma ble_trans a b c : bytes_ltb b a = false -> bytes_ltb c b = false -> bytes_ltb c a = false.
Proof.
  intros Hab Hbc. destruct (bytes_ltb c a) eqn:E; [|done].
  pose proof (ble_lt_trans b c a Hbc E) as H. unfold lt_rel in H. congruence.
Qed.

Lemma lo_le_trans lo a b : lo_le lo a -> bytes_ltb b a = false -> lo_le lo b.
Proof. destruct lo; simpl; [apply ble_trans|done]. Qed.

(** The pages of the chain after the first have a lower bound. *)
Lemma chain_ok_tail ps G lo c rest i :
  chain_ok ps G lo (c :: rest) -> i ∈ rest -> exists k, g_lo (G i) = Some k.
Proof.
  revert lo c. induction rest as [|c' rest IH]; intros lo c Hc Hi.
  - by apply elem_of_nil in Hi.
  - destruct Hc as (p & _ & _ & k & _ & _ & Hrest).
    apply elem_of_cons in Hi as [->|Hi].
    + destruct Hrest as (p' & _ & Hlo & _). eauto.
    + by apply (IH (Some k) c').
Qed.

Section Walk.
Context {m cap : nat} {ps : list Page.t} {G : nat -> ghost} {r : nat}
        {chain : list nat} {ks : list bytes} (w : BPlusTreeIndex.world).
Hypothesis Hinv : tree_inv m cap ps G r None None chain ks.
Hypothesis Hrep : world_rep m r w ps.

Lemma walk_get_page i p : ps !! i = Some p -> BPlusTreeIndex._get_page (id_of i) w = (Return p, w).
Proof.
  intros Hi. apply (rep_get_page m r w ps i p Hrep Hi).
  by apply (fi_pages _ _ _ _ _ (ti_fmt _ _ _ _ _ _ _ _ _ Hinv)).
Qed.

Lemma leftmost_loop_ok fuel c pc :
  ps !! c = Some pc -> g_ht (G c) <= fuel -> g_lo (G c) = None ->
  exists l pl,
    IndexScenario.leftmost_loop fuel pc w = (Return pl, w) /\
    ps !! l = Some pl /\ Page.is_leaf pl = true /\ g_lo (G l) = None.
Proof.
  pose proof Hinv as [Hm _ _ Hfmt Hstr _ _].
  revert c pc. induction fuel as [|fuel IH]; intros c pc Hc Hfuel Hlo.
  - assert (Page.is_leaf pc = true) as Hleaf
      by (apply (si_ht _ _ _ _ _ Hstr c pc Hc); lia).
    exists c, pc. simpl. by rewrite Hleaf.
  - destruct (Page.is_leaf pc) eqn:Hleaf.
    + exists c, pc. simpl. by rewrite Hleaf.
    + cbn [IndexScenario.leftmost_loop]. rewrite Hleaf.
      pose proof (pk_shape _ _ _ _ (fi_pages _ _ _ _ _ Hfmt c pc Hc)) as Hshape.
      rewrite Hleaf in Hshape. destruct Hshape as (Hlen & _).
      destruct (lookup_lt_is_Some_2 (Page.children pc) 0 ltac:(lia)) as [child Hchild].
      destruct (si_child _ _ _ _ _ Hstr c pc 0 child Hc Hleaf Hchild)
        as (c' & -> & Hc' & Hht & Hlo' & _).
      destruct (lookup_lt_is_Some_2 ps c' Hc') as [pc' Hpc'].
      erewrite bind_return; [|unfold lift, index; by rewrite Hchild].
      erewrite bind_return; [|by apply walk_get_page].
      apply (IH c' pc' Hpc'); [lia|]. by rewrite Hlo'.
Qed.

(** The walk starts at the first page of the chain. *)
Lemma leftmost_leaf_ok :
  exists c rest pc,
    chain = c :: rest /\ ps !! c = Some pc /\
    IndexScenario.leftmost_leaf w = (Return pc, w).
Proof.
  pose proof Hinv as [_ _ _ Hfmt Hstr [Hchain _ Hleaves _] _].
  destruct (lookup_lt_is_Some_2 ps r (fi_root _ _ _ _ _ Hfmt)) as [pr Hr].
  destruct (rep_file_size m r w ps Hrep) as (size & Hsize & Hdiv).
  destruct (leftmost_loop_ok (size / PAGE_SIZE + 1) r pr Hr) as (l & pl & Hrun & Hl & Hleaf & Hlo).
  { pose proof (si_root_ht _ _ _ _ _ Hstr). lia. }
  { apply (si_root_lo _ _ _ _ _ Hstr). }
  assert (exists c rest, chain = c :: rest) as (c & rest & Hch).
  { clear Hleaves. destruct chain; [done|eauto]. }
  assert (l ∈ c :: rest) as Hin by (rewrite <- Hch; apply Hleaves; eauto).
  rewrite Hch in Hchain.
  apply elem_of_cons in Hin as [->|Hin].
  - exists c, rest, pl. split_and!; [done|done|].
    unfold IndexScenario.leftmost_leaf. erewrite bind_return; [|reflexivity].
    rewrite (rep_root m r w ps Hrep).
    erewrite bind_return; [|by apply walk_get_page].
    erewrite bind_return; [|exact Hsize]. exact Hrun.
  - destruct (chain_ok_tail ps G None c rest l Hchain Hin) as [k Hk]. congruence.
Qed.

Lemma chain_loop_ok rest :
  forall lo fuel c pc,
    chain_ok ps G lo (c :: rest) -> ps !! c = Some pc -> length rest <= fuel ->
    IndexScenario.chain_loop fuel pc w = (Return (chain_keys ps (c :: rest)), w).
Proof.
  induction rest as [|c' rest IH]; intros lo fuel c pc Hc Hpc Hfuel.
  - destruct Hc as (p & Hp & _ & _ & Hnext). assert (p = pc) as -> by congruence.
    destruct fuel; simpl; rewrite Hnext; simpl; unfold chain_keys, keys_at; simpl;
      by rewrite Hpc, app_nil_r.
  - destruct Hc as (p & Hp & _ & k & _ & Hnext & Hrest).
    assert (p = pc) as -> by congruence.
    pose proof Hrest as (pc' & Hpc' & _).
    destruct fuel as [|fuel]; [simpl in Hfuel; lia|].
    cbn [IndexScenario.chain_loop]. rewrite Hnext.
    replace (id_of c' =? 0)%N with false by (symmetry; apply N.eqb_neq; unfold id_of; lia).
    erewrite bind_return; [|by apply walk_get_page].
    erewrite bind_return; [|apply (IH (Some k) fuel c' pc' Hrest Hpc'); simpl in Hfuel; lia].
    unfold ret. f_equal. f_equal.
    unfold chain_keys. rewrite !fmap_cons. cbn [mjoin list_join].
    f_equal. unfold keys_at. by rewrite Hpc.
Qed.

(** The bounds of a leaf are in order. *)
Lemma leaf_bounds i p h :
  ps !! i = Some p -> Page.is_leaf p = true -> g_hi (G i) = Some h ->
  lo_le (g_lo (G i)) h.
Proof.
  intros Hi Hleaf Hh. pose proof Hinv as [Hm _ _ Hfmt Hstr _ _].
  destruct (decide (i = r)) as [->|Hne].
  - by rewrite (si_root_lo _ _ _ _ _ Hstr).
  - pose proof (fi_min _ _ _ _ _ Hfmt i p Hi (or_introl Hne)) as Hmin.
    unfold min_keys in Hmin. rewrite Hleaf in Hmin.
    assert (1 <= m / 2) as Hhalf by (change 1 with (2 / 2); apply Nat.Div0.div_le_mono; lia).
    destruct (Page.keys p) as [|k0 kl] eqn:E; [cbn [length] in Hmin; lia|].
    pose proof (si_range _ _ _ _ _ Hstr i p k0 Hi) as Hr. rewrite E, Hleaf, Hh in Hr.
    destruct Hr as [Hlo Hlt]; [by left|]. simpl in Hlt.
    eapply lo_le_trans; [exact Hlo|]. by apply blt_asym.
Qed.

Lemma chain_sorted ch :
  forall lo, chain_ok ps G lo ch ->
    StronglySorted blt (chain_keys ps ch) /\ Forall (lo_le lo) (chain_keys ps ch).
Proof.
  pose proof Hinv as [_ _ _ _ Hstr _ _].
  induction ch as [|c rest IH]; intros lo Hc; [done|].
  destruct Hc as (p & Hp & Hlo & Hrest).
  pose proof (si_sorted _ _ _ _ _ Hstr c p Hp) as Hs.
  assert (chain_keys ps (c :: rest) = Page.keys p ++ chain_keys ps rest) as ->.
  { unfold chain_keys. rewrite fmap_cons. cbn [mjoin list_join].
    f_equal. unfold keys_at. by rewrite Hp. }
  destruct rest as [|c' rest'].
  - change (chain_keys ps []) with (@nil bytes). rewrite app_nil_r. split; [done|].
    apply Forall_forall. intros k Hk.
    pose proof (si_range _ _ _ _ _ Hstr c p k Hp Hk) as [Hr _]. rewrite Hlo in Hr.
    destruct (Page.is_leaf p); [done|by apply lo_lt_le].
  - destruct Hrest as (h & Hh & Hnext & Hrest).
    destruct (IH (Some h) Hrest) as [Hsorted Hall].
    assert (Forall (fun k => blt k h) (Page.keys p)) as Hlt.
    { apply Forall_forall. intros k Hk.
      pose proof (si_range _ _ _ _ _ Hstr c p k Hp Hk) as [_ Hr]. by rewrite Hh in Hr. }
    assert (Forall (lo_le lo) (Page.keys p)) as Hge'.
    { apply Forall_forall. intros k Hk.
      pose proof (si_range _ _ _ _ _ Hstr c p k Hp Hk) as [Hr _]. rewrite Hlo in Hr.
      destruct (Page.is_leaf p); [done|by apply lo_lt_le]. }
    split.
    + apply StronglySorted_app_2; [|done|done].
      intros x y Hx Hy. rewrite Forall_forall in Hlt, Hall.
      eapply blt_le_trans; [by apply Hlt|]. by apply (Hall y).
    + apply Forall_app. split; [done|].
      assert (lo_le lo h) as Hloh.
      { destruct (Page.keys p) as [|k0 kl] eqn:E.
        - destruct (Page.is_leaf p) eqn:Hleaf.
          + rewrite <- Hlo. by apply (leaf_bounds c p h).
          + pose proof (pk_shape _ _ _ _ (fi_pages _ _ _ _ _
              (ti_fmt _ _ _ _ _ _ _ _ _ Hinv) c p Hp)) as Hshape.
            rewrite Hleaf, E in Hshape. simpl in Hshape. lia.
        - apply Forall_cons in Hge' as [Hk0 _]. apply Forall_cons in Hlt as [Hk0' _].
          eapply lo_le_trans; [exact Hk0|]. by apply blt_asym. }
      eapply Forall_impl; [exact Hall|]. intros y Hy. simpl in Hy.
      by eapply lo_le_trans.
Qed.

(** The walk returns the keys of the chain: the keys inserted, in
    ascending order. *)
Lemma leaf_chain_keys_ok :
  exists L, IndexScenario.leaf_chain_keys w = (Return L, w) /\
    StronglySorted blt L /\ L ≡ₚ ks.
Proof.
  pose proof Hinv as [_ _ _ _ _ [Hchain Hnd Hleaves Hkeys] _].
  destruct leftmost_leaf_ok as (c & rest & pc & Hch & Hpc & Hleft).
  destruct (rep_file_size m r w ps Hrep) as (size & Hsize & Hdiv).
  exists (chain_keys ps chain). split_and!.
  - unfold IndexScenario.leaf_chain_keys.
    erewrite bind_return; [|exact Hleft]. erewrite bind_return; [|exact Hsize].
    rewrite Hch in Hchain. rewrite Hch. apply (chain_loop_ok rest None); [done|done|].
    assert (length (c :: rest) <= length (seq 0 (length ps))) as Hle.
    { rewrite <- Hch. apply submseteq_length, NoDup_submseteq; [done|].
      intros i Hi. apply Hleaves in Hi as (p & Hp & _).
      apply elem_of_seq. apply lookup_lt_Some in Hp. lia. }
    rewrite length_seq in Hle. simpl in Hle. lia.
  - by apply (chain_sorted chain None).
  - done.
Qed.

(** Every page of the file is read as it is in [ps]. *)
Lemma pages_ok pid :
  1 <= pid < length (snd w) / PAGE_SIZE ->
  exists p, BPlusTreeIndex._get_page (N.of_nat pid) w = (Return p, w) /\
    (N.of_nat pid <> BPlusTreeIndex.root_page (fst w) -> (m + 1) / 2 - 1 <= length (Page.keys p)) /\
    (Page.is_leaf p = false -> length (Page.children p) = length (Page.keys p) + 1).
Proof.
  intros Hpid. pose proof Hinv as [Hm _ _ Hfmt _ _ _].
  destruct (rep_file_size m r w ps Hrep) as (size & Hsize & Hdiv).
  assert (size = length (snd w)) as -> by (destruct w; by injection Hsize).
  rewrite Hdiv in Hpid.
  destruct (lookup_lt_is_Some_2 ps (pid - 1) ltac:(lia)) as [p Hp].
  exists p. replace (N.of_nat pid) with (id_of (pid - 1)) by (unfold id_of; lia).
  split_and!.
  - by apply walk_get_page.
  - rewrite (rep_root m r w ps Hrep).
    intros Hne. assert (pid - 1 <> r) as Hne' by congruence.
    pose proof (fi_min _ _ _ _ _ Hfmt _ p Hp (or_introl Hne')) as Hmin.
    unfold min_keys in Hmin.
    pose proof (Nat.div_mod_eq m 2). pose proof (Nat.div_mod_eq (m + 1) 2).
    pose proof (Nat.mod_upper_bound m 2 ltac:(lia)).
    pose proof (Nat.mod_upper_bound (m + 1) 2 ltac:(lia)).
    destruct (Page.is_leaf p); lia.
  - intros Hleaf. pose proof (pk_shape _ _ _ _ (fi_pages _ _ _ _ _ Hfmt _ p Hp)) as Hs.
    rewrite Hleaf in Hs. lia.
Qed.
End Walk.

(** ** The structure of the index after insertions *)

(** [ceil(a / 2)] *)
Definition ceil_half (a : nat) : nat := (a + 1) / 2.




